(** * gpggohigh: a shallow embedding of the high-level GPGME wrapper

    The development follows the Go package [gpggohigh]:
    - [keys.go]       the key / user ID / signature model builder
                      ([fillKey], [fillUserIDs], [fillUidSignatures])
                      and [KeyList];
    - [main.go]       [RandomString];
    - [encrypt.go]    [ModRecipients], [EncryptFile], [DecryptFile];
    - [signatures.go] [SignBytes], [VerifyBytes], [TextArrayToBytes],
                      [BytesToTextArray].

    The GPGME binding, [crypto/rand] and [slices.SortFunc] are not part of
    the package.  They are taken as interfaces (type classes), and the code
    is verified against every implementation of them.  The Go [os] package
    is modelled on a map from paths to files, after its documentation. *)

From Stdlib Require Import ZArith Ascii String.
From Stdlib.Strings Require Import Byte.
From stdpp Require Import gmap strings list sorting pretty.

Local Open Scope Z_scope.


(** ** Go values used by the package *)

(** [time.Time], as the instant it denotes. *)
Definition Time := Z.

(** [func (t Time) Compare(u Time) int]: -1, 0 or +1. *)
Definition Time_Compare (t u : Time) : Z :=
  match t ?= u with
  | Lt => -1
  | Eq => 0
  | Gt => 1
  end.

(** [slices.SortFunc] of the Go standard library.  It sorts in place and is
    not stable; its documented contract is all the package relies on: the
    result is a rearrangement of the input, and it is ascending for [cmp]
    when [cmp] is a consistent ordering. *)
Definition cmp_le {A} (cmp : A → A → Z) : relation A := λ a b, cmp a b <= 0.

Definition cmp_ordering {A} (cmp : A → A → Z) : Prop :=
  (∀ a b, cmp_le cmp a b ∨ cmp_le cmp b a) ∧
  (∀ a b c, cmp_le cmp a b → cmp_le cmp b c → cmp_le cmp a c).

Class Slices := {
  SortFunc : ∀ {A : Type}, (A → A → Z) → list A → list A;
  SortFunc_Permutation : ∀ A (cmp : A → A → Z) (s : list A),
    SortFunc cmp s ≡ₚ s;
  SortFunc_ascending : ∀ A (cmp : A → A → Z) (s : list A),
    cmp_ordering cmp → StronglySorted (cmp_le cmp) (SortFunc cmp s)
}.

(** ** The handles of the GPGME binding ([gpgme.Key] and what hangs off it)

    A handle is what its accessor methods return; the [Next] chains of user
    IDs and of key signatures are [nil]-terminated, hence lists.  The
    answers of [HasUserIDs()] and of [HasSig()] are fields of their own:
    the builder asks for them apart from the chains, and the binding that
    computes them is not part of the package. *)
Module gpgme.

Inductive Validity :=
| ValidityUnknown | ValidityUndefined | ValidityNever
| ValidityMarginal | ValidityFull | ValidityUltimate.

Inductive Protocol := ProtocolOpenPGP | ProtocolCMS | ProtocolOther (n : Z).

Module KeySignature.
Record t := {
  KeyID : string;
  Revoked : bool;
  Expired : bool;
  Invalid : bool;
  Exportable : bool;
  Created : Time;
  Expires : Time;
  DoesExpire : bool;
  UID : string;
  Name : string;
  Email : string;
  Comment : string;
  TrustScope : string;
  HasNotation : bool
}.
End KeySignature.

Module UserID.
Record t := {
  UID : string;
  Name : string;
  Invalid : bool;
  Revoked : bool;
  Validity : gpgme.Validity;
  Address : string;
  HasSig : bool;
  (** the chain [uid.Signatures()], [sig.Next()], ... *)
  Signatures : list KeySignature.t
}.
End UserID.

Module Key.
Record t := {
  Fingerprint : string;
  CanAuthenticate : bool;
  CanCertify : bool;
  CanEncrypt : bool;
  CanSign : bool;
  ChainID : string;
  Disabled : bool;
  Expired : bool;
  HasUserIDs : bool;
  Invalid : bool;
  IsQualified : bool;
  IssuerName : string;
  IssuerSerial : string;
  KeyListMode : Z;
  OwnerTrust : Validity;
  Protocol : gpgme.Protocol;
  Revoked : bool;
  Secret : bool;
  (** the chain [k.UserIDs()], [uid.Next()], ... *)
  UserIDs : list UserID.t
}.
End Key.

End gpgme.

(** ** keys.go: the flat records *)

Module KeyUidIssuerSignatureType.
Record t := {
  CreationTime : Time;
  ExpirationTime : Time;
  Expires : bool;
  IssuerKeyID : string;
  Revoked : bool;
  Expired : bool;
  Invalid : bool;
  Exportable : bool;
  UID : string;
  Name : string;
  Email : string;
  Comment : string;
  TrustScope : string;
  HasNotations : bool
}.
End KeyUidIssuerSignatureType.

(** [type KeyUidSignaturesType map[string][]KeyUidIssuerSignatureType];
    the [nil] map reads as the empty one. *)
Abbreviation KeyUidSignaturesType := (gmap string (list KeyUidIssuerSignatureType.t)).

Module KeyUserIDsType.
Record t := {
  UserID : string;
  Name : string;
  Invalid : bool;
  Revoked : bool;
  Validity : gpgme.Validity;
  Address : string;
  HasSignatures : bool;
  Signatures : KeyUidSignaturesType
}.
End KeyUserIDsType.

Module KeyType.
Record t := {
  Fingerprint : string;
  CanAuthenticate : bool;
  CanCertify : bool;
  CanEncrypt : bool;
  CanSign : bool;
  ChainID : string;
  Disabled : bool;
  Expired : bool;
  HasUserIDs : bool;
  Invalid : bool;
  IsQualified : bool;
  IssuerName : string;
  IssuerSerial : string;
  KeyListMode : Z;
  OwnerTrust : gpgme.Validity;
  Protocol : gpgme.Protocol;
  Revoked : bool;
  Secret : bool;
  UserIDs : list KeyUserIDsType.t
}.
End KeyType.

(** ** keys.go: the model builder *)

Section builder.
Context `{Slices}.

(** The body of the loop of [fillUidSignatures] up to the map update:
    one engine signature copied field by field. *)
Definition oneSig (sig : gpgme.KeySignature.t) : KeyUidIssuerSignatureType.t :=
  {| KeyUidIssuerSignatureType.Revoked := gpgme.KeySignature.Revoked sig;
     KeyUidIssuerSignatureType.Expired := gpgme.KeySignature.Expired sig;
     KeyUidIssuerSignatureType.IssuerKeyID := gpgme.KeySignature.KeyID sig;
     KeyUidIssuerSignatureType.Invalid := gpgme.KeySignature.Invalid sig;
     KeyUidIssuerSignatureType.Exportable := gpgme.KeySignature.Exportable sig;
     KeyUidIssuerSignatureType.CreationTime := gpgme.KeySignature.Created sig;
     KeyUidIssuerSignatureType.ExpirationTime := gpgme.KeySignature.Expires sig;
     KeyUidIssuerSignatureType.Expires := gpgme.KeySignature.DoesExpire sig;
     KeyUidIssuerSignatureType.UID := gpgme.KeySignature.UID sig;
     KeyUidIssuerSignatureType.Name := gpgme.KeySignature.Name sig;
     KeyUidIssuerSignatureType.Email := gpgme.KeySignature.Email sig;
     KeyUidIssuerSignatureType.Comment := gpgme.KeySignature.Comment sig;
     KeyUidIssuerSignatureType.TrustScope := gpgme.KeySignature.TrustScope sig;
     KeyUidIssuerSignatureType.HasNotations := gpgme.KeySignature.HasNotation sig |}.

(** [sigs[keyID] = append(sigs[keyID], oneSig)]: a missing key reads as
    the [nil] slice. *)
Definition appendSig (sigs : KeyUidSignaturesType) (sig : gpgme.KeySignature.t)
    : KeyUidSignaturesType :=
  let keyID := gpgme.KeySignature.KeyID sig in
  <[keyID := default [] (sigs !! keyID) ++ [oneSig sig]]> sigs.

(** The comparator handed to [slices.SortFunc]: [b] is compared to [a]. *)
Definition byCreationTimeDesc (a b : KeyUidIssuerSignatureType.t) : Z :=
  Time_Compare (KeyUidIssuerSignatureType.CreationTime b)
               (KeyUidIssuerSignatureType.CreationTime a).

(** [fillUidSignatures]: group the chain by issuer, then sort every group.
    The groups are sorted independently of each other, so the iteration
    order of the Go map does not show. *)
Definition fillUidSignatures (uid : gpgme.UserID.t) : KeyUidSignaturesType :=
  let sigs := fold_left appendSig (gpgme.UserID.Signatures uid) ∅ in
  SortFunc byCreationTimeDesc <$> sigs.

Definition oneUid (uid : gpgme.UserID.t) : KeyUserIDsType.t :=
  let HasSignatures := gpgme.UserID.HasSig uid in
  {| KeyUserIDsType.UserID := gpgme.UserID.UID uid;
     KeyUserIDsType.Name := gpgme.UserID.Name uid;
     KeyUserIDsType.Invalid := gpgme.UserID.Invalid uid;
     KeyUserIDsType.Revoked := gpgme.UserID.Revoked uid;
     KeyUserIDsType.Validity := gpgme.UserID.Validity uid;
     KeyUserIDsType.Address := gpgme.UserID.Address uid;
     KeyUserIDsType.HasSignatures := HasSignatures;
     KeyUserIDsType.Signatures :=
       if HasSignatures then fillUidSignatures uid else ∅ |}.

(** [fillUserIDs]: walk the chain from [uid] until [nil], appending. *)
Fixpoint fillUserIDs_from (uid : list gpgme.UserID.t) (uids : list KeyUserIDsType.t)
    : list KeyUserIDsType.t :=
  match uid with
  | [] => uids
  | u :: next => fillUserIDs_from next (uids ++ [oneUid u])
  end.

Definition fillUserIDs (uid : list gpgme.UserID.t) : list KeyUserIDsType.t :=
  fillUserIDs_from uid [].

Definition fillKey (k : gpgme.Key.t) : KeyType.t :=
  let HasUserIDs := gpgme.Key.HasUserIDs k in
  {| KeyType.Fingerprint := gpgme.Key.Fingerprint k;
     KeyType.CanAuthenticate := gpgme.Key.CanAuthenticate k;
     KeyType.CanCertify := gpgme.Key.CanCertify k;
     KeyType.CanEncrypt := gpgme.Key.CanEncrypt k;
     KeyType.CanSign := gpgme.Key.CanSign k;
     KeyType.ChainID := gpgme.Key.ChainID k;
     KeyType.Disabled := gpgme.Key.Disabled k;
     KeyType.Expired := gpgme.Key.Expired k;
     KeyType.HasUserIDs := HasUserIDs;
     KeyType.Invalid := gpgme.Key.Invalid k;
     KeyType.IsQualified := gpgme.Key.IsQualified k;
     KeyType.IssuerName := gpgme.Key.IssuerName k;
     KeyType.IssuerSerial := gpgme.Key.IssuerSerial k;
     KeyType.KeyListMode := gpgme.Key.KeyListMode k;
     KeyType.OwnerTrust := gpgme.Key.OwnerTrust k;
     KeyType.Protocol := gpgme.Key.Protocol k;
     KeyType.Revoked := gpgme.Key.Revoked k;
     KeyType.Secret := gpgme.Key.Secret k;
     KeyType.UserIDs :=
       if HasUserIDs then fillUserIDs (gpgme.Key.UserIDs k) else [] |}.

End builder.

(** ** Errors

    A Go [error] is [nil] or one of the values below; [option error] is the
    Go type, [None] being [nil]. *)
Inductive error :=
| io_EOF                                         (** the sentinel [io.EOF] *)
| Foreign (text : string)                        (** an error of [os] or of the engine, by its [Error()] text *)
| Errorf_w (prefix : string) (err : error)        (** [fmt.Errorf(prefix + "%w", err)] *)
| Errorf_w_nil (prefix : string)                 (** [fmt.Errorf(prefix + "%w", err)], [err] being [nil] *)
| Errorf_v (prefix : string) (operand : Z)       (** [fmt.Errorf(prefix + "%v", operand)] *)
| Errorf_s (prefix : string) (operand : string)  (** [fmt.Errorf(prefix + "%s", operand)] *)
| Errorf_0 (text : string).                      (** [fmt.Errorf(text)] *)

(** [err.Error()] *)
Fixpoint Error (e : error) : string :=
  match e with
  | io_EOF => "EOF"
  | Foreign text => text
  | Errorf_w prefix e' => prefix +:+ Error e'
  | Errorf_w_nil prefix => prefix +:+ "%!w(<nil>)"
  | Errorf_v prefix operand => prefix +:+ pretty operand
  | Errorf_s prefix operand => prefix +:+ operand
  | Errorf_0 text => text
  end.

(** [fmt.Errorf(prefix + "%w", err)] for an [err] that may be [nil] *)
Definition fmt_Errorf_w (prefix : string) (err : option error) : error :=
  match err with
  | Some e => Errorf_w prefix e
  | None => Errorf_w_nil prefix
  end.

(** [err == io.EOF] *)
Definition is_EOF (err : option error) : bool :=
  match err with
  | Some io_EOF => true
  | _ => false
  end.

(** ** The outside world *)

(** A path names a regular file with its bytes, or a directory. *)
Inductive node :=
| File (content : list byte)
| Dir.

Abbreviation filesystem := (gmap string node).

(** The two data objects every function of the package creates. *)
Inductive Data := dataIn | dataOut.

Global Instance Data_eq_dec : EqDecision Data.
Proof. solve_decision. Defined.

(** Every call that leaves the package, with what it answered. *)
Inductive event :=
| os_Stat_ev (name : string) (err : option error)
| os_Rename_ev (oldpath newpath : string) (err : option error)
| os_Remove_ev (name : string) (err : option error)
| rand_Int_ev (max : Z) (r : Z)
| New_ev (err : option error)
| Release_ev
| SetProtocol_ev (p : gpgme.Protocol) (err : option error)
| SetArmor_ev (armored : bool)
| NewData_ev (d : Data) (err : option error)
| NewDataBytes_ev (d : Data) (b : list byte) (err : option error)
| SetFileName_ev (d : Data) (name : string) (err : option error)
| Close_ev (d : Data) (err : option error)
| Rewind_ev (d : Data) (err : option error)
| Read_ev (d : Data) (b : list byte) (err : option error)
| FindKeys_ev (search : string) (secretOnly : bool) (err : option error)
| Encrypt_ev (sign : bool) (recipients : list gpgme.Key.t) (flags : Z)
    (err : option error) (written : option (list byte))
| DecryptVerify_ev (err : option error) (written : option (list byte))
| DecryptResult_ev (err : option error)
| VerifyResult_ev (err : option error)
| Sign_ev (signers : list gpgme.Key.t) (err : option error)
| Verify_ev (err : option error).

(** The state a call runs in: the files, the file name each data object was
    given, and the calls made so far (oldest first). *)
Record World := {
  fs : filesystem;
  fileName : Data → option string;
  log : list event
}.

Definition emit (e : event) (w : World) : World :=
  {| fs := fs w; fileName := fileName w; log := log w ++ [e] |}.

Definition set_fs (f : filesystem) (w : World) : World :=
  {| fs := f; fileName := fileName w; log := log w |}.

Definition set_fileName (d : Data) (name : option string) (w : World) : World :=
  {| fs := fs w;
     fileName := λ d', if decide (d' = d) then name else fileName w d';
     log := log w |}.

(** The engine and the random source answer as they please: an answer may
    depend on the arguments, on the files and on everything that happened
    before.  The numeric values of the flags are the binding's. *)
Class Outside := {
  gpgme_EncryptAlwaysTrust : Z;
  gpgme_EncryptFile : Z;
  gpgme_EncryptAddRecp : Z;
  gpgme_EncryptChgRecp : Z;
  gpgme_DecryptResultType : Type;
  gpgme_DecryptResultType_zero : gpgme_DecryptResultType;
  gpgme_Signature : Type;
  gpgme_SignatureType : Type;
  on_rand_Int : World → Z → Z;
  on_New : World → option error;
  on_SetProtocol : World → gpgme.Protocol → option error;
  on_NewData : World → Data → option error;
  on_NewDataBytes : World → Data → list byte → option error;
  on_SetFileName : World → Data → string → option error;
  on_Close : World → Data → option error;
  on_Rewind : World → Data → option error;
  on_Read : World → Data → nat → list byte * option error;
  on_FindKeys : World → string → bool → error + list gpgme.Key.t;
  (** the answer of an encryption, and the bytes it wrote to the output
      file, if it wrote *)
  on_Encrypt : World → bool → list gpgme.Key.t → Z → option error * option (list byte);
  on_DecryptVerify : World → option error * option (list byte);
  on_DecryptResult : World → gpgme_DecryptResultType * option error;
  on_VerifyResult : World → string * list gpgme_Signature * option error;
  on_Sign : World → list gpgme.Key.t → option error;
  on_Verify : World → string * list gpgme_SignatureType * option error
}.

(** ** Sequencing

    The package is written in the Go manner: a call, a test of [err], an
    early return.  A computation takes the world and gives an answer of
    type [X]; [X] is [A * World] for the functions without a loop and
    [option (A * World)] for the two that drain a stream (they get fuel). *)
Definition M (A : Type) : Type := World → A * World.

Definition ret {A} (a : A) : M A := λ w, (a, w).

Definition bind {A X} (c : M A) (k : A → World → X) : World → X :=
  λ w, let '(a, w1) := c w in k a w1.

(** [err = c; if err != nil { return onerr(err) }; k] *)
Definition check {X} (c : M (option error)) (onerr : error → World → X)
    (k : World → X) : World → X :=
  bind c (λ err, match err with Some e => onerr e | None => k end).

(** [defer cleanup; body]: the cleanup runs when the body has returned. *)
Definition defer {A} (cleanup : M unit) (body : M A) : M A :=
  λ w, let '(a, w1) := body w in (a, snd (cleanup w1)).

Definition deferP {A} (cleanup : M unit) (body : World → option (A * World))
    : World → option (A * World) :=
  λ w, match body w with
       | Some (a, w1) => Some (a, snd (cleanup w1))
       | None => None
       end.

Declare Scope go_scope.
Delimit Scope go_scope with go.
Notation "x <- c ;; k" := (bind c (λ x, k))
  (at level 100, c at next level, right associativity) : go_scope.
Notation "c 'orelse' onerr ;; k" := (check c onerr k)
  (at level 100, onerr at next level, right associativity) : go_scope.
Local Open Scope go_scope.

(** ** The Go [os] package, on the files of the world

    Paths are opaque names.  [os.Stat] fails exactly on a name that is
    absent.  [os.Rename] moves a node: "If newpath already exists and is
    not a directory, Rename replaces it"; it fails when [oldpath] is
    absent, when [newpath] is a directory, and when a directory would
    replace a file.  [os.Remove] fails exactly on a name that is absent.
    Errors are the [*PathError] and [*LinkError] of the package, by their
    texts. *)
Definition ENOENT : string := "no such file or directory".
Definition EEXIST : string := "file exists".
Definition ENOTDIR : string := "not a directory".

Definition PathError (op path text : string) : error :=
  Foreign (op +:+ " " +:+ path +:+ ": " +:+ text).

Definition LinkError (op old new text : string) : error :=
  Foreign (op +:+ " " +:+ old +:+ " " +:+ new +:+ ": " +:+ text).

Definition os_Stat (name : string) : M (option node * option error) :=
  λ w, match fs w !! name with
       | Some n => ((Some n, None), emit (os_Stat_ev name None) w)
       | None =>
           let err := Some (PathError "stat" name ENOENT) in
           ((None, err), emit (os_Stat_ev name err) w)
       end.

(** [fileStat.IsDir()] *)
Definition IsDir (fileStat : option node) : bool :=
  match fileStat with
  | Some Dir => true
  | _ => false
  end.

Definition os_Rename (oldpath newpath : string) : M (option error) :=
  λ w, let fails text :=
         let err := Some (LinkError "rename" oldpath newpath text) in
         (err, emit (os_Rename_ev oldpath newpath err) w) in
       match fs w !! oldpath, fs w !! newpath with
       | None, _ => fails ENOENT
       | Some _, Some Dir => fails EEXIST
       | Some Dir, Some (File _) => fails ENOTDIR
       | Some n, _ =>
           (None, emit (os_Rename_ev oldpath newpath None)
                    (set_fs (<[newpath := n]> (delete oldpath (fs w))) w))
       end.

Definition os_Remove (name : string) : M (option error) :=
  λ w, match fs w !! name with
       | None =>
           let err := Some (PathError "remove" name ENOENT) in
           (err, emit (os_Remove_ev name err) w)
       | Some _ => (None, emit (os_Remove_ev name None) (set_fs (delete name (fs w)) w))
       end.

(** ** What the functions with named results return *)

Module DecryptFile_returns.
Record t (R S : Type) := {
  decryptionResult : R;
  filename : string;
  signatures : list S;
  warning : string;
  err : option error
}.
Arguments decryptionResult {R S}.
Arguments filename {R S}.
Arguments signatures {R S}.
Arguments warning {R S}.
Arguments err {R S}.
End DecryptFile_returns.

Module SignBytes_returns.
Record t := {
  cipherText : list byte;
  n : nat;
  signingFingerPrints : list string;
  err : option error
}.
End SignBytes_returns.

Module VerifyBytes_returns.
Record t (S : Type) := {
  plainText : list byte;
  signatures : list S;
  filename : string;
  err : option error
}.
Arguments plainText {S}.
Arguments signatures {S}.
Arguments filename {S}.
Arguments err {S}.
End VerifyBytes_returns.

Section package.
Context `{Outside}.

(** ** Calls into the outside world *)

(** [rand.Int(rand.Reader, max)]: a number in [[0, max)].  Its error, on
    which [RandomString] would end the process, does not occur. *)
Definition rand_Int (max : Z) : M Z :=
  λ w, let r := on_rand_Int w max `mod` max in (r, emit (rand_Int_ev max r) w).

Definition gpgme_New : M (option error) :=
  λ w, let err := on_New w in (err, emit (New_ev err) w).

Definition Context_Release : M unit :=
  λ w, (tt, emit Release_ev w).

Definition Context_SetProtocol (p : gpgme.Protocol) : M (option error) :=
  λ w, let err := on_SetProtocol w p in (err, emit (SetProtocol_ev p err) w).

Definition Context_SetArmor (armored : bool) : M unit :=
  λ w, (tt, emit (SetArmor_ev armored) w).

(** A new data object has no file name. *)
Definition gpgme_NewData (d : Data) : M (option error) :=
  λ w, let err := on_NewData w d in
       (err, emit (NewData_ev d err)
               (match err with None => set_fileName d None w | Some _ => w end)).

Definition gpgme_NewDataBytes (d : Data) (b : list byte) : M (option error) :=
  λ w, let err := on_NewDataBytes w d b in
       (err, emit (NewDataBytes_ev d b err)
               (match err with None => set_fileName d None w | Some _ => w end)).

Definition Data_SetFileName (d : Data) (name : string) : M (option error) :=
  λ w, let err := on_SetFileName w d name in
       (err, emit (SetFileName_ev d name err)
               (match err with None => set_fileName d (Some name) w | Some _ => w end)).

Definition Data_Close (d : Data) : M (option error) :=
  λ w, let err := on_Close w d in (err, emit (Close_ev d err) w).

(** [defer d.Close()]: the error is dropped. *)
Definition Data_Close_deferred (d : Data) : M unit :=
  λ w, (tt, snd (Data_Close d w)).

Definition Data_Rewind (d : Data) : M (option error) :=
  λ w, let err := on_Rewind w d in (err, emit (Rewind_ev d err) w).

(** [n, err = d.Read(p)] with [len(p) = size]: at most [size] bytes. *)
Definition Data_Read (d : Data) (size : nat) : M (list byte * option error) :=
  λ w, let '(b, err) := on_Read w d size in
       let b := take size b in
       ((b, err), emit (Read_ev d b err) w).

Definition gpgme_FindKeys (search : string) (secretOnly : bool)
    : M (error + list gpgme.Key.t) :=
  λ w, let r := on_FindKeys w search secretOnly in
       (r, emit (FindKeys_ev search secretOnly
                   (match r with inl e => Some e | inr _ => None end)) w).

(** What the engine wrote goes to the file the output object names. *)
Definition engine_write (out : Data) (written : option (list byte)) (w : World) : World :=
  match written, fileName w out with
  | Some b, Some name => set_fs (<[name := File b]> (fs w)) w
  | _, _ => w
  end.

(** [ctx.Encrypt] ([sign = false]) and [ctx.EncryptSign] ([sign = true]) *)
Definition Context_Encrypt (sign : bool) (recipients : list gpgme.Key.t) (flags : Z)
    (plain cipher : Data) : M (option error) :=
  λ w, let '(err, written) := on_Encrypt w sign recipients flags in
       (err, emit (Encrypt_ev sign recipients flags err written)
               (engine_write cipher written w)).

Definition Context_DecryptVerify (cipher plain : Data) : M (option error) :=
  λ w, let '(err, written) := on_DecryptVerify w in
       (err, emit (DecryptVerify_ev err written) (engine_write plain written w)).

Definition Context_DecryptResult : M (gpgme_DecryptResultType * option error) :=
  λ w, let r := on_DecryptResult w in (r, emit (DecryptResult_ev (snd r)) w).

Definition Context_VerifyResult : M (string * list gpgme_Signature * option error) :=
  λ w, let r := on_VerifyResult w in (r, emit (VerifyResult_ev (snd r)) w).

Definition Context_Sign (signers : list gpgme.Key.t) (plain sig : Data) : M (option error) :=
  λ w, let err := on_Sign w signers in (err, emit (Sign_ev signers err) w).

Definition Context_Verify (sig plain : Data)
    : M (string * list gpgme_SignatureType * option error) :=
  λ w, let r := on_Verify w in (r, emit (Verify_ev (snd r)) w).

(** ** main.go *)

Definition charSet : list ascii :=
  list_ascii_of_string "abcdefghijklmnopqrstuvwxyzABCDEFGHIJKLMNOPQRSTUVWXYZ0123456789".

(** [for i := range s { r := rand.Int(rand.Reader, l); s[i] = charSet[r] }],
    with [todo] places of [s] still to fill. *)
Fixpoint RandomString_fill (todo : nat) (s : list ascii) : M (list ascii) :=
  match todo with
  | O => ret s
  | S todo' =>
      r <- rand_Int (Z.of_nat (length charSet)) ;;
      RandomString_fill todo' (s ++ [nth (Z.to_nat r) charSet zero])
  end.

Definition RandomString (n : Z) : M string :=
  if n <? 1 then ret EmptyString
  else s <- RandomString_fill (Z.to_nat n) [] ;; ret (string_of_list_ascii s).

(** ** encrypt.go *)

(** [for _, r := range recipients { keys, err := gpgme.FindKeys(r, false); ... }] *)
Fixpoint findRecipients {X} (recipients : list string) (thisRecipients : list gpgme.Key.t)
    (onerr : error → World → X) (k : list gpgme.Key.t → World → X) : World → X :=
  match recipients with
  | [] => k thisRecipients
  | r :: rest =>
      res <- gpgme_FindKeys r false ;;
      match res with
      | inl e => onerr e
      | inr keys => findRecipients rest (thisRecipients ++ keys) onerr k
      end
  end.

(** [return fmt.Errorf(prefix + "%w", err)] *)
Definition fail (prefix : string) (e : error) : M (option error) :=
  ret (Some (Errorf_w prefix e)).

Definition ModRecipients (operation : Z) (filename backupExtension : string)
    (recipients : list string) : M (option error) :=
  if negb (operation =? gpgme_EncryptAddRecp) && negb (operation =? gpgme_EncryptChgRecp)
  then ret (Some (Errorf_v "ModRecipients - invalid operation: " operation))
  else
  st <- os_Stat filename ;;
  let '(fileStat, err) := st in
  match err with
  | Some e => fail "ModRecipients - file does not exist: " e
  | None =>
  if IsDir fileStat
  then ret (Some (Errorf_w_nil "ModRecipients - file is a directory: "))
  else
  gpgme_New orelse fail "ModRecipients - gpgme.New failed: " ;;
  defer Context_Release (
  Context_SetProtocol gpgme.ProtocolOpenPGP
    orelse fail "ModRecipients - SetProtocol failed: " ;;
  gpgme_NewData dataIn orelse fail "ModRecipients - NewData (in) failed: " ;;
  defer (Data_Close_deferred dataIn) (
  Data_SetFileName dataIn filename
    orelse fail "ModRecipients - SetFileName (in) failed: " ;;
  gpgme_NewData dataOut orelse fail "ModRecipients - NewData (out) failed: " ;;
  defer (Data_Close_deferred dataOut) (
  rnd <- RandomString 8 ;;
  let randomFilePart := "." +:+ rnd in
  let outFilename := filename +:+ randomFilePart +:+ ".tmp" in
  Data_SetFileName dataOut outFilename
    orelse fail "ModRecipients - SetFileName (out) failed: " ;;
  findRecipients recipients [] (fail "ModRecipients - FindKeys failed: ")
    (λ thisRecipients,
  Context_Encrypt false thisRecipients (Z.lor operation gpgme_EncryptFile) dataIn dataOut
    orelse fail "ModRecipients - Encrypt failed: " ;;
  Data_Close dataOut orelse fail "ModRecipients - Close (out) failed: " ;;
  Data_Close dataIn orelse fail "ModRecipients - Close (in) failed: " ;;
  (if negb (String.eqb backupExtension "")
   then check (os_Rename filename (filename +:+ randomFilePart +:+ backupExtension))
          (fail "ModRecipients - file rename (1) failed: ")
   else check (os_Remove filename)
          (fail "ModRecipients - file remove failed: ")) (
  os_Rename outFilename filename
    orelse fail "ModRecipients - file rename (2) failed: " ;;
  ret None)))))
  end.

Definition EncryptFile (sourceFilename destinationFilename : string)
    (recipients : list string) (sign : bool) : M (option error) :=
  gpgme_New orelse fail "EncryptFile - gpgme.New failed: " ;;
  defer Context_Release (
  Context_SetProtocol gpgme.ProtocolOpenPGP
    orelse fail "EncryptFile - SetProtocol failed: " ;;
  gpgme_NewData dataIn orelse fail "EncryptFile - NewData (in) failed: " ;;
  defer (Data_Close_deferred dataIn) (
  Data_SetFileName dataIn sourceFilename
    orelse fail "EncryptFile - SetFileName (in) failed: " ;;
  gpgme_NewData dataOut orelse fail "EncryptFile - NewData (out) failed: " ;;
  defer (Data_Close_deferred dataOut) (
  let destination :=
    if String.eqb destinationFilename "" then sourceFilename +:+ ".gpg"
    else destinationFilename in
  Data_SetFileName dataOut destination
    orelse fail "EncryptFile - SetFileName (out) failed: " ;;
  findRecipients recipients [] (fail "EncryptFile - FindKeys (out) failed: ")
    (λ thisRecipients,
  err <- Context_Encrypt sign thisRecipients
           (Z.lor gpgme_EncryptAlwaysTrust gpgme_EncryptFile) dataIn dataOut ;;
  match err with
  | Some e => fail "EncryptFile - Encrypt failed: " e
  | None => ret err
  end)))).

(** Lines 269-282 of encrypt.go: the destination of [DecryptFile], [None]
    where the function returns its "no destination filename" error. *)
Definition DecryptFile_destination (cypherFilename clearFilename : string)
    : option string :=
  if String.eqb clearFilename "" then
    let len := String.length cypherFilename in
    if (4 <? len)%nat &&
       (String.eqb (substring (len - 4) 4 cypherFilename) ".gpg" ||
        String.eqb (substring (len - 4) 4 cypherFilename) ".pgp" ||
        String.eqb (substring (len - 4) 4 cypherFilename) ".asc")
    then Some (substring 0 (len - 4) cypherFilename)
    else None
  else Some clearFilename.

Definition DecryptFile_return (decryptionResult : gpgme_DecryptResultType)
    (filename : string) (signatures : list gpgme_Signature) (warning : string)
    (err : option error)
    : M (DecryptFile_returns.t gpgme_DecryptResultType gpgme_Signature) :=
  ret {| DecryptFile_returns.decryptionResult := decryptionResult;
         DecryptFile_returns.filename := filename;
         DecryptFile_returns.signatures := signatures;
         DecryptFile_returns.warning := warning;
         DecryptFile_returns.err := err |}.

(** [err = fmt.Errorf(prefix + "%w", err); return] while the other named
    results still have their zero values *)
Definition DecryptFile_fail (prefix : string) (e : error)
    : M (DecryptFile_returns.t gpgme_DecryptResultType gpgme_Signature) :=
  DecryptFile_return gpgme_DecryptResultType_zero "" [] "" (Some (Errorf_w prefix e)).

(** Lines 306-321 of encrypt.go, reached with [warning] set or empty. *)
Definition DecryptFile_results (warning : string)
    : M (DecryptFile_returns.t gpgme_DecryptResultType gpgme_Signature) :=
  r <- Context_DecryptResult ;;
  let '(decryptionResult, err) := r in
  match err with
  | Some e =>
      DecryptFile_return decryptionResult "" [] warning
        (Some (Errorf_w "DecryptFile - DecryptResult failed: " e))
  | None =>
  r <- Context_VerifyResult ;;
  let '(filename, signatures, err) := r in
  match err with
  | Some e =>
      DecryptFile_return decryptionResult filename signatures warning
        (Some (Errorf_w "DecryptFile - VerifyResult failed: " e))
  | None => DecryptFile_return decryptionResult filename signatures warning err
  end
  end.

Definition DecryptFile (cypherFilename clearFilename : string)
    : M (DecryptFile_returns.t gpgme_DecryptResultType gpgme_Signature) :=
  st <- os_Stat cypherFilename ;;
  let '(fileStat, err) := st in
  match err with
  | Some e => DecryptFile_fail "DecryptFile - file does not exist: " e
  | None =>
  if IsDir fileStat
  then DecryptFile_return gpgme_DecryptResultType_zero "" [] ""
         (Some (Errorf_w_nil "DecryptFile - file is a directory: "))
  else
  gpgme_New orelse DecryptFile_fail "DecryptFile - gpgme.New failed: " ;;
  defer Context_Release (
  Context_SetProtocol gpgme.ProtocolOpenPGP
    orelse DecryptFile_fail "DecryptFile - SetProtocol failed: " ;;
  gpgme_NewData dataIn orelse DecryptFile_fail "DecryptFile - NewData (in) failed: " ;;
  defer (Data_Close_deferred dataIn) (
  Data_SetFileName dataIn cypherFilename
    orelse DecryptFile_fail "DecryptFile - SetFileName (in) failed: " ;;
  gpgme_NewData dataOut orelse DecryptFile_fail "DecryptFile - NewData (out) failed: " ;;
  defer (Data_Close_deferred dataOut) (
  match DecryptFile_destination cypherFilename clearFilename with
  | None =>
      DecryptFile_return gpgme_DecryptResultType_zero "" [] ""
        (Some (Errorf_0 "DecryptFile - no destination filename given, and no `.gpg` or `.pgp` or `.asc` extension found"))
  | Some destination =>
  st <- os_Stat destination ;;
  match snd st with
  | None =>
      DecryptFile_return gpgme_DecryptResultType_zero "" [] ""
        (Some (Errorf_s "DecryptFile - destination file exists: " destination))
  | Some _ =>
  Data_SetFileName dataOut destination
    orelse DecryptFile_fail "DecryptFile - SetFileName (out) failed: " ;;
  err <- Context_DecryptVerify dataIn dataOut ;;
  match err with
  | Some e =>
      if String.eqb (Error e) "No data"
      then DecryptFile_results "DecryptFile - DecryptVerify: no encrypted data"
      else DecryptFile_fail "DecryptFile - DecryptVerify failed: " e
  | None => DecryptFile_results ""
  end
  end
  end)))
  end.

(** ** signatures.go *)

(** [make([]byte, 10240)]: the size of the chunk buffer *)
Definition chunkSize : nat := Z.to_nat 10240.

Definition retP {A} (a : A) : World → option (A * World) := λ w, Some (a, w).

Definition SignBytes_return (cipherText : list byte) (n : nat)
    (signingFingerPrints : list string) (err : option error)
    : World → option (SignBytes_returns.t * World) :=
  retP {| SignBytes_returns.cipherText := cipherText;
          SignBytes_returns.n := n;
          SignBytes_returns.signingFingerPrints := signingFingerPrints;
          SignBytes_returns.err := err |}.

(** The [for] loop of [SignBytes] (lines 100-110) and the [return] after
    it; every turn of the loop takes one unit of fuel. *)
Fixpoint SignBytes_read (fuel : nat) (cipherText : list byte)
    (signingFingerPrints : list string) : World → option (SignBytes_returns.t * World) :=
  match fuel with
  | O => λ _, None
  | S fuel' =>
      r <- Data_Read dataOut chunkSize ;;
      let '(cipherTextPart, err) := r in
      let n := length cipherTextPart in
      if bool_decide (err ≠ None) && negb (is_EOF err)
      then SignBytes_return cipherText n signingFingerPrints
             (Some (fmt_Errorf_w "SignBytes - Read failed: " err))
      else
      let cipherText := cipherText ++ cipherTextPart in
      if is_EOF err
      then SignBytes_return cipherText n signingFingerPrints err
      else SignBytes_read fuel' cipherText signingFingerPrints
  end.

Definition SignBytes (fuel : nat) (plainText : list byte) (signWith : string)
    (armored : bool) : World → option (SignBytes_returns.t * World) :=
  let fails := λ fingerPrints prefix e,
    SignBytes_return [] 0 fingerPrints (Some (Errorf_w prefix e)) in
  gpgme_New orelse fails [] "SignBytes - gpgme.New failed: " ;;
  deferP Context_Release (
  Context_SetProtocol gpgme.ProtocolOpenPGP
    orelse fails [] "SignBytes - SetProtocol failed: " ;;
  _ <- Context_SetArmor armored ;;
  gpgme_NewDataBytes dataIn plainText
    orelse fails [] "SignBytes - NewData (in) failed: " ;;
  deferP (Data_Close_deferred dataIn) (
  gpgme_NewData dataOut orelse fails [] "SignBytes - NewData (out) failed: " ;;
  deferP (Data_Close_deferred dataOut) (
  res <- gpgme_FindKeys signWith true ;;
  match res with
  | inl e => fails [] "SignBytes - FindKeys (out) failed: " e
  | inr keys =>
  let thisRecipients := [] ++ keys in
  let signingFingerPrints := [] ++ map gpgme.Key.Fingerprint thisRecipients in
  Context_Sign thisRecipients dataIn dataOut
    orelse fails signingFingerPrints "SignBytes - Encrypt failed: " ;;
  Data_Rewind dataOut orelse fails signingFingerPrints "SignBytes - Rewind failed: " ;;
  SignBytes_read fuel [] signingFingerPrints
  end))).

Definition VerifyBytes_return (plainText : list byte)
    (signatures : list gpgme_SignatureType) (filename : string) (err : option error)
    : World → option (VerifyBytes_returns.t gpgme_SignatureType * World) :=
  retP {| VerifyBytes_returns.plainText := plainText;
          VerifyBytes_returns.signatures := signatures;
          VerifyBytes_returns.filename := filename;
          VerifyBytes_returns.err := err |}.

(** The [for] loop of [VerifyBytes] (lines 165-177) and the [return] after it. *)
Fixpoint VerifyBytes_read (fuel : nat) (plainText : list byte)
    (signatures : list gpgme_SignatureType) (filename : string)
    : World → option (VerifyBytes_returns.t gpgme_SignatureType * World) :=
  match fuel with
  | O => λ _, None
  | S fuel' =>
      r <- Data_Read dataOut chunkSize ;;
      let '(plainTextPart, err) := r in
      let n := length plainTextPart in
      if bool_decide (err ≠ None) && negb (is_EOF err)
      then VerifyBytes_return plainText signatures filename
             (Some (fmt_Errorf_w "VerifyBytes - Read failed: " err))
      else
      let plainText := if (0 <? n)%nat then plainText ++ plainTextPart else plainText in
      if is_EOF err
      then VerifyBytes_return plainText signatures filename err
      else VerifyBytes_read fuel' plainText signatures filename
  end.

Definition VerifyBytes (fuel : nat) (cipherText : list byte)
    : World → option (VerifyBytes_returns.t gpgme_SignatureType * World) :=
  let fails := λ prefix e,
    VerifyBytes_return [] [] "" (Some (Errorf_w prefix e)) in
  gpgme_New orelse fails "VerifyBytes - gpgme.New failed: " ;;
  deferP Context_Release (
  Context_SetProtocol gpgme.ProtocolOpenPGP
    orelse fails "VerifyBytes - SetProtocol failed: " ;;
  gpgme_NewDataBytes dataIn cipherText
    orelse fails "VerifyBytes - NewData (in) failed: " ;;
  deferP (Data_Close_deferred dataIn) (
  gpgme_NewData dataOut orelse fails "VerifyBytes - NewData (out) failed: " ;;
  deferP (Data_Close_deferred dataOut) (
  r <- Context_Verify dataIn dataOut ;;
  let '(filename, signatures, err) := r in
  match err with
  | Some e =>
      VerifyBytes_return [] signatures filename
        (Some (Errorf_w "VerifyBytes - Verify failed: " e))
  | None =>
  Data_Rewind dataOut
    orelse (λ e, VerifyBytes_return [] signatures filename
                   (Some (Errorf_w "VerifyBytes - Rewind failed: " e))) ;;
  VerifyBytes_read fuel [] signatures filename
  end))).

End package.

(** ** Observing a run *)

(** The calls made between two states of the world. *)
Definition new_events (w w' : World) : list event :=
  drop (length (log w)) (log w').

(** What a call answered, for the calls that can fail. *)
Definition answer (ev : event) : option error :=
  match ev with
  | os_Stat_ev _ err | os_Rename_ev _ _ err | os_Remove_ev _ err
  | New_ev err | SetProtocol_ev _ err | NewData_ev _ err
  | NewDataBytes_ev _ _ err | SetFileName_ev _ _ err | Close_ev _ err
  | Rewind_ev _ err | Read_ev _ _ err | FindKeys_ev _ _ err
  | Encrypt_ev _ _ _ err _ | DecryptVerify_ev err _ | DecryptResult_ev err
  | VerifyResult_ev err | Sign_ev _ err | Verify_ev err => err
  | rand_Int_ev _ _ | Release_ev | SetArmor_ev _ => None
  end.

(** The calls of the [os] package. *)
Definition is_os_event (ev : event) : bool :=
  match ev with
  | os_Stat_ev _ _ | os_Rename_ev _ _ _ | os_Remove_ev _ _ => true
  | _ => false
  end.

(** What a computation returns, the world it leaves, the calls it makes. *)
Definition outcome {A} (c : M A) (w : World) : A := fst (c w).
Definition world_after {A} (c : M A) (w : World) : World := snd (c w).
Definition calls {A} (c : M A) (w : World) : list event := new_events w (snd (c w)).

(** The world after some more calls that touch no file. *)
Definition emits (evs : list event) (w : World) : World :=
  {| fs := fs w; fileName := fileName w; log := log w ++ evs |}.

Definition is_FindKeys (ev : event) : Prop :=
  match ev with FindKeys_ev _ _ _ => True | _ => False end.

Definition is_rand_Int (ev : event) : Prop :=
  match ev with rand_Int_ev _ _ => True | _ => False end.

(** Newest first. *)
Definition newest_first : relation KeyUidIssuerSignatureType.t :=
  λ a b, KeyUidIssuerSignatureType.CreationTime b <= KeyUidIssuerSignatureType.CreationTime a.

(** * Fixtures *)

(** ** A sort that computes

    Merge sort meets the contract of [slices.SortFunc]. *)

Local Instance cmp_le_dec {A} (cmp : A → A → Z) a b : Decision (cmp_le cmp a b).
Proof. unfold cmp_le. apply _. Defined.

Definition merge_Slices : Slices.
Proof.
  refine {| SortFunc := λ A cmp, merge_sort (cmp_le cmp) |}.
  - intros A cmp s. apply merge_sort_Permutation.
  - intros A cmp s [Htotal Htrans]. apply StronglySorted_merge_sort.
    + intros a b c. apply Htrans.
    + intros a b. apply Htotal.
Defined.

(** *** A key handle to run the builder on *)

Definition signature_of (issuer : string) (created : Time) : gpgme.KeySignature.t :=
  {| gpgme.KeySignature.KeyID := issuer;
     gpgme.KeySignature.Revoked := false;
     gpgme.KeySignature.Expired := false;
     gpgme.KeySignature.Invalid := false;
     gpgme.KeySignature.Exportable := true;
     gpgme.KeySignature.Created := created;
     gpgme.KeySignature.Expires := 0;
     gpgme.KeySignature.DoesExpire := false;
     gpgme.KeySignature.UID := "Alice <alice@example.org>";
     gpgme.KeySignature.Name := "Alice";
     gpgme.KeySignature.Email := "alice@example.org";
     gpgme.KeySignature.Comment := "";
     gpgme.KeySignature.TrustScope := "";
     gpgme.KeySignature.HasNotation := false |}.

Definition alice_uid : gpgme.UserID.t :=
  {| gpgme.UserID.UID := "Alice <alice@example.org>";
     gpgme.UserID.Name := "Alice";
     gpgme.UserID.Invalid := false;
     gpgme.UserID.Revoked := false;
     gpgme.UserID.Validity := gpgme.ValidityFull;
     gpgme.UserID.Address := "alice@example.org";
     gpgme.UserID.HasSig := true;
     gpgme.UserID.Signatures :=
       [signature_of "0xA11CE" 20; signature_of "0xA11CE" 10; signature_of "0xA11CE" 30] |}.

Definition key_with (hasUserIDs : bool) (uids : list gpgme.UserID.t) : gpgme.Key.t :=
  {| gpgme.Key.Fingerprint := "0123456789ABCDEF0123456789ABCDEF000A11CE";
     gpgme.Key.CanAuthenticate := false;
     gpgme.Key.CanCertify := true;
     gpgme.Key.CanEncrypt := true;
     gpgme.Key.CanSign := true;
     gpgme.Key.ChainID := "";
     gpgme.Key.Disabled := false;
     gpgme.Key.Expired := false;
     gpgme.Key.HasUserIDs := hasUserIDs;
     gpgme.Key.Invalid := false;
     gpgme.Key.IsQualified := false;
     gpgme.Key.IssuerName := "";
     gpgme.Key.IssuerSerial := "";
     gpgme.Key.KeyListMode := 1;
     gpgme.Key.OwnerTrust := gpgme.ValidityUltimate;
     gpgme.Key.Protocol := gpgme.ProtocolOpenPGP;
     gpgme.Key.Revoked := false;
     gpgme.Key.Secret := false;
     gpgme.Key.UserIDs := uids |}.

Definition alice_key : gpgme.Key.t := key_with true [alice_uid].

(** A handle that answers [true] to [HasUserIDs()] and [nil] to [UserIDs()]. *)
Definition key_flag_only : gpgme.Key.t := key_with true [].


(** ** An outside world that follows a script *)

Record Script := {
  keys_of : string → error + list gpgme.Key.t;
  encrypt_answer : option error * option (list byte);
  decrypt_answer : option error * option (list byte);
  (** the answers of the successive calls of [Read] *)
  reads : list (list byte * option error)
}.

Fixpoint reads_so_far (l : list event) : nat :=
  match l with
  | [] => O
  | Read_ev _ _ _ :: l' => S (reads_so_far l')
  | _ :: l' => reads_so_far l'
  end.

(** The flags have the values of [gpgme.h]; the random source counts. *)
Definition scripted (s : Script) : Outside :=
  {| gpgme_EncryptAlwaysTrust := 1;
     gpgme_EncryptFile := 1024;
     gpgme_EncryptAddRecp := 2048;
     gpgme_EncryptChgRecp := 4096;
     gpgme_DecryptResultType := string;
     gpgme_DecryptResultType_zero := "";
     gpgme_Signature := string;
     gpgme_SignatureType := string;
     on_rand_Int := λ w max, Z.of_nat (length (log w));
     on_New := λ w, None;
     on_SetProtocol := λ w p, None;
     on_NewData := λ w d, None;
     on_NewDataBytes := λ w d b, None;
     on_SetFileName := λ w d name, None;
     on_Close := λ w d, None;
     on_Rewind := λ w d, None;
     on_Read := λ w d size, nth (reads_so_far (log w)) (reads s) ([], Some io_EOF);
     on_FindKeys := λ w search secretOnly, keys_of s search;
     on_Encrypt := λ w sign recipients flags, encrypt_answer s;
     on_DecryptVerify := λ w, decrypt_answer s;
     on_DecryptResult := λ w, ("session key", None);
     on_VerifyResult := λ w, ("report.txt", ["good signature"], None);
     on_Sign := λ w signers, None;
     on_Verify := λ w, ("", ["good signature"], None) |}.

Definition bytes (s : string) : list byte := list_byte_of_string s.

(** Everybody but "nobody" has Alice's key. *)
Definition keyring (search : string) : error + list gpgme.Key.t :=
  if String.eqb search "nobody" then inl (Foreign "End of file") else inr [alice_key].

Definition plain_script : Script :=
  {| keys_of := keyring;
     encrypt_answer := (None, Some (bytes "new ciphertext"));
     decrypt_answer := (None, Some (bytes "plaintext"));
     reads := [(bytes "-----BEGIN", None); (bytes " PGP-----", None); ([], Some io_EOF)] |}.

Definition world_of (files : list (string * node)) : World :=
  {| fs := list_to_map files; fileName := λ _, None; log := [] |}.


(** A desk with a report, and the ciphertext of an older version of it. *)
Definition desk : World :=
  world_of [("report.txt", File (bytes "plaintext"));
            ("report.txt.gpg", File (bytes "old ciphertext"))].

(** An engine that finds no OpenPGP data in what it is given. *)
Definition no_data_script : Script :=
  {| keys_of := keyring;
     encrypt_answer := (None, Some (bytes "new ciphertext"));
     decrypt_answer := (Some (Foreign "No data"), None);
     reads := [] |}.

(** An engine whose second chunk cannot be read. *)
Definition broken_read_script : Script :=
  {| keys_of := keyring;
     encrypt_answer := (None, Some (bytes "new ciphertext"));
     decrypt_answer := (None, Some (bytes "plaintext"));
     reads := [(bytes "-----BEGIN", None); (bytes " PGP", Some (Foreign "I/O error"))] |}.

(** The recognised extensions of [DecryptFile]. *)
Definition extensions : list string := [".gpg"; ".pgp"; ".asc"].

Definition is_DecryptVerify (ev : event) : bool :=
  match ev with DecryptVerify_ev _ _ => true | _ => false end.

Definition is_result_retrieval (ev : event) : bool :=
  match ev with DecryptResult_ev _ | VerifyResult_ev _ => true | _ => false end.

(** The bytes of the reads that answered [nil]. *)
Fixpoint chunks_read (evs : list event) : list byte :=
  match evs with
  | [] => []
  | Read_ev _ b None :: evs' => b ++ chunks_read evs'
  | _ :: evs' => chunks_read evs'
  end.

Definition is_Read (ev : event) : bool :=
  match ev with Read_ev _ _ _ => true | _ => false end.

Definition is_good_Read (ev : event) : Prop :=
  match ev with Read_ev dataOut _ None => True | _ => False end.

(** A call that succeeded: it answered [nil], or it is a read that met
    the end of the stream. *)
Definition succeeded (ev : event) : Prop :=
  match ev with
  | Read_ev _ _ (Some io_EOF) => True
  | _ => answer ev = None
  end.

Section environment.
Context `{Outside}.

(** The stream of [dataOut] ends after [k] more chunks. *)
Fixpoint drain_ends (k : nat) (w : World) : Prop :=
  match k with
  | O => snd (on_Read w dataOut chunkSize) = Some io_EOF
  | S k' =>
      snd (on_Read w dataOut chunkSize) = None ∧
      drain_ends k' (snd (Data_Read dataOut chunkSize w))
  end.

(** Every call [SignBytes] makes before its loop succeeds, [keys] being the
    keys found; [w8] is the world the loop starts in. *)
Definition SignBytes_reaches_loop (plainText : list byte) (signWith : string)
    (armored : bool) (keys : list gpgme.Key.t) (w w8 : World) : Prop :=
  let w1 := emit (New_ev None) w in
  let w2 := emit (SetProtocol_ev gpgme.ProtocolOpenPGP None) w1 in
  let w3 := emit (SetArmor_ev armored) w2 in
  let w4 := emit (NewDataBytes_ev dataIn plainText None) (set_fileName dataIn None w3) in
  let w5 := emit (NewData_ev dataOut None) (set_fileName dataOut None w4) in
  let w6 := emit (FindKeys_ev signWith true None) w5 in
  let w7 := emit (Sign_ev keys None) w6 in
  on_New w = None ∧
  on_SetProtocol w1 gpgme.ProtocolOpenPGP = None ∧
  on_NewDataBytes w3 dataIn plainText = None ∧
  on_NewData w4 dataOut = None ∧
  on_FindKeys w5 signWith true = inr keys ∧
  on_Sign w6 keys = None ∧
  on_Rewind w7 dataOut = None ∧
  w8 = emit (Rewind_ev dataOut None) w7.

(** The same for [VerifyBytes], [verified] being the answer of [Verify]. *)
Definition VerifyBytes_reaches_loop (cipherText : list byte)
    (verified : string * list gpgme_SignatureType) (w w6 : World) : Prop :=
  let w1 := emit (New_ev None) w in
  let w2 := emit (SetProtocol_ev gpgme.ProtocolOpenPGP None) w1 in
  let w3 := emit (NewDataBytes_ev dataIn cipherText None) (set_fileName dataIn None w2) in
  let w4 := emit (NewData_ev dataOut None) (set_fileName dataOut None w3) in
  let w5 := emit (Verify_ev None) w4 in
  on_New w = None ∧
  on_SetProtocol w1 gpgme.ProtocolOpenPGP = None ∧
  on_NewDataBytes w2 dataIn cipherText = None ∧
  on_NewData w3 dataOut = None ∧
  on_Verify w4 = (verified, None) ∧
  on_Rewind w5 dataOut = None ∧
  w6 = emit (Rewind_ev dataOut None) w5.

End environment.

(** * More of the package *)

(** ** keys.go: [KeyList]

    [KeyList] talks to a context of the engine only.  Its calls, with their
    answers: [ctx.KeyListNext()] answers [true] and leaves a key in
    [ctx.Key], or answers [false] and leaves in [ctx.KeyError] the error
    that ended the listing, [nil] at the end of the keys. *)
Inductive listing_call :=
| Listing_New (err : option error)
| Listing_Release
| SetKeyListMode_call (mode : Z) (err : option error)
| KeyListStart_call (pattern : string) (secretOnly : bool) (err : option error)
| KeyListNext_call (answer : gpgme.Key.t + option error)
| KeyListEnd_call (err : option error).

(** The engine answers as it pleases, knowing the calls made so far.  The
    numeric values of the modes are the binding's. *)
Class Keyring := {
  gpgme_KeyListModeLocal : Z;
  gpgme_KeyListModeSigs : Z;
  gpgme_KeyListModeSigNotations : Z;
  on_Listing_New : list listing_call → option error;
  on_SetKeyListMode : list listing_call → Z → option error;
  on_KeyListStart : list listing_call → string → bool → option error;
  on_KeyListNext : list listing_call → gpgme.Key.t + option error;
  on_KeyListEnd : list listing_call → option error
}.

Module KeyList_returns.
Record t := {
  keys : list KeyType.t;
  err : option error
}.
End KeyList_returns.

Section listing.
Context `{Slices} `{Keyring}.

(** [for ctx.KeyListNext() { keys = append(keys, fillKey(ctx.Key)) }] and
    the lines after it (lines 133-139 of keys.go); every turn of the loop
    takes one unit of fuel. *)
Fixpoint KeyList_loop (fuel : nat) (keys : list KeyType.t) (log : list listing_call)
    : option (KeyList_returns.t * list listing_call) :=
  match fuel with
  | O => None
  | S fuel' =>
      let answer := on_KeyListNext log in
      let log := log ++ [KeyListNext_call answer] in
      match answer with
      | inl key => KeyList_loop fuel' (keys ++ [fillKey key]) log
      | inr (Some keyError) =>
          Some ({| KeyList_returns.keys := keys;
                   KeyList_returns.err :=
                     Some (Errorf_w "KeyList -KeyListNext failed - " keyError) |}, log)
      | inr None =>
          Some ({| KeyList_returns.keys := keys; KeyList_returns.err := None |}, log)
      end
  end.

(** [return nil, fmt.Errorf(prefix + "%w", err)] *)
Definition KeyList_fail (prefix : string) (e : error) (log : list listing_call)
    : option (KeyList_returns.t * list listing_call) :=
  Some ({| KeyList_returns.keys := [];
           KeyList_returns.err := Some (Errorf_w prefix e) |}, log).

(** [defer cleanup; body] *)
Definition KeyList_defer (cleanup : list listing_call → list listing_call)
    (body : option (KeyList_returns.t * list listing_call))
    : option (KeyList_returns.t * list listing_call) :=
  match body with
  | Some (r, log) => Some (r, cleanup log)
  | None => None
  end.

Definition KeyList (fuel : nat) (lookFor : string) (log : list listing_call)
    : option (KeyList_returns.t * list listing_call) :=
  let err := on_Listing_New log in
  let log := log ++ [Listing_New err] in
  match err with
  | Some e => KeyList_fail "KeyList -Create context failed - " e log
  | None =>
  KeyList_defer (λ log, log ++ [Listing_Release]) (
  let mode := Z.lor (Z.lor gpgme_KeyListModeLocal gpgme_KeyListModeSigs)
                gpgme_KeyListModeSigNotations in
  let err := on_SetKeyListMode log mode in
  let log := log ++ [SetKeyListMode_call mode err] in
  match err with
  | Some e => KeyList_fail "KeyList -SetKeyListMode failed - " e log
  | None =>
  let err := on_KeyListStart log lookFor false in
  let log := log ++ [KeyListStart_call lookFor false err] in
  match err with
  | Some e => KeyList_fail "KeyList -SetKeyListStart failed - " e log
  | None =>
  KeyList_defer (λ log, log ++ [KeyListEnd_call (on_KeyListEnd log)]) (
  KeyList_loop fuel [] log)
  end
  end)
  end.

(** The engine lists the keys [ks] and then ends the listing with
    [keyError]. *)
Fixpoint lists (ks : list gpgme.Key.t) (keyError : option error)
    (log : list listing_call) : Prop :=
  match ks with
  | [] => on_KeyListNext log = inr keyError
  | k :: ks' =>
      on_KeyListNext log = inl k ∧
      lists ks' keyError (log ++ [KeyListNext_call (inl k)])
  end.

End listing.

(** The keys the engine handed out in a run. *)
Fixpoint handed_out (calls : list listing_call) : list gpgme.Key.t :=
  match calls with
  | [] => []
  | KeyListNext_call (inl key) :: calls' => key :: handed_out calls'
  | _ :: calls' => handed_out calls'
  end.

(** What a call answered, for the calls that can fail. *)
Definition listing_answer (c : listing_call) : option error :=
  match c with
  | Listing_New err | SetKeyListMode_call _ err | KeyListStart_call _ _ err => err
  | KeyListEnd_call err => err
  | KeyListNext_call (inr keyError) => keyError
  | KeyListNext_call (inl _) | Listing_Release => None
  end.

Definition is_KeyListEnd (c : listing_call) : Prop :=
  match c with KeyListEnd_call _ => True | _ => False end.

(** A keyring that follows a script: it lists [ks], then ends the listing
    with [keyError].  The modes have the values of [gpgme.h]. *)
Definition scripted_keyring (ks : list gpgme.Key.t) (keyError : option error)
    : Keyring :=
  {| gpgme_KeyListModeLocal := 1;
     gpgme_KeyListModeSigs := 4;
     gpgme_KeyListModeSigNotations := 8;
     on_Listing_New := λ log, None;
     on_SetKeyListMode := λ log mode, None;
     on_KeyListStart := λ log pattern secretOnly, None;
     on_KeyListNext := λ log,
       match drop (length (handed_out log)) ks with
       | k :: _ => inl k
       | [] => inr keyError
       end;
     on_KeyListEnd := λ log, None |}.

(** The fields of a user ID record are those of a user ID of the handle. *)
Definition copies_uid (u : KeyUserIDsType.t) (uid : gpgme.UserID.t) : Prop :=
  KeyUserIDsType.UserID u = gpgme.UserID.UID uid ∧
  KeyUserIDsType.Name u = gpgme.UserID.Name uid ∧
  KeyUserIDsType.Invalid u = gpgme.UserID.Invalid uid ∧
  KeyUserIDsType.Revoked u = gpgme.UserID.Revoked uid ∧
  KeyUserIDsType.Validity u = gpgme.UserID.Validity uid ∧
  KeyUserIDsType.Address u = gpgme.UserID.Address uid ∧
  KeyUserIDsType.HasSignatures u = gpgme.UserID.HasSig uid.

(** The signatures of a chain that [issuer] made, in the order of the chain. *)
Definition issued_by (issuer : string) (chain : list gpgme.KeySignature.t)
    : list gpgme.KeySignature.t :=
  filter (λ sg, gpgme.KeySignature.KeyID sg = issuer) chain.

(** ** signatures.go: text as lines *)

(** The byte ['\n'], and the string ["\n"]. *)
Definition LF : byte := x0a.
Definition LF_string : string := String (ascii_of_byte LF) EmptyString.

(** [for _, line := range text { result = append(result, []byte(line+"\n")...) }] *)
Definition TextArrayToBytes (text : list string) : list byte :=
  fold_left (λ result line, result ++ list_byte_of_string (line +:+ LF_string)) text [].

(** The loop of [BytesToTextArray], from the state [(lines, currentLine)]. *)
Fixpoint BytesToTextArray_loop (data : list byte) (lines : list string)
    (currentLine : list byte) : list string * list byte :=
  match data with
  | [] => (lines, currentLine)
  | b :: data' =>
      if Byte.eqb b LF
      then BytesToTextArray_loop data' (lines ++ [string_of_list_byte currentLine]) []
      else BytesToTextArray_loop data' lines (currentLine ++ [b])
  end.

Definition BytesToTextArray (data : list byte) : list string :=
  let '(lines, currentLine) := BytesToTextArray_loop data [] [] in
  if (0 <? length currentLine)%nat
  then lines ++ [string_of_list_byte currentLine]
  else lines.

(** A string without a line feed. *)
Definition single_line (line : string) : Prop := LF ∉ list_byte_of_string line.

(** The data ends a line: it is empty, or its last byte is a line feed. *)
Definition ends_line (data : list byte) : bool :=
  match last data with
  | Some b => Byte.eqb b LF
  | None => true
  end.

(** The line feeds of the data. *)
Definition count_LF (data : list byte) : nat :=
  length (List.filter (λ b, Byte.eqb b LF) data).

(** Every line, then a line feed. *)
Definition lines_bytes (text : list string) : list byte :=
  concat (map (λ line, list_byte_of_string line ++ [LF]) text).

(** ** More to observe in a run *)

(** The lookups of recipients that the engine knows. *)
Definition looked_up (recipients : list string) : list event :=
  map (λ r, FindKeys_ev r false None) recipients.

Definition is_Encrypt (ev : event) : bool :=
  match ev with Encrypt_ev _ _ _ _ _ => true | _ => false end.

Definition is_Sign (ev : event) : bool :=
  match ev with Sign_ev _ _ => true | _ => false end.

(** A draw of [rand.Int] among the 62 characters of [charSet]. *)
Definition is_rand_62 (ev : event) : Prop :=
  ∃ r, ev = rand_Int_ev 62 r ∧ 0 <= r < 62.

(** A string of [n] characters of [charSet]. *)
Definition alphanumeric (n : nat) (s : string) : Prop :=
  String.length s = n ∧ Forall (λ c, c ∈ charSet) (list_ascii_of_string s).

(** What the [defer] statements owe at the end of a run: a context that was
    created is released, once and last; a data object that was created is
    closed; the closes come in the reverse order of the creations. *)
Definition cleans_up (calls : list event) : Prop :=
  (∀ e, New_ev (Some e) ∈ calls → Release_ev ∉ calls) ∧
  (New_ev None ∈ calls →
   ∃ before, calls = before ++ [Release_ev] ∧ Release_ev ∉ before) ∧
  (NewData_ev dataIn None ∈ calls ∨ (∃ b, NewDataBytes_ev dataIn b None ∈ calls) →
   ∃ before c, calls = before ++ [Close_ev dataIn c; Release_ev]) ∧
  (NewData_ev dataOut None ∈ calls →
   ∃ before c1 c2,
     calls = before ++ [Close_ev dataOut c1; Close_ev dataIn c2; Release_ev]).

(** An engine whose output stream never ends: every read hands out one
    more byte. *)
Definition endless : Outside :=
  {| gpgme_EncryptAlwaysTrust := 1;
     gpgme_EncryptFile := 1024;
     gpgme_EncryptAddRecp := 2048;
     gpgme_EncryptChgRecp := 4096;
     gpgme_DecryptResultType := string;
     gpgme_DecryptResultType_zero := "";
     gpgme_Signature := string;
     gpgme_SignatureType := string;
     on_rand_Int := λ w max, 0;
     on_New := λ w, None;
     on_SetProtocol := λ w p, None;
     on_NewData := λ w d, None;
     on_NewDataBytes := λ w d b, None;
     on_SetFileName := λ w d name, None;
     on_Close := λ w d, None;
     on_Rewind := λ w d, None;
     on_Read := λ w d size, ([x2d], None);
     on_FindKeys := λ w search secretOnly, inr [alice_key];
     on_Encrypt := λ w sign recipients flags, (None, None);
     on_DecryptVerify := λ w, (None, None);
     on_DecryptResult := λ w, ("", None);
     on_VerifyResult := λ w, ("", [], None);
     on_Sign := λ w signers, None;
     on_Verify := λ w, ("", [], None) |}.

(** The engine writes, then fails. *)
Definition failing_encryption_script : Script :=
  {| keys_of := keyring;
     encrypt_answer := (Some (Foreign "General error"), Some (bytes "half"));
     decrypt_answer := (None, None);
     reads := [] |}.

(** A verification that finds a bad signature. *)
Definition bad_signature : Outside :=
  {| gpgme_EncryptAlwaysTrust := 1;
     gpgme_EncryptFile := 1024;
     gpgme_EncryptAddRecp := 2048;
     gpgme_EncryptChgRecp := 4096;
     gpgme_DecryptResultType := string;
     gpgme_DecryptResultType_zero := "";
     gpgme_Signature := string;
     gpgme_SignatureType := string;
     on_rand_Int := λ w max, 0;
     on_New := λ w, None;
     on_SetProtocol := λ w p, None;
     on_NewData := λ w d, None;
     on_NewDataBytes := λ w d b, None;
     on_SetFileName := λ w d name, None;
     on_Close := λ w d, None;
     on_Rewind := λ w d, None;
     on_Read := λ w d size, ([], Some io_EOF);
     on_FindKeys := λ w search secretOnly, inr [alice_key];
     on_Encrypt := λ w sign recipients flags, (None, None);
     on_DecryptVerify := λ w, (None, None);
     on_DecryptResult := λ w, ("", None);
     on_VerifyResult := λ w, ("", [], None);
     on_Sign := λ w signers, None;
     on_Verify := λ w, ("letter.txt", ["bad signature"], Some (Foreign "Bad signature")) |}.

(** ** Engines whose calls fail

    Conditions on what the engine answers, for the runs of [SignBytes] and
    [VerifyBytes] that end in an error. *)

Section failing_environment.
Context `{Outside}.

(** The stream of [dataOut] hands out [k] more chunks, and the read after
    them answers the error [e]. *)
Fixpoint drain_fails (k : nat) (e : error) (w : World) : Prop :=
  match k with
  | O => snd (on_Read w dataOut chunkSize) = Some e
  | S k' =>
      snd (on_Read w dataOut chunkSize) = None ∧
      drain_fails k' e (snd (Data_Read dataOut chunkSize w))
  end.

(** The bytes that the next [k] reads of [dataOut] hand out. *)
Fixpoint drained (k : nat) (w : World) : list byte :=
  match k with
  | O => []
  | S k' =>
      fst (fst (Data_Read dataOut chunkSize w))
      ++ drained k' (snd (Data_Read dataOut chunkSize w))
  end.

(** The calls [SignBytes] makes before it looks for the signer succeed;
    [w5] is the world the signer is looked for in. *)
Definition SignBytes_set_up (plainText : list byte) (armored : bool)
    (w w5 : World) : Prop :=
  let w1 := emit (New_ev None) w in
  let w2 := emit (SetProtocol_ev gpgme.ProtocolOpenPGP None) w1 in
  let w3 := emit (SetArmor_ev armored) w2 in
  let w4 := emit (NewDataBytes_ev dataIn plainText None) (set_fileName dataIn None w3) in
  on_New w = None ∧
  on_SetProtocol w1 gpgme.ProtocolOpenPGP = None ∧
  on_NewDataBytes w3 dataIn plainText = None ∧
  on_NewData w4 dataOut = None ∧
  w5 = emit (NewData_ev dataOut None) (set_fileName dataOut None w4).

(** The calls [VerifyBytes] makes before the verification succeed; [w4] is
    the world [Verify] is called in. *)
Definition VerifyBytes_set_up (cipherText : list byte) (w w4 : World) : Prop :=
  let w1 := emit (New_ev None) w in
  let w2 := emit (SetProtocol_ev gpgme.ProtocolOpenPGP None) w1 in
  let w3 := emit (NewDataBytes_ev dataIn cipherText None) (set_fileName dataIn None w2) in
  on_New w = None ∧
  on_SetProtocol w1 gpgme.ProtocolOpenPGP = None ∧
  on_NewDataBytes w2 dataIn cipherText = None ∧
  on_NewData w3 dataOut = None ∧
  w4 = emit (NewData_ev dataOut None) (set_fileName dataOut None w3).

End failing_environment.

(** * Properties *)

(** ** The model builder *)

Section builder_facts.
Context `{Slices}.

Lemma Time_Compare_le (t u : Time) : Time_Compare t u <= 0 ↔ t <= u.
Proof.
  unfold Time_Compare. destruct (Z.compare_spec t u); lia.
Qed.

Lemma byCreationTimeDesc_le a b :
  byCreationTimeDesc a b <= 0 ↔
  KeyUidIssuerSignatureType.CreationTime b <= KeyUidIssuerSignatureType.CreationTime a.
Proof. apply Time_Compare_le. Qed.

Lemma byCreationTimeDesc_ordering : cmp_ordering byCreationTimeDesc.
Proof.
  split.
  - intros a b. unfold cmp_le. rewrite !byCreationTimeDesc_le. lia.
  - intros a b c. unfold cmp_le. rewrite !byCreationTimeDesc_le. lia.
Qed.

(** Newest first. *)
Lemma SortFunc_newest_first (s : list KeyUidIssuerSignatureType.t) :
  StronglySorted newest_first (SortFunc byCreationTimeDesc s).
Proof.
  assert (Hs := SortFunc_ascending _ byCreationTimeDesc s byCreationTimeDesc_ordering).
  induction Hs as [|a l Hl IH Ha]; constructor; [done|].
  eapply Forall_impl; [exact Ha|].
  intros b Hb. by apply byCreationTimeDesc_le.
Qed.

Lemma fillUserIDs_from_map (uid : list gpgme.UserID.t) (uids : list KeyUserIDsType.t) :
  fillUserIDs_from uid uids = uids ++ map oneUid uid.
Proof.
  revert uids. induction uid as [|u next IH]; intros uids; simpl.
  - by rewrite app_nil_r.
  - rewrite IH. by rewrite <- app_assoc.
Qed.

Lemma fillUserIDs_map (uid : list gpgme.UserID.t) : fillUserIDs uid = map oneUid uid.
Proof. unfold fillUserIDs. by rewrite fillUserIDs_from_map. Qed.

(** Every slice of the map of a user ID came out of the sort. *)
Lemma fillUidSignatures_lookup uid issuer s :
  fillUidSignatures uid !! issuer = Some s →
  ∃ s0, fold_left appendSig (gpgme.UserID.Signatures uid) ∅ !! issuer = Some s0 ∧
        s = SortFunc byCreationTimeDesc s0.
Proof.
  unfold fillUidSignatures. rewrite lookup_fmap.
  destruct (fold_left appendSig _ ∅ !! issuer) as [s0|]; simpl; [|done].
  intros [= <-]. by exists s0.
Qed.


End builder_facts.

(** *** Signature ordering *)



(** *** The [HasUserIDs] flag and the [UserIDs] slice *)

(** C8, refuted as stated: the record built from [key_flag_only] has the flag
    set and no user IDs. *)
Lemma fillKey_flag_set_without_user_IDs :
  KeyType.HasUserIDs (@fillKey merge_Slices key_flag_only) = true ∧
  KeyType.UserIDs (@fillKey merge_Slices key_flag_only) = [] ∧
  ¬ (KeyType.HasUserIDs (@fillKey merge_Slices key_flag_only) = false ↔
     KeyType.UserIDs (@fillKey merge_Slices key_flag_only) = []).
Proof.
  split; [reflexivity|]. split; [reflexivity|].
  intros [_ Hflag]. specialize (Hflag eq_refl). discriminate Hflag.
Qed.

(** C8, amended.  A record built with the flag unset has no user IDs, for
    every handle; the flag and the slice of the record agree whenever the
    handle itself agrees, that is whenever its [HasUserIDs()] is true only
    with a non-empty chain of user IDs.  [fillKey] copies, it does not
    normalise. *)
Theorem fillKey_HasUserIDs_agrees `{Slices} (k : gpgme.Key.t) :
  (KeyType.HasUserIDs (fillKey k) = false → KeyType.UserIDs (fillKey k) = []) ∧
  ((gpgme.Key.HasUserIDs k = true → gpgme.Key.UserIDs k ≠ []) →
   (KeyType.HasUserIDs (fillKey k) = false ↔ KeyType.UserIDs (fillKey k) = [])).
Proof.
  unfold fillKey. simpl.
  destruct (gpgme.Key.HasUserIDs k) eqn:Hflag.
  - split; [done|]. intros Hk. split; [done|].
    rewrite fillUserIDs_map. intros Hnil.
    apply map_eq_nil in Hnil. by destruct (Hk eq_refl).
  - split; [done|]. by intros _.
Qed.

Lemma fillKey_HasUserIDs_agrees_witness :
  KeyType.HasUserIDs (@fillKey merge_Slices alice_key) = false ↔
  KeyType.UserIDs (@fillKey merge_Slices alice_key) = [].
Proof.
  apply (proj2 (@fillKey_HasUserIDs_agrees merge_Slices alice_key)).
  intros _. discriminate.
Defined.


(** ** Strings and lists *)

Lemma length_app (s t : string) :
  String.length (s +:+ t) = (String.length s + String.length t)%nat.
Proof. induction s as [|a s IH]; simpl; [done|]. by rewrite IH. Qed.

(** The temporary and the backup name differ from the name they extend,
    and from each other unless the extensions are the same. *)
Lemma name_ne_suffixed (s rnd x : string) : s ≠ s +:+ ("." +:+ rnd) +:+ x.
Proof.
  intros E. apply (f_equal String.length) in E.
  rewrite !length_app in E. simpl in E. lia.
Qed.

Lemma suffixed_inj (s rnd x y : string) :
  s +:+ ("." +:+ rnd) +:+ x = s +:+ ("." +:+ rnd) +:+ y → x = y.
Proof. intros E. by do 2 apply (inj (String.app _)) in E. Qed.

Lemma substring_0_all (t : string) : substring 0 (String.length t) t = t.
Proof. induction t as [|a t IH]; simpl; [done|]. by rewrite IH. Qed.

Lemma substring_0_app (s t : string) : substring 0 (String.length s) (s +:+ t) = s.
Proof.
  induction s as [|a s IH]; simpl.
  - by destruct t.
  - by rewrite IH.
Qed.

Lemma substring_skip_app (s t : string) :
  substring (String.length s) (String.length t) (s +:+ t) = t.
Proof.
  induction s as [|a s IH]; simpl; [apply substring_0_all|done].
Qed.

Lemma substring_split (n : nat) (s : string) :
  (n ≤ String.length s)%nat →
  s = substring 0 n s +:+ substring n (String.length s - n) s.
Proof.
  revert n. induction s as [|a s IH]; intros n Hn; simpl in *.
  - by destruct n.
  - destruct n as [|n]; simpl.
    + by rewrite substring_0_all.
    + change (String a s
              = String a (substring 0 n s +:+ substring n (String.length s - n) s)).
      f_equal. apply IH. lia.
Qed.

Lemma length_substring_0 (n : nat) (s : string) :
  (n ≤ String.length s)%nat → String.length (substring 0 n s) = n.
Proof.
  revert n. induction s as [|a s IH]; intros n Hn; simpl in *.
  - destruct n; [done|lia].
  - destruct n as [|n]; simpl; [done|]. rewrite IH; lia.
Qed.

Lemma tail_here {A} (t : list A) : t = [] ++ t.
Proof. reflexivity. Qed.

Lemma tail_cons {A} (x : A) (l b t : list A) : l = b ++ t → x :: l = (x :: b) ++ t.
Proof. by intros ->. Qed.

Lemma tail_app {A} (r l b t : list A) : l = b ++ t → r ++ l = (r ++ b) ++ t.
Proof. intros ->. by rewrite app_assoc. Qed.

(** [l = ?before ++ t] for a spelled-out [l] that ends in [t]. *)
Ltac split_tail :=
  (apply tail_here) + (apply tail_cons; split_tail) + (apply tail_app; split_tail).

(** ** Running the package: loops and bookkeeping *)

Section run_facts.
Context `{Outside}.

Lemma emits_nil w : emits [] w = w.
Proof. destruct w. unfold emits. simpl. by rewrite app_nil_r. Qed.

Lemma emits_emit ev evs w : emits evs (emit ev w) = emits (ev :: evs) w.
Proof. unfold emits, emit. simpl. by rewrite <- app_assoc. Qed.

(** The lookup loop ends at the first recipient the engine does not know,
    or hands all the keys on; either way it only talks to the engine. *)
Lemma findRecipients_run {X} recipients thisRecipients
    (onerr : error → World → X) (k : list gpgme.Key.t → World → X) w :
  (∃ e evs, findRecipients recipients thisRecipients onerr k w = onerr e (emits evs w) ∧
      Forall is_FindKeys evs ∧ ∃ ev, ev ∈ evs ∧ answer ev = Some e) ∨
  (∃ keys evs, findRecipients recipients thisRecipients onerr k w = k keys (emits evs w) ∧
      Forall is_FindKeys evs ∧ Forall (λ ev, answer ev = None) evs).
Proof.
  revert thisRecipients w.
  induction recipients as [|r rest IH]; intros acc w.
  - right. exists acc, []. by rewrite emits_nil.
  - simpl. unfold bind, gpgme_FindKeys.
    destruct (on_FindKeys w r false) as [e|keys] eqn:E.
    + left. exists e, [FindKeys_ev r false (Some e)].
      split; [done|]. split; [by repeat constructor|].
      eexists. split; [apply list_elem_of_here|done].
    + destruct (IH (acc ++ keys) (emit (FindKeys_ev r false None) w))
        as [(e & evs & -> & Hf & ev & Hev & Ha)|(ks & evs & -> & Hf & Ha)].
      * left. exists e, (FindKeys_ev r false None :: evs). rewrite emits_emit.
        split; [done|]. split; [by constructor|].
        exists ev. split; [by apply list_elem_of_further|done].
      * right. exists ks, (FindKeys_ev r false None :: evs). rewrite emits_emit.
        split; [done|]. split; by constructor.
Qed.

Lemma RandomString_fill_run todo s w :
  ∃ s' evs, RandomString_fill todo s w = (s', emits evs w) ∧ Forall is_rand_Int evs.
Proof.
  revert s w. induction todo as [|todo IH]; intros s w; simpl.
  - exists s, []. by rewrite emits_nil.
  - unfold bind, rand_Int.
    match goal with |- context [RandomString_fill todo ?s1 ?w1] =>
      destruct (IH s1 w1) as (s' & evs & -> & Hevs) end.
    eexists s', (_ :: evs). rewrite emits_emit. split; [done|]. by constructor.
Qed.

Lemma RandomString_run n w :
  ∃ s evs, RandomString n w = (s, emits evs w) ∧ Forall is_rand_Int evs.
Proof.
  unfold RandomString. destruct (n <? 1).
  - exists EmptyString, []. by rewrite emits_nil.
  - unfold bind.
    destruct (RandomString_fill_run (Z.to_nat n) [] w) as (s & evs & -> & Hevs).
    by exists (string_of_list_ascii s), evs.
Qed.

Lemma log_engine_write out written w : log (engine_write out written w) = log w.
Proof. unfold engine_write. by destruct written, (fileName w out). Qed.

Lemma fileName_engine_write out written w :
  fileName (engine_write out written w) = fileName w.
Proof. unfold engine_write. by destruct written, (fileName w out). Qed.

Lemma fs_engine_write out written w :
  fs (engine_write out written w)
  = match written, fileName w out with
    | Some b, Some name => <[name := File b]> (fs w)
    | _, _ => fs w
    end.
Proof. unfold engine_write. by destruct written, (fileName w out). Qed.

End run_facts.

(** Symbolic execution of a run [Hrun : f w = (r, w')]: case on the answer
    the next call gets, until the function has returned. *)
Ltac head_scrutinee t :=
  lazymatch t with
  | match ?s with _ => _ end => head_scrutinee s
  | (match ?s with _ => _ end) _ => head_scrutinee s
  | (match ?s with _ => _ end) _ _ => head_scrutinee s
  | _ => t
  end.

Ltac prims :=
  unfold check, bind, defer, deferP, fail, ret, retP,
       gpgme_New, Context_Release, Context_SetProtocol, Context_SetArmor,
       gpgme_NewData, gpgme_NewDataBytes, Data_SetFileName,
       Data_Close_deferred, Data_Close, Data_Rewind, Data_Read, gpgme_FindKeys,
       Context_Encrypt, Context_DecryptVerify, Context_DecryptResult,
       Context_VerifyResult, Context_Sign, Context_Verify,
       os_Stat, os_Rename, os_Remove in *.

Ltac wsimpl :=
  repeat (cbn [emit emits set_fs set_fileName fs fileName log fst snd IsDir negb] in *;
          rewrite ?log_engine_write, ?fileName_engine_write, ?fs_engine_write in * );
  rewrite ?decide_True in * by reflexivity.

Ltac step Hrun :=
  lazymatch type of Hrun with
  | ?lhs = _ =>
      let s := head_scrutinee lhs in
      lazymatch s with
      | (_, _) => injection Hrun as <- <-
      | Some _ => injection Hrun as <- <-
      | None => discriminate Hrun
      | findRecipients ?r ?a ?o ?k ?w =>
          let e := fresh "e" in let evs := fresh "evs" in
          let keys := fresh "keys" in let Hs := fresh "Hstep" in
          let Hf := fresh "Hfind" in let Ha := fresh "Hans" in
          destruct (findRecipients_run r a o k w)
            as [(e & evs & Hs & Hf & Ha)|(keys & evs & Hs & Hf & Ha)];
          rewrite Hs in Hrun; clear Hs
      | RandomString ?n ?w =>
          let rnd := fresh "rnd" in let evs := fresh "rands" in
          let Hs := fresh "Hstep" in let Hr := fresh "Hrand" in
          destruct (RandomString_run n w) as (rnd & evs & Hs & Hr);
          rewrite Hs in Hrun; clear Hs
      | _ => destruct s eqn:?
      end
  end; wsimpl.

(** The calls of a run, as a list. *)
Ltac trace :=
  unfold calls, world_after, outcome, new_events in *; wsimpl;
  rewrite <- ?app_assoc; rewrite ?drop_app_length; cbn [app].

(** Case analysis on [Hev : ev ∈ l] for a spelled-out [l]. *)
Ltac mem_cases Hev :=
  repeat first
    [ apply elem_of_app in Hev as [Hev|Hev]
    | apply elem_of_cons in Hev as [Hev|Hev]
    | apply elem_of_nil in Hev; destruct Hev ].

(** Search of a spelled-out list for an event, with backtracking. *)
Ltac find_ev :=
  (apply list_elem_of_here) +
  (apply list_elem_of_further; find_ev) +
  (apply elem_of_app; left; eassumption) +
  (apply elem_of_app; right; find_ev).

Ltac none_is :=
  solve [repeat first
    [ apply Forall_nil_2
    | apply Forall_cons_2; [reflexivity|]
    | apply Forall_app_2 ]].

Ltac returns_simpl :=
  cbn [DecryptFile_returns.err DecryptFile_returns.warning
       DecryptFile_returns.decryptionResult DecryptFile_returns.filename
       DecryptFile_returns.signatures] in *.

Ltac find_ex :=
  (apply Exists_cons_hd; reflexivity) + (apply Exists_cons_tl; find_ex).

Ltac none_is_os :=
  solve [repeat first
    [ apply Forall_nil_2
    | apply Forall_cons_2; [reflexivity|]
    | apply Forall_app_2
    | lazymatch goal with
      | Hf : Forall is_FindKeys ?l |- Forall _ ?l =>
          eapply Forall_impl; [exact Hf|]; by intros []
      | Hf : Forall is_rand_Int ?l |- Forall _ ?l =>
          eapply Forall_impl; [exact Hf|]; by intros []
      end ]].

(** The error returned wraps what some call of the run answered. *)
Ltac wrapped_answer :=
  intros ? [= <-];
  first
    [ eexists _, _, _; split; [reflexivity|]; split; [find_ev|reflexivity]
    | lazymatch goal with
      | Hans : ∃ ev, ev ∈ _ ∧ answer ev = Some _ |- _ =>
          destruct Hans as (? & ? & ?);
          eexists _, _, _; split; [reflexivity|]; split; [find_ev|eassumption]
      end ].

(** ** [EncryptFile] *)

(** C10.  [EncryptFile] never looks at its destination (the explicit
    argument, or the source name with [.gpg] appended when the argument is
    empty), whether or not a file of that name exists: it makes no call to
    [os] at all, and every error it returns wraps the answer of an engine
    call, so none is a destination-exists error.  The destination goes to
    the engine as the file name of the output object, and what the engine
    writes replaces whatever the path held: the files after the call are
    those before it with the destination overwritten by the engine's
    output. *)
Theorem EncryptFile_overwrites_destination `{Outside}
    (sourceFilename destinationFilename : string) (recipients : list string)
    (sign : bool) (w : World) :
  let destination :=
    if String.eqb destinationFilename "" then sourceFilename +:+ ".gpg"
    else destinationFilename in
  let run := EncryptFile sourceFilename destinationFilename recipients sign in
  Forall (λ ev, is_os_event ev = false) (calls run w) ∧
  (∀ e, outcome run w = Some e →
     ∃ prefix e0 ev, e = Errorf_w prefix e0 ∧ ev ∈ calls run w ∧ answer ev = Some e0) ∧
  (∀ sg keys flags e written,
     Encrypt_ev sg keys flags e written ∈ calls run w →
     sg = sign ∧
     flags = Z.lor gpgme_EncryptAlwaysTrust gpgme_EncryptFile ∧
     SetFileName_ev dataOut destination None ∈ calls run w ∧
     fs (world_after run w)
     = match written with
       | Some out => <[destination := File out]> (fs w)
       | None => fs w
       end).
Proof.
  intros destination run. subst run.
  unfold calls, world_after, outcome.
  destruct (EncryptFile sourceFilename destinationFilename recipients sign w)
    as [err w'] eqn:Hrun.
  unfold EncryptFile in Hrun. prims. wsimpl.
  repeat step Hrun; trace.
  all: split; [none_is_os|split; [first [wrapped_answer | by intros ? [=]]|]].
  all: intros sg keys' flags e' written' Hev; mem_cases Hev; try discriminate Hev.
  all: try (eapply Forall_forall in Hfind; [|exact Hev]; by destruct Hfind).
  all: injection Hev as -> -> -> -> ->.
  all: split; [reflexivity|split; [reflexivity|split; [find_ev|]]].
  all: reflexivity.
Qed.

(** The old ciphertext on the desk is replaced. *)
Lemma EncryptFile_overwrites_destination_witness :
  fs desk !! "report.txt.gpg" = Some (File (bytes "old ciphertext")) ∧
  fs (world_after (@EncryptFile (scripted plain_script) "report.txt" "" ["alice"] false) desk)
  = <["report.txt.gpg" := File (bytes "new ciphertext")]> (fs desk).
Proof.
  split; [reflexivity|].
  apply (proj2 (proj2 (@EncryptFile_overwrites_destination (scripted plain_script)
                         "report.txt" "" ["alice"] false desk))
           false [alice_key] 1025 None (Some (bytes "new ciphertext"))).
  vm_compute. find_ev.
Defined.

(** ** [ModRecipients] *)

(** C6.  With an operation that is neither [EncryptAddRecp] nor
    [EncryptChgRecp], whatever the other arguments, [ModRecipients] returns
    its invalid-operation error and leaves the world as it found it: the
    files are the same and no call left the package, neither to [os] nor to
    the engine. *)
Theorem ModRecipients_invalid_operation `{Outside}
    (operation : Z) (filename backupExtension : string) (recipients : list string)
    (w : World) :
  operation ≠ gpgme_EncryptAddRecp →
  operation ≠ gpgme_EncryptChgRecp →
  ModRecipients operation filename backupExtension recipients w
  = (Some (Errorf_v "ModRecipients - invalid operation: " operation), w).
Proof.
  intros Hadd Hchg. unfold ModRecipients.
  apply Z.eqb_neq in Hadd, Hchg. by rewrite Hadd, Hchg.
Qed.

Lemma ModRecipients_invalid_operation_witness :
  @ModRecipients (scripted plain_script) 1024 "secret.gpg" ".bak" ["alice"]
    (world_of [("secret.gpg", File (bytes "old ciphertext"))])
  = (Some (Errorf_v "ModRecipients - invalid operation: " 1024),
     world_of [("secret.gpg", File (bytes "old ciphertext"))]).
Proof.
  apply (@ModRecipients_invalid_operation (scripted plain_script)).
  - simpl. lia.
  - simpl. lia.
Defined.

(** X8.  The commit phase.  When [ModRecipients] returns [nil], the run
    ends with the engine's encryption answering [nil], both data objects
    closed, the
    source renamed to [filename + randomFilePart + backupExtension] (or
    removed, when no backup extension was given), the temporary file renamed
    to [filename], and then the deferred releases; before the encryption no
    call to [os] but the [Stat] of the source was made.  Afterwards
    [filename] exists, and it holds what the engine wrote, provided the
    backup extension is not [".tmp"]. *)
Lemma ModRecipients_commit `{Outside}
    (operation : Z) (filename backupExtension : string) (recipients : list string)
    (w : World) :
  let run := ModRecipients operation filename backupExtension recipients in
  outcome run w = None →
  ∃ rnd keys written before c1 c2,
    let randomFilePart := "." +:+ rnd in
    let outFilename := filename +:+ randomFilePart +:+ ".tmp" in
    calls run w = before ++
      [Encrypt_ev false keys (Z.lor operation gpgme_EncryptFile) None written;
       Close_ev dataOut None; Close_ev dataIn None;
       (if String.eqb backupExtension "" then os_Remove_ev filename None
        else os_Rename_ev filename (filename +:+ randomFilePart +:+ backupExtension) None);
       os_Rename_ev outFilename filename None;
       Close_ev dataOut c1; Close_ev dataIn c2; Release_ev] ∧
    Forall (λ ev, ev = os_Stat_ev filename None ∨ is_os_event ev = false) before ∧
    is_Some (fs (world_after run w) !! filename) ∧
    (backupExtension ≠ ".tmp" → ∀ out, written = Some out →
       fs (world_after run w) !! filename = Some (File out)).
Proof.
  intros run. subst run.
  unfold calls, world_after, outcome.
  destruct (ModRecipients operation filename backupExtension recipients w)
    as [err w'] eqn:Hrun.
  unfold ModRecipients in Hrun. prims. wsimpl.
  repeat step Hrun; trace; try (intros [=]; fail).
  all: intros _; eexists rnd, keys, _, _, _, _; cbv zeta.
  all: destruct (backupExtension =? "")%string eqn:Hbackup; try discriminate Heqb0.
  all: split; [split_tail|].
  all: split;
    [repeat first
       [ apply Forall_nil_2
       | apply Forall_cons_2; [first [by left | by right]|]
       | apply Forall_app_2
       | lazymatch goal with
         | Hf : Forall is_FindKeys ?l |- Forall _ ?l =>
             eapply Forall_impl; [exact Hf|]; intros []; by right
         | Hf : Forall is_rand_Int ?l |- Forall _ ?l =>
             eapply Forall_impl; [exact Hf|]; intros []; by right
         end ]|].
  all: rewrite lookup_insert_eq; split; [by eexists|].
  all: intros Htmp out ->.
  all: match goal with
       | Hl : ?m !! (_ +:+ ("." +:+ _) +:+ ".tmp") = Some ?n |- Some ?n = _ =>
           rewrite <- Hl
       end.
  all: rewrite ?lookup_insert_ne
         by (intros E; apply suffixed_inj in E; contradiction).
  all: rewrite lookup_delete_ne by apply name_ne_suffixed.
  all: by rewrite lookup_insert_eq.
Qed.

(** C1, where the code fails it.  [ModRecipients] is asked to add a
    recipient to [secret.gpg] and to keep a backup with the extension
    [.tmp]; every call succeeds and the engine writes the new ciphertext to
    the temporary file.  The backup name is then the name of the temporary
    file: the first rename replaces the engine's output by the old file,
    the second moves the old file back.  [ModRecipients] returns [nil], yet
    [secret.gpg] holds the old ciphertext, the engine's output is lost and
    there is no backup: the files are exactly those before the call. *)
Theorem ModRecipients_backup_extension_tmp :
  let w := world_of [("secret.gpg", File (bytes "old ciphertext"))] in
  let run := @ModRecipients (scripted plain_script) 2048 "secret.gpg" ".tmp" ["alice"] in
  outcome run w = None ∧
  (∃ before,
     calls run w = before ++
       [Encrypt_ev false [alice_key] 3072 None (Some (bytes "new ciphertext"));
        Close_ev dataOut None; Close_ev dataIn None;
        os_Rename_ev "secret.gpg" "secret.gpg.ghijklmn.tmp" None;
        os_Rename_ev "secret.gpg.ghijklmn.tmp" "secret.gpg" None;
        Close_ev dataOut None; Close_ev dataIn None; Release_ev]) ∧
  fs (world_after run w) !! "secret.gpg" = Some (File (bytes "old ciphertext")) ∧
  fs (world_after run w) = fs w.
Proof.
  intros w run. split; [by vm_compute|]. split; [|split; by vm_compute].
  exists (take 16 (calls run w)). by vm_compute.
Qed.

(** ** [DecryptFile] *)

(** A name that is a stem followed by a recognised extension loses the
    extension. *)
Lemma DecryptFile_destination_stem (stem ext : string) :
  ext ∈ extensions → stem ≠ "" →
  DecryptFile_destination (stem +:+ ext) "" = Some stem.
Proof.
  intros Hext Hstem. unfold DecryptFile_destination. simpl String.eqb.
  assert (Hlen : String.length ext = 4%nat).
  { unfold extensions in Hext. mem_cases Hext; by subst. }
  rewrite length_app, Hlen.
  replace (String.length stem + 4 - 4)%nat with (String.length stem) by lia.
  pose proof (substring_skip_app stem ext) as Hsuffix. rewrite Hlen in Hsuffix.
  rewrite Hsuffix, substring_0_app.
  assert (Hlt : (4 <? String.length stem + 4)%nat = true).
  { apply Nat.ltb_lt. destruct stem; [done|]. simpl. lia. }
  rewrite Hlt.
  unfold extensions in Hext. mem_cases Hext; by subst.
Qed.

(** Any other name has no destination. *)
Lemma DecryptFile_destination_None (c : string) :
  (∀ stem ext, c = stem +:+ ext → ext ∈ extensions → stem = "") →
  DecryptFile_destination c "" = None.
Proof.
  intros Hc. unfold DecryptFile_destination. simpl String.eqb.
  destruct (4 <? String.length c)%nat eqn:Hlt; [|done].
  apply Nat.ltb_lt in Hlt.
  set (ext := substring (String.length c - 4) 4 c).
  destruct (String.eqb ext ".gpg" || String.eqb ext ".pgp" || String.eqb ext ".asc")
    eqn:Hext; [|done].
  exfalso.
  assert (Hsplit := substring_split (String.length c - 4) c ltac:(lia)).
  replace (String.length c - (String.length c - 4))%nat with 4%nat in Hsplit by lia.
  fold ext in Hsplit.
  apply Hc in Hsplit.
  - apply (f_equal String.length) in Hsplit.
    rewrite length_substring_0 in Hsplit by lia. simpl in Hsplit. lia.
  - unfold extensions.
    apply orb_true_iff in Hext as [Hext|Hext];
      [apply orb_true_iff in Hext as [Hext|Hext]|];
      apply String.eqb_eq in Hext; rewrite Hext; set_solver.
Qed.

(** Once the output data object exists, the destination decides what
    happens next. *)
Lemma DecryptFile_uses_destination `{Outside}
    (cypherFilename clearFilename : string) (w : World) :
  let run := DecryptFile cypherFilename clearFilename in
  NewData_ev dataOut None ∈ calls run w →
  match DecryptFile_destination cypherFilename clearFilename with
  | None =>
      DecryptFile_returns.err (outcome run w)
      = Some (Errorf_0 "DecryptFile - no destination filename given, and no `.gpg` or `.pgp` or `.asc` extension found") ∧
      fs (world_after run w) = fs w ∧
      Forall (λ ev, is_DecryptVerify ev = false) (calls run w)
  | Some destination =>
      (∃ e, os_Stat_ev destination e ∈ calls run w) ∧
      (∀ name e, SetFileName_ev dataOut name e ∈ calls run w → name = destination)
  end.
Proof.
  intros run. subst run.
  unfold calls, world_after, outcome.
  destruct (DecryptFile cypherFilename clearFilename w) as [r w'] eqn:Hrun.
  unfold DecryptFile, DecryptFile_fail, DecryptFile_results, DecryptFile_return in Hrun.
  prims. wsimpl.
  repeat step Hrun; trace; returns_simpl.
  all: intros Hev; mem_cases Hev; try discriminate Hev; clear Hev.
  all: try (split; [reflexivity|split; [reflexivity|none_is]]).
  all: split; [eexists; find_ev|].
  all: intros name e' Hev; mem_cases Hev; try discriminate Hev.
  all: by injection Hev as -> _.
Qed.

(** C4, refuted as stated: a source named just [.gpg] ends in a recognised
    extension, yet it has no destination (the claim would strip the
    extension and give the empty name); [DecryptFile] returns its
    no-destination error. *)
Lemma DecryptFile_bare_extension :
  let w := world_of [(".gpg", File (bytes "ciphertext"))] in
  ".gpg" = "" +:+ ".gpg" ∧
  DecryptFile_destination ".gpg" "" = None ∧
  DecryptFile_destination ".gpg" "" ≠ Some "" ∧
  DecryptFile_returns.err (outcome (@DecryptFile (scripted plain_script) ".gpg" "") w)
  = Some (Errorf_0 "DecryptFile - no destination filename given, and no `.gpg` or `.pgp` or `.asc` extension found").
Proof. by vm_compute. Qed.

(** C4, amended.  A non-empty explicit destination is used verbatim.
    Without one, a source name made of a non-empty stem and one of the
    extensions [.gpg], [.pgp], [.asc] (compared byte for byte, so
    case-sensitively; the name must be longer than the four bytes of the
    extension) has the stem for destination, and any other source name has
    none.  So ["report.txt.gpg"] gives ["report.txt"], and ["report.bin"],
    ["report.GPG"] and the bare [".gpg"] give none.  Once [DecryptFile] has
    stated the source and set up the engine and both data objects, a source
    without destination makes it return its no-destination error, the files
    untouched and the engine not asked to decrypt; otherwise the inferred
    name is the one it looks up and the only one it gives to the output
    object. *)
Theorem DecryptFile_destination_inference `{Outside}
    (cypherFilename clearFilename : string) :
  (clearFilename ≠ "" →
   DecryptFile_destination cypherFilename clearFilename = Some clearFilename) ∧
  (clearFilename = "" →
   ∀ stem ext, cypherFilename = stem +:+ ext → ext ∈ extensions → stem ≠ "" →
   DecryptFile_destination cypherFilename clearFilename = Some stem) ∧
  (clearFilename = "" →
   (∀ stem ext, cypherFilename = stem +:+ ext → ext ∈ extensions → stem = "") →
   DecryptFile_destination cypherFilename clearFilename = None) ∧
  DecryptFile_destination "report.txt.gpg" "" = Some "report.txt" ∧
  DecryptFile_destination "report.bin" "" = None ∧
  DecryptFile_destination "report.GPG" "" = None ∧
  DecryptFile_destination ".gpg" "" = None ∧
  (∀ w, let run := DecryptFile cypherFilename clearFilename in
     NewData_ev dataOut None ∈ calls run w →
     match DecryptFile_destination cypherFilename clearFilename with
     | None =>
         DecryptFile_returns.err (outcome run w)
         = Some (Errorf_0 "DecryptFile - no destination filename given, and no `.gpg` or `.pgp` or `.asc` extension found") ∧
         fs (world_after run w) = fs w ∧
         Forall (λ ev, is_DecryptVerify ev = false) (calls run w)
     | Some destination =>
         (∃ e, os_Stat_ev destination e ∈ calls run w) ∧
         (∀ name e, SetFileName_ev dataOut name e ∈ calls run w → name = destination)
     end).
Proof.
  split; [|split; [|split]].
  - intros Hclear. unfold DecryptFile_destination.
    apply String.eqb_neq in Hclear. by rewrite Hclear.
  - intros -> stem ext -> Hext Hstem. by apply DecryptFile_destination_stem.
  - intros -> Hc. by apply DecryptFile_destination_None.
  - do 4 (split; [reflexivity|]). intros w. apply DecryptFile_uses_destination.
Qed.

(** On the desk, [report.txt.gpg] would be decrypted to [report.txt]. *)
Lemma DecryptFile_destination_inference_witness :
  DecryptFile_destination "report.txt.gpg" "" = Some "report.txt" ∧
  ∃ e, os_Stat_ev "report.txt" e
       ∈ calls (@DecryptFile (scripted plain_script) "report.txt.gpg" "") desk.
Proof.
  pose proof (@DecryptFile_destination_inference (scripted plain_script)
                "report.txt.gpg" "") as (_ & Hstem & _ & _ & _ & _ & _ & Hrun).
  split.
  - apply (Hstem eq_refl "report.txt" ".gpg"); [reflexivity| |discriminate].
    apply list_elem_of_here.
  - refine (proj1 (Hrun desk _)). vm_compute. find_ev.
Defined.

(** C2, refuted as stated: [report.txt] exists on the desk, and asked to
    decrypt a missing file to it [DecryptFile] fails with its
    file-does-not-exist error, not with the destination-exists one. *)
Lemma DecryptFile_source_checked_first :
  let run := @DecryptFile (scripted plain_script) "missing.gpg" "report.txt" in
  is_Some (fs desk !! "report.txt") ∧
  DecryptFile_returns.err (outcome run desk)
  = Some (Errorf_w "DecryptFile - file does not exist: "
            (PathError "stat" "missing.gpg" ENOENT)) ∧
  DecryptFile_returns.err (outcome run desk)
  ≠ Some (Errorf_s "DecryptFile - destination file exists: " "report.txt").
Proof.
  intros run. split; [by eexists|].
  assert (Herr : DecryptFile_returns.err (outcome run desk)
                 = Some (Errorf_w "DecryptFile - file does not exist: "
                           (PathError "stat" "missing.gpg" ENOENT)))
    by (by vm_compute).
  split; [exact Herr|]. rewrite Herr. discriminate.
Qed.

(** C2, amended.  When the destination, explicit or inferred, exists,
    whatever it holds, [DecryptFile] fails, the files are left as they were
    (the destination is not overwritten) and the engine is never asked to
    decrypt.  The error is the destination-exists error whenever the steps
    before the check succeeded, that is once the source was found to be a
    file and the engine context and both data objects were set up; else it
    is the error of the step that failed. *)
Theorem DecryptFile_existing_destination `{Outside}
    (cypherFilename clearFilename destination : string) (w : World) :
  DecryptFile_destination cypherFilename clearFilename = Some destination →
  is_Some (fs w !! destination) →
  let run := DecryptFile cypherFilename clearFilename in
  DecryptFile_returns.err (outcome run w) ≠ None ∧
  fs (world_after run w) = fs w ∧
  Forall (λ ev, is_DecryptVerify ev = false) (calls run w) ∧
  (NewData_ev dataOut None ∈ calls run w →
   DecryptFile_returns.err (outcome run w)
   = Some (Errorf_s "DecryptFile - destination file exists: " destination)).
Proof.
  intros Hdest [n Hn] run. subst run.
  unfold calls, world_after, outcome.
  destruct (DecryptFile cypherFilename clearFilename w) as [r w'] eqn:Hrun.
  unfold DecryptFile, DecryptFile_fail, DecryptFile_results, DecryptFile_return in Hrun.
  rewrite Hdest in Hrun. prims. wsimpl.
  repeat step Hrun; trace; try congruence.
  all: split; [done|split; [done|split; [none_is|]]].
  all: try (intros Hev; mem_cases Hev; discriminate Hev).
  all: done.
Qed.

Lemma DecryptFile_existing_destination_witness :
  DecryptFile_returns.err
    (outcome (@DecryptFile (scripted plain_script) "report.txt.gpg" "") desk)
  = Some (Errorf_s "DecryptFile - destination file exists: " "report.txt").
Proof.
  refine (proj2 (proj2 (proj2
    (@DecryptFile_existing_destination (scripted plain_script)
       "report.txt.gpg" "" "report.txt" desk eq_refl _))) _).
  - by eexists.
  - vm_compute. find_ev.
Defined.

(** C3.  When the engine's decrypt-and-verify call reports an error whose
    text is ["No data"], [DecryptFile] goes on: its warning is the
    no-encrypted-data string, the decryption result is asked for in the
    state the call left and returned, and unless that request fails the
    verify result is asked for and returned too, the error being [nil]
    when both requests succeed.  When the call reports any other error,
    [DecryptFile] returns that error wrapped, with an empty warning and
    empty results, and asks for neither result. *)
Theorem DecryptFile_no_data `{Outside}
    (cypherFilename clearFilename : string) (w : World)
    (e : error) (written : option (list byte)) :
  let run := DecryptFile cypherFilename clearFilename in
  let r := outcome run w in
  DecryptVerify_ev (Some e) written ∈ calls run w →
  (Error e = "No data" →
   DecryptFile_returns.warning r = "DecryptFile - DecryptVerify: no encrypted data" ∧
   ∃ w2 before,
     new_events w w2 = before ++ [DecryptVerify_ev (Some e) written] ∧
     let '(dr, e1) := on_DecryptResult w2 in
     DecryptResult_ev e1 ∈ calls run w ∧
     DecryptFile_returns.decryptionResult r = dr ∧
     match e1 with
     | Some e1' =>
         DecryptFile_returns.err r
         = Some (Errorf_w "DecryptFile - DecryptResult failed: " e1')
     | None =>
         let '(fn, sigs, e2) := on_VerifyResult (emit (DecryptResult_ev None) w2) in
         VerifyResult_ev e2 ∈ calls run w ∧
         DecryptFile_returns.filename r = fn ∧
         DecryptFile_returns.signatures r = sigs ∧
         DecryptFile_returns.err r
         = match e2 with
           | Some e2' => Some (Errorf_w "DecryptFile - VerifyResult failed: " e2')
           | None => None
           end
     end) ∧
  (Error e ≠ "No data" →
   DecryptFile_returns.err r = Some (Errorf_w "DecryptFile - DecryptVerify failed: " e) ∧
   DecryptFile_returns.warning r = "" ∧
   DecryptFile_returns.decryptionResult r = gpgme_DecryptResultType_zero ∧
   DecryptFile_returns.filename r = "" ∧
   DecryptFile_returns.signatures r = [] ∧
   Forall (λ ev, is_result_retrieval ev = false) (calls run w)).
Proof.
  intros run r. subst r run.
  unfold calls, world_after, outcome.
  destruct (DecryptFile cypherFilename clearFilename w) as [r w'] eqn:Hrun.
  unfold DecryptFile, DecryptFile_fail, DecryptFile_results, DecryptFile_return in Hrun.
  prims. wsimpl.
  repeat step Hrun; trace.
  all: intros Hev; mem_cases Hev; try discriminate Hev.
  all: injection Hev as -> ->.
  all: split; intros Hno;
       [|try (apply String.eqb_eq in Heqb; contradiction)];
       try (apply String.eqb_neq in Heqb; contradiction).
  4: { returns_simpl. repeat (split; [reflexivity|]). none_is. }
  all: split; [reflexivity|].
  all: lazymatch goal with
       | Hd : on_DecryptResult ?W = _ |- _ =>
           exists W; unfold new_events; wsimpl; rewrite <- ?app_assoc;
           rewrite ?drop_app_length; cbn [app];
           eexists; split; [split_tail|]; rewrite Hd
       end.
  all: returns_simpl.
  all: split; [find_ev|split; [reflexivity|]]; try reflexivity.
  all: lazymatch goal with
       | Hv : on_VerifyResult ?W = _ |- _ => rewrite Hv
       end.
  all: split; [find_ev|]; by repeat split.
Qed.

(** A file without OpenPGP data: a warning, no error. *)
Lemma DecryptFile_no_data_witness :
  let r := outcome (@DecryptFile (scripted no_data_script) "notes.asc" "")
             (world_of [("notes.asc", File (bytes "just notes"))]) in
  DecryptFile_returns.warning r = "DecryptFile - DecryptVerify: no encrypted data".
Proof.
  refine (proj1 (proj1
    (@DecryptFile_no_data (scripted no_data_script) "notes.asc" ""
       (world_of [("notes.asc", File (bytes "just notes"))])
       (Foreign "No data") None _) eq_refl)).
  vm_compute. find_ev.
Defined.

(** ** [SignBytes] and [VerifyBytes] *)

Lemma chunks_read_app evs1 evs2 :
  chunks_read (evs1 ++ evs2) = chunks_read evs1 ++ chunks_read evs2.
Proof.
  induction evs1 as [|ev evs1 IH]; [done|].
  destruct ev; simpl; try done.
  destruct err; simpl; [done|]. by rewrite IH, app_assoc.
Qed.


Section drain.
Context `{Outside}.

Lemma is_EOF_spec (err : option error) : is_EOF err = true ↔ err = Some io_EOF.
Proof. destruct err as [[]|]; simpl; split; congruence. Qed.

Lemma SignBytes_read_run fuel acc fps w r w' :
  SignBytes_read fuel acc fps w = Some (r, w') →
  ∃ evs b last,
    w' = emits (evs ++ [Read_ev dataOut b last]) w ∧
    Forall is_good_Read evs ∧
    SignBytes_returns.signingFingerPrints r = fps ∧
    SignBytes_returns.n r = length b ∧
    ((last = Some io_EOF ∧ SignBytes_returns.err r = Some io_EOF ∧
      SignBytes_returns.cipherText r = acc ++ chunks_read evs ++ b) ∨
     (∃ e, last = Some e ∧ e ≠ io_EOF ∧
      SignBytes_returns.err r = Some (Errorf_w "SignBytes - Read failed: " e) ∧
      SignBytes_returns.cipherText r = acc ++ chunks_read evs)).
Proof.
  revert acc w. induction fuel as [|fuel IH]; intros acc w Hrun; [done|].
  simpl in Hrun. unfold bind, Data_Read in Hrun.
  destruct (on_Read w dataOut chunkSize) as [b0 last] eqn:Hread.
  set (b := take chunkSize b0) in *.
  destruct last as [e|].
  - destruct (is_EOF (Some e)) eqn:Heof.
    + apply is_EOF_spec in Heof as [= ->]. simpl in Hrun.
      injection Hrun as <- <-. exists [], b, (Some io_EOF).
      split; [done|]. split; [done|]. split; [done|]. split; [done|].
      left. by rewrite app_nil_l.
    + rewrite bool_decide_true in Hrun by done. simpl in Hrun.
      injection Hrun as <- <-. exists [], b, (Some e).
      split; [done|]. split; [done|]. split; [done|]. split; [done|].
      right. exists e. split; [done|]. split; [by intros ->|].
      split; [done|]. by rewrite app_nil_r.
  - rewrite bool_decide_false in Hrun by (by intros []). simpl in Hrun.
    apply IH in Hrun as (evs & b' & last & -> & Hevs & Hfps & Hn & Hres).
    exists (Read_ev dataOut b None :: evs), b', last.
    rewrite emits_emit. split; [done|]. split; [by constructor|].
    split; [done|]. split; [done|].
    simpl. destruct Hres as [(-> & He & Hc)|(e & -> & Hne & He & Hc)].
    + left. split; [done|]. split; [done|]. by rewrite Hc, <- !app_assoc.
    + right. exists e. split; [done|]. split; [done|]. split; [done|].
      by rewrite Hc, <- !app_assoc.
Qed.


Lemma append_if_any (acc part : list byte) :
  (if (0 <? length part)%nat then acc ++ part else acc) = acc ++ part.
Proof. destruct part; simpl; [by rewrite app_nil_r|done]. Qed.

Lemma VerifyBytes_read_run fuel acc sigs fname w r w' :
  VerifyBytes_read fuel acc sigs fname w = Some (r, w') →
  ∃ evs b last,
    w' = emits (evs ++ [Read_ev dataOut b last]) w ∧
    Forall is_good_Read evs ∧
    VerifyBytes_returns.signatures r = sigs ∧
    VerifyBytes_returns.filename r = fname ∧
    ((last = Some io_EOF ∧ VerifyBytes_returns.err r = Some io_EOF ∧
      VerifyBytes_returns.plainText r = acc ++ chunks_read evs ++ b) ∨
     (∃ e, last = Some e ∧ e ≠ io_EOF ∧
      VerifyBytes_returns.err r = Some (Errorf_w "VerifyBytes - Read failed: " e) ∧
      VerifyBytes_returns.plainText r = acc ++ chunks_read evs)).
Proof.
  revert acc w. induction fuel as [|fuel IH]; intros acc w Hrun; [done|].
  simpl in Hrun. unfold bind, Data_Read in Hrun.
  destruct (on_Read w dataOut chunkSize) as [b0 last] eqn:Hread.
  set (b := take chunkSize b0) in *.
  rewrite append_if_any in Hrun.
  destruct last as [e|].
  - destruct (is_EOF (Some e)) eqn:Heof.
    + apply is_EOF_spec in Heof as [= ->]. simpl in Hrun.
      injection Hrun as <- <-. exists [], b, (Some io_EOF).
      split; [done|]. split; [done|]. split; [done|]. split; [done|].
      left. by rewrite app_nil_l.
    + rewrite bool_decide_true in Hrun by done. simpl in Hrun.
      injection Hrun as <- <-. exists [], b, (Some e).
      split; [done|]. split; [done|]. split; [done|]. split; [done|].
      right. exists e. split; [done|]. split; [by intros ->|].
      split; [done|]. by rewrite app_nil_r.
  - rewrite bool_decide_false in Hrun by (by intros []). simpl in Hrun.
    apply IH in Hrun as (evs & b' & last & -> & Hevs & Hfps & Hn & Hres).
    exists (Read_ev dataOut b None :: evs), b', last.
    rewrite emits_emit. split; [done|]. split; [by constructor|].
    split; [done|]. split; [done|].
    simpl. destruct Hres as [(-> & He & Hc)|(e & -> & Hne & He & Hc)].
    + left. split; [done|]. split; [done|]. by rewrite Hc, <- !app_assoc.
    + right. exists e. split; [done|]. split; [done|]. split; [done|].
      by rewrite Hc, <- !app_assoc.
Qed.

(** More fuel changes nothing once the loop has returned. *)
Lemma SignBytes_read_fuel fuel fuel' acc fps w x :
  SignBytes_read fuel acc fps w = Some x → (fuel ≤ fuel')%nat →
  SignBytes_read fuel' acc fps w = Some x.
Proof.
  revert fuel' acc w. induction fuel as [|fuel IH]; intros fuel' acc w Hrun Hle; [done|].
  destruct fuel' as [|fuel']; [lia|].
  simpl in *. unfold bind in *.
  destruct (Data_Read dataOut chunkSize w) as [[b last] w1].
  destruct (bool_decide (last ≠ None) && negb (is_EOF last)); [done|].
  destruct (is_EOF last); [done|]. apply IH; [done|lia].
Qed.

Lemma VerifyBytes_read_fuel fuel fuel' acc sigs fname w x :
  VerifyBytes_read fuel acc sigs fname w = Some x → (fuel ≤ fuel')%nat →
  VerifyBytes_read fuel' acc sigs fname w = Some x.
Proof.
  revert fuel' acc w. induction fuel as [|fuel IH]; intros fuel' acc w Hrun Hle; [done|].
  destruct fuel' as [|fuel']; [lia|].
  simpl in *. unfold bind in *.
  destruct (Data_Read dataOut chunkSize w) as [[b last] w1].
  destruct (bool_decide (last ≠ None) && negb (is_EOF last)); [done|].
  destruct (is_EOF last); [done|]. apply IH; [done|lia].
Qed.

Lemma SignBytes_read_total k w acc fps fuel :
  drain_ends k w → (k < fuel)%nat →
  ∃ r w', SignBytes_read fuel acc fps w = Some (r, w') ∧
          SignBytes_returns.err r = Some io_EOF.
Proof.
  revert w acc fuel. induction k as [|k IH]; intros w acc fuel Hk Hfuel;
    (destruct fuel as [|fuel]; [lia|]); simpl in *; unfold bind, Data_Read in *.
  - destruct (on_Read w dataOut chunkSize) as [b last]. simpl in Hk. subst last.
    simpl. by eexists _, _.
  - destruct (on_Read w dataOut chunkSize) as [b last]. simpl in Hk.
    destruct Hk as [-> Hk]. simpl. apply IH; [done|lia].
Qed.

Lemma VerifyBytes_read_total k w acc sigs fname fuel :
  drain_ends k w → (k < fuel)%nat →
  ∃ r w', VerifyBytes_read fuel acc sigs fname w = Some (r, w') ∧
          VerifyBytes_returns.err r = Some io_EOF.
Proof.
  revert w acc fuel. induction k as [|k IH]; intros w acc fuel Hk Hfuel;
    (destruct fuel as [|fuel]; [lia|]); simpl in *; unfold bind, Data_Read in *.
  - destruct (on_Read w dataOut chunkSize) as [b last]. simpl in Hk. subst last.
    simpl. by eexists _, _.
  - destruct (on_Read w dataOut chunkSize) as [b last]. simpl in Hk.
    destruct Hk as [-> Hk]. simpl. apply IH; [done|lia].
Qed.

Lemma SignBytes_run fuel plainText signWith armored w r w' :
  SignBytes fuel plainText signWith armored w = Some (r, w') →
  (∃ prefix e,
     SignBytes_returns.err r = Some (Errorf_w prefix e) ∧
     SignBytes_returns.cipherText r = [] ∧
     Forall (λ ev, is_Read ev = false) (new_events w w') ∧
     Exists (λ ev, answer ev = Some e) (new_events w w')) ∨
  (∃ keys evs b last c1 c2,
     new_events w w' =
       [New_ev None; SetProtocol_ev gpgme.ProtocolOpenPGP None; SetArmor_ev armored;
        NewDataBytes_ev dataIn plainText None; NewData_ev dataOut None;
        FindKeys_ev signWith true None; Sign_ev keys None; Rewind_ev dataOut None]
       ++ evs ++
       [Read_ev dataOut b last; Close_ev dataOut c1; Close_ev dataIn c2; Release_ev] ∧
     Forall is_good_Read evs ∧
     SignBytes_returns.n r = length b ∧
     ((last = Some io_EOF ∧ SignBytes_returns.err r = Some io_EOF ∧
       SignBytes_returns.cipherText r = chunks_read evs ++ b) ∨
      (∃ e, last = Some e ∧ e ≠ io_EOF ∧
       SignBytes_returns.err r = Some (Errorf_w "SignBytes - Read failed: " e) ∧
       SignBytes_returns.cipherText r = chunks_read evs))).
Proof.
  intros Hrun. unfold SignBytes, SignBytes_return in Hrun. prims. wsimpl.
  repeat step Hrun.
  all: try lazymatch goal with
       | Hl : SignBytes_read _ _ _ _ = Some _ |- _ =>
           apply SignBytes_read_run in Hl
             as (evs & b & last & -> & Hevs & Hfps & Hn & Hres)
       end.
  all: trace; cbn [SignBytes_returns.err SignBytes_returns.cipherText SignBytes_returns.n].
  1-7: left; eexists _, _; split; [reflexivity|]; split; [reflexivity|];
       split; [none_is|]; find_ex.
  right. eexists _, evs, b, last, _, _.
  split; [reflexivity|]. split; [done|]. split; [done|].
  rewrite app_nil_l in Hres. exact Hres.
Qed.

Lemma VerifyBytes_run fuel cipherText w r w' :
  VerifyBytes fuel cipherText w = Some (r, w') →
  (∃ prefix e,
     VerifyBytes_returns.err r = Some (Errorf_w prefix e) ∧
     VerifyBytes_returns.plainText r = [] ∧
     Forall (λ ev, is_Read ev = false) (new_events w w') ∧
     Exists (λ ev, answer ev = Some e) (new_events w w')) ∨
  (∃ evs b last c1 c2,
     new_events w w' =
       [New_ev None; SetProtocol_ev gpgme.ProtocolOpenPGP None;
        NewDataBytes_ev dataIn cipherText None; NewData_ev dataOut None;
        Verify_ev None; Rewind_ev dataOut None]
       ++ evs ++
       [Read_ev dataOut b last; Close_ev dataOut c1; Close_ev dataIn c2; Release_ev] ∧
     Forall is_good_Read evs ∧
     ((last = Some io_EOF ∧ VerifyBytes_returns.err r = Some io_EOF ∧
       VerifyBytes_returns.plainText r = chunks_read evs ++ b) ∨
      (∃ e, last = Some e ∧ e ≠ io_EOF ∧
       VerifyBytes_returns.err r = Some (Errorf_w "VerifyBytes - Read failed: " e) ∧
       VerifyBytes_returns.plainText r = chunks_read evs))).
Proof.
  intros Hrun. unfold VerifyBytes, VerifyBytes_return in Hrun. prims. wsimpl.
  repeat step Hrun.
  all: try lazymatch goal with
       | Hl : VerifyBytes_read _ _ _ _ _ = Some _ |- _ =>
           apply VerifyBytes_read_run in Hl
             as (evs & b & last & -> & Hevs & Hsigs & Hname & Hres)
       end.
  all: trace; cbn [VerifyBytes_returns.err VerifyBytes_returns.plainText].
  1-6: left; eexists _, _; split; [reflexivity|]; split; [reflexivity|];
       split; [none_is|]; find_ex.
  right. eexists evs, b, last, _, _.
  split; [reflexivity|]. split; [done|].
  rewrite app_nil_l in Hres. exact Hres.
Qed.

Lemma chunks_read_good evs b :
  Forall is_good_Read evs → ∀ e, Read_ev dataOut b (Some e) ∉ evs.
Proof.
  intros Hevs e Hin. eapply Forall_forall in Hevs; [|exact Hin]. done.
Qed.

Lemma failed_Read_not_succeeded d b e :
  e ≠ io_EOF → ¬ succeeded (Read_ev d b (Some e)).
Proof. intros He Hs. by destruct e. Qed.

Lemma early_failure_not_succeeded (evs : list event) e :
  Forall (λ ev, is_Read ev = false) evs →
  Exists (λ ev, answer ev = Some e) evs →
  ¬ Forall succeeded evs.
Proof.
  intros Hno Hex Hok.
  apply Exists_exists in Hex as (ev & Hev & Hans).
  eapply Forall_forall in Hok; [|exact Hev].
  eapply Forall_forall in Hno; [|exact Hev].
  destruct ev; simpl in *; congruence.
Qed.

(** More fuel changes nothing once a call has returned. *)
Lemma SignBytes_fuel fuel fuel' plainText signWith armored w x :
  SignBytes fuel plainText signWith armored w = Some x → (fuel ≤ fuel')%nat →
  SignBytes fuel' plainText signWith armored w = Some x.
Proof.
  intros Hrun Hle. unfold SignBytes, SignBytes_return in *. prims. wsimpl.
  destruct x as [r w'].
  repeat step Hrun; try reflexivity.
  lazymatch goal with
  | Hl : SignBytes_read _ _ _ _ = Some _ |- _ =>
      by rewrite (SignBytes_read_fuel _ fuel' _ _ _ _ Hl Hle)
  end.
Qed.

Lemma VerifyBytes_fuel fuel fuel' cipherText w x :
  VerifyBytes fuel cipherText w = Some x → (fuel ≤ fuel')%nat →
  VerifyBytes fuel' cipherText w = Some x.
Proof.
  intros Hrun Hle. unfold VerifyBytes, VerifyBytes_return in *. prims. wsimpl.
  destruct x as [r w'].
  repeat step Hrun; try reflexivity.
  lazymatch goal with
  | Hl : VerifyBytes_read _ _ _ _ _ = Some _ |- _ =>
      by rewrite (VerifyBytes_read_fuel _ fuel' _ _ _ _ _ Hl Hle)
  end.
Qed.

End drain.

Section failing_drain.
Context `{Outside}.

(** A read that fails ends the loop of [SignBytes]: it returns, with what
    the reads before handed out. *)
Lemma SignBytes_read_fails k e w acc fps fuel :
  drain_fails k e w → e ≠ io_EOF → (k < fuel)%nat →
  ∃ r evs b,
    SignBytes_read fuel acc fps w
    = Some (r, emits (evs ++ [Read_ev dataOut b (Some e)]) w) ∧
    Forall is_good_Read evs ∧
    chunks_read evs = drained k w ∧
    SignBytes_returns.err r = Some (Errorf_w "SignBytes - Read failed: " e) ∧
    SignBytes_returns.cipherText r = acc ++ drained k w ∧
    SignBytes_returns.n r = length b ∧
    SignBytes_returns.signingFingerPrints r = fps.
Proof.
  intros Hk He. revert w acc fuel Hk.
  induction k as [|k IH]; intros w acc fuel Hk Hfuel;
    (destruct fuel as [|fuel]; [lia|]); simpl in *; unfold bind, Data_Read in *.
  - destruct (on_Read w dataOut chunkSize) as [b0 last]. simpl in Hk. subst last.
    destruct e; [done|..]; simpl.
    all: eexists _, [], (take chunkSize b0); split; [reflexivity|].
    all: split; [done|]; split; [done|]; simpl; by rewrite app_nil_r.
  - destruct (on_Read w dataOut chunkSize) as [b0 last]. simpl in Hk.
    destruct Hk as [-> Hk]. simpl.
    destruct (IH (emit (Read_ev dataOut (take chunkSize b0) None) w)
                 (acc ++ take chunkSize b0) fuel Hk ltac:(lia))
      as (r & evs & b & Hrun & Hevs & Hchunks & Herr & Htext & Hn & Hfps).
    exists r, (Read_ev dataOut (take chunkSize b0) None :: evs), b.
    rewrite Hrun, emits_emit. split; [done|]. split; [by constructor|].
    split; [simpl; by rewrite Hchunks|]. split; [done|].
    split; [by rewrite Htext, <- app_assoc|]. by split.
Qed.

Lemma VerifyBytes_read_fails k e w acc sigs fname fuel :
  drain_fails k e w → e ≠ io_EOF → (k < fuel)%nat →
  ∃ r evs b,
    VerifyBytes_read fuel acc sigs fname w
    = Some (r, emits (evs ++ [Read_ev dataOut b (Some e)]) w) ∧
    Forall is_good_Read evs ∧
    chunks_read evs = drained k w ∧
    VerifyBytes_returns.err r = Some (Errorf_w "VerifyBytes - Read failed: " e) ∧
    VerifyBytes_returns.plainText r = acc ++ drained k w ∧
    VerifyBytes_returns.signatures r = sigs ∧
    VerifyBytes_returns.filename r = fname.
Proof.
  intros Hk He. revert w acc fuel Hk.
  induction k as [|k IH]; intros w acc fuel Hk Hfuel;
    (destruct fuel as [|fuel]; [lia|]); simpl in *; unfold bind, Data_Read in *.
  - destruct (on_Read w dataOut chunkSize) as [b0 last]. simpl in Hk. subst last.
    destruct e; [done|..]; simpl.
    all: eexists _, [], (take chunkSize b0); split; [reflexivity|].
    all: split; [done|]; split; [done|]; simpl; by rewrite app_nil_r.
  - destruct (on_Read w dataOut chunkSize) as [b0 last]. simpl in Hk.
    destruct Hk as [-> Hk]. simpl.
    rewrite append_if_any.
    destruct (IH (emit (Read_ev dataOut (take chunkSize b0) None) w)
                 (acc ++ take chunkSize b0) fuel Hk ltac:(lia))
      as (r & evs & b & Hrun & Hevs & Hchunks & Herr & Htext & Hsigs & Hname).
    exists r, (Read_ev dataOut (take chunkSize b0) None :: evs), b.
    rewrite Hrun, emits_emit. split; [done|]. split; [by constructor|].
    split; [simpl; by rewrite Hchunks|]. split; [done|].
    split; [by rewrite Htext, <- app_assoc|]. by split.
Qed.

(** The same for a stream that ends. *)
Lemma SignBytes_read_ends k w acc fps fuel :
  drain_ends k w → (k < fuel)%nat →
  ∃ r w',
    SignBytes_read fuel acc fps w = Some (r, w') ∧
    SignBytes_returns.err r = Some io_EOF ∧
    SignBytes_returns.signingFingerPrints r = fps.
Proof.
  intros Hk Hfuel.
  destruct (SignBytes_read_total k w acc fps fuel Hk Hfuel) as (r & w' & Hrun & Herr).
  exists r, w'. split; [done|]. split; [done|].
  by apply SignBytes_read_run in Hrun as (_ & _ & _ & _ & _ & Hfps & _).
Qed.

Lemma VerifyBytes_read_ends k w acc sigs fname fuel :
  drain_ends k w → (k < fuel)%nat →
  ∃ r w',
    VerifyBytes_read fuel acc sigs fname w = Some (r, w') ∧
    VerifyBytes_returns.err r = Some io_EOF ∧
    VerifyBytes_returns.signatures r = sigs ∧
    VerifyBytes_returns.filename r = fname.
Proof.
  intros Hk Hfuel.
  destruct (VerifyBytes_read_total k w acc sigs fname fuel Hk Hfuel)
    as (r & w' & Hrun & Herr).
  exists r, w'. split; [done|]. split; [done|].
  by apply VerifyBytes_read_run in Hrun as (_ & _ & _ & _ & _ & Hsigs & Hname & _).
Qed.

End failing_drain.

(** Running a call whose first answers are known. *)
Ltac answered H := rewrite H; wsimpl; cbn [app].

(** C7, refuted as stated: the engine hands out a first chunk, then fails
    to read the second.  [SignBytes] returns the wrapped read error, and
    with it the first chunk: the output accumulated so far is returned, not
    discarded. *)
Lemma SignBytes_keeps_partial_output :
  ∃ r w',
    @SignBytes (scripted broken_read_script) 2 (bytes "hello") "alice" true (world_of [])
    = Some (r, w') ∧
    SignBytes_returns.err r
    = Some (Errorf_w "SignBytes - Read failed: " (Foreign "I/O error")) ∧
    SignBytes_returns.cipherText r = bytes "-----BEGIN" ∧
    SignBytes_returns.cipherText r ≠ [].
Proof. eexists _, _. by vm_compute. Qed.

(** C7, amended.  In [SignBytes], which drains the engine's output with
    reads of [chunkSize] = 10240 bytes, a read that fails with an error
    other than [io.EOF] is fatal.  When every call before the loop
    succeeds and the stream hands out [k] chunks before a read fails,
    [SignBytes] returns (any fuel above [k] is enough): it returns that
    error wrapped, with [n] the count of the failed read, and with the
    output accumulated from the [k] reads before it; the bytes of the
    failed read are not appended.  Seen from the calls of a run: a run
    that returned after such a read returned just that. *)
Theorem SignBytes_read_error `{Outside} :
  (∀ plainText signWith armored keys w w8 k e fuel,
     SignBytes_reaches_loop plainText signWith armored keys w w8 →
     drain_fails k e w8 → e ≠ io_EOF → (k < fuel)%nat →
     ∃ r w' b,
       SignBytes fuel plainText signWith armored w = Some (r, w') ∧
       Read_ev dataOut b (Some e) ∈ new_events w w' ∧
       SignBytes_returns.err r = Some (Errorf_w "SignBytes - Read failed: " e) ∧
       SignBytes_returns.n r = length b ∧
       SignBytes_returns.cipherText r = drained k w8 ∧
       SignBytes_returns.cipherText r = chunks_read (new_events w w')) ∧
  (∀ fuel plainText signWith armored w r w' b e,
     SignBytes fuel plainText signWith armored w = Some (r, w') →
     Read_ev dataOut b (Some e) ∈ new_events w w' →
     e ≠ io_EOF →
     SignBytes_returns.err r = Some (Errorf_w "SignBytes - Read failed: " e) ∧
     SignBytes_returns.n r = length b ∧
     SignBytes_returns.cipherText r = chunks_read (new_events w w')).
Proof.
  split.
  - intros plainText signWith armored keys w w8 k e fuel
      (HNew & HSetProtocol & HNewDataBytes & HNewData & HFindKeys & HSign & HRewind & ->)
      Hdrain He Hfuel.
    unfold SignBytes, SignBytes_return. prims. wsimpl.
    answered HNew. answered HSetProtocol. answered HNewDataBytes. answered HNewData.
    answered HFindKeys. answered HSign. answered HRewind.
    match goal with |- context [SignBytes_read fuel ?acc ?fps ?w8] =>
      destruct (SignBytes_read_fails k e w8 acc fps fuel Hdrain He Hfuel)
        as (r & evs & b & -> & Hevs & Hchunks & Herr & Htext & Hn & Hfps) end.
    eexists r, _, b. split; [reflexivity|]. trace.
    split; [find_ev|]. split; [done|]. split; [done|]. split; [done|].
    rewrite Htext. cbn [chunks_read]. rewrite chunks_read_app, Hchunks.
    cbn [chunks_read app]. by rewrite app_nil_r.
  - intros fuel plainText signWith armored w r w' b e Hrun Hev He.
    apply SignBytes_run in Hrun
      as [(prefix & e0 & _ & _ & Hno & _)
         |(keys & evs & b0 & last & c1 & c2 & Htrace & Hevs & Hn & Hres)].
    + eapply Forall_forall in Hno; [|exact Hev]. done.
    + rewrite Htrace in Hev |- *. mem_cases Hev; try discriminate Hev.
      * by apply chunks_read_good in Hev.
      * injection Hev as -> <-.
        destruct Hres as [([= ->] & _)|(e' & [= <-] & _ & Herr & Htext)]; [done|].
        split; [done|]. split; [done|].
        rewrite !chunks_read_app. simpl. by rewrite app_nil_r.
Qed.

(** The second chunk cannot be read: the error comes back, with the first
    chunk. *)
Lemma SignBytes_read_error_witness :
  ∃ r w' b,
    @SignBytes (scripted broken_read_script) 2 (bytes "hello") "alice" true (world_of [])
    = Some (r, w') ∧
    Read_ev dataOut b (Some (Foreign "I/O error")) ∈ new_events (world_of []) w' ∧
    SignBytes_returns.err r
    = Some (Errorf_w "SignBytes - Read failed: " (Foreign "I/O error")) ∧
    SignBytes_returns.n r = length b ∧
    SignBytes_returns.cipherText r = bytes "-----BEGIN" ∧
    SignBytes_returns.cipherText r = chunks_read (new_events (world_of []) w').
Proof.
  eassert (Hloop : @SignBytes_reaches_loop (scripted broken_read_script)
                     (bytes "hello") "alice" true [alice_key] (world_of []) _).
  { unfold SignBytes_reaches_loop. repeat split; reflexivity. }
  edestruct (proj1 (@SignBytes_read_error (scripted broken_read_script))
               _ _ _ _ _ _ 1%nat (Foreign "I/O error") 2%nat Hloop)
    as (r & w' & b & Hrun & Hev & Herr & Hn & Htext & Hchunks).
  - simpl. repeat split; reflexivity.
  - discriminate.
  - lia.
  - exists r, w', b. repeat split; assumption.
Defined.

(** C9.  When every call before the loop succeeds and the stream of the
    output object ends after [k] chunks, [SignBytes] returns (any fuel
    above [k] is enough) and the error it returns is [io.EOF], not [nil]:
    the named result still holds the answer of the last read.  The same
    goes for [VerifyBytes].  Seen from the calls of a run: a run of either
    function in which every call succeeded returned [io.EOF]. *)
Theorem SignBytes_VerifyBytes_return_EOF `{Outside} :
  (∀ plainText signWith armored keys w w8 k fuel,
     SignBytes_reaches_loop plainText signWith armored keys w w8 →
     drain_ends k w8 → (k < fuel)%nat →
     ∃ r w', SignBytes fuel plainText signWith armored w = Some (r, w') ∧
             SignBytes_returns.err r = Some io_EOF) ∧
  (∀ cipherText verified w w6 k fuel,
     VerifyBytes_reaches_loop cipherText verified w w6 →
     drain_ends k w6 → (k < fuel)%nat →
     ∃ r w', VerifyBytes fuel cipherText w = Some (r, w') ∧
             VerifyBytes_returns.err r = Some io_EOF) ∧
  (∀ fuel plainText signWith armored w r w',
     SignBytes fuel plainText signWith armored w = Some (r, w') →
     Forall succeeded (new_events w w') →
     SignBytes_returns.err r = Some io_EOF) ∧
  (∀ fuel cipherText w r w',
     VerifyBytes fuel cipherText w = Some (r, w') →
     Forall succeeded (new_events w w') →
     VerifyBytes_returns.err r = Some io_EOF).
Proof.
  split; [|split; [|split]].
  - intros plainText signWith armored keys w w8 k fuel
      (HNew & HSetProtocol & HNewDataBytes & HNewData & HFindKeys & HSign & HRewind & ->)
      Hdrain Hfuel.
    unfold SignBytes, SignBytes_return. prims. wsimpl.
    rewrite HNew. wsimpl. rewrite HSetProtocol. wsimpl.
    rewrite HNewDataBytes. wsimpl. rewrite HNewData. wsimpl.
    rewrite HFindKeys. wsimpl. cbn [app]. rewrite HSign. wsimpl.
    rewrite HRewind. wsimpl.
    match goal with |- context [SignBytes_read fuel ?acc ?fps ?w8] =>
      destruct (SignBytes_read_total k w8 acc fps fuel Hdrain Hfuel)
        as (r & w' & -> & Herr) end.
    by eexists _, _.
  - intros cipherText [fname sigs] w w6 k fuel
      (HNew & HSetProtocol & HNewDataBytes & HNewData & HVerify & HRewind & ->)
      Hdrain Hfuel.
    unfold VerifyBytes, VerifyBytes_return. prims. wsimpl.
    rewrite HNew. wsimpl. rewrite HSetProtocol. wsimpl.
    rewrite HNewDataBytes. wsimpl. rewrite HNewData. wsimpl.
    rewrite HVerify. wsimpl. rewrite HRewind. wsimpl.
    match goal with |- context [VerifyBytes_read fuel ?acc ?s ?f ?w6] =>
      destruct (VerifyBytes_read_total k w6 acc s f fuel Hdrain Hfuel)
        as (r & w' & -> & Herr) end.
    by eexists _, _.
  - intros fuel plainText signWith armored w r w' Hrun Hok.
    apply SignBytes_run in Hrun
      as [(prefix & e0 & _ & _ & Hno & Hex)
         |(keys & evs & b0 & last & c1 & c2 & Htrace & Hevs & Hn & Hres)].
    + by destruct (early_failure_not_succeeded _ _ Hno Hex).
    + destruct Hres as [(_ & Herr & _)|(e & -> & He & _)]; [done|].
      rewrite Htrace in Hok.
      apply Forall_app in Hok as [_ Hok]. apply Forall_app in Hok as [_ Hok].
      apply Forall_cons in Hok as [Hok _].
      by destruct (failed_Read_not_succeeded dataOut b0 e He).
  - intros fuel cipherText w r w' Hrun Hok.
    apply VerifyBytes_run in Hrun
      as [(prefix & e0 & _ & _ & Hno & Hex)
         |(evs & b0 & last & c1 & c2 & Htrace & Hevs & Hres)].
    + by destruct (early_failure_not_succeeded _ _ Hno Hex).
    + destruct Hres as [(_ & Herr & _)|(e & -> & He & _)]; [done|].
      rewrite Htrace in Hok.
      apply Forall_app in Hok as [_ Hok]. apply Forall_app in Hok as [_ Hok].
      apply Forall_cons in Hok as [Hok _].
      by destruct (failed_Read_not_succeeded dataOut b0 e He).
Qed.

(** Signing with Alice's key: three reads, the last one at the end of the
    stream. *)
Lemma SignBytes_VerifyBytes_return_EOF_witness :
  ∃ r w',
    @SignBytes (scripted plain_script) 3 (bytes "hello") "alice" true (world_of [])
    = Some (r, w') ∧
    SignBytes_returns.err r = Some io_EOF.
Proof.
  eapply (proj1 (@SignBytes_VerifyBytes_return_EOF (scripted plain_script))
            (bytes "hello") "alice" true [alice_key] (world_of []) _ 2%nat 3%nat).
  - unfold SignBytes_reaches_loop. repeat split; reflexivity.
  - simpl. repeat split; reflexivity.
  - lia.
Defined.

(** * More properties *)

(** ** keys.go: the model builder, continued *)

Section more_builder_facts.
Context `{Slices}.

(** The grouping loop: what an issuer has in the map after a chain. *)
Lemma appendSig_groups issuer (chain : list gpgme.KeySignature.t) sigs :
  fold_left appendSig chain sigs !! issuer
  = match issued_by issuer chain with
    | [] => sigs !! issuer
    | new => Some (default [] (sigs !! issuer) ++ map oneSig new)
    end.
Proof.
  revert sigs. induction chain as [|sg chain IH]; intros sigs; [done|].
  cbn [fold_left]. rewrite IH. unfold issued_by. rewrite filter_cons.
  unfold appendSig at 1 2.
  destruct (decide (gpgme.KeySignature.KeyID sg = issuer)) as [->|Hne].
  - rewrite lookup_insert_eq. cbn [default].
    destruct (filter _ chain); cbn [map]; unfold id; by rewrite <- ?app_assoc.
  - by rewrite lookup_insert_ne.
Qed.

Lemma fillKey_newest_first k u issuer s :
  u ∈ KeyType.UserIDs (fillKey k) →
  KeyUserIDsType.Signatures u !! issuer = Some s →
  StronglySorted newest_first s.
Proof.
  intros Hu Hs. unfold fillKey in Hu. simpl in Hu.
  destruct (gpgme.Key.HasUserIDs k); [|by apply elem_of_nil in Hu].
  rewrite fillUserIDs_map in Hu.
  apply list_elem_of_fmap in Hu as (uid & -> & _).
  unfold oneUid in Hs. simpl in Hs.
  destruct (gpgme.UserID.HasSig uid); [|by rewrite lookup_empty in Hs].
  apply fillUidSignatures_lookup in Hs as (s0 & _ & ->).
  apply SortFunc_newest_first.
Qed.

End more_builder_facts.

(** X1.  When the handle says it has user IDs, the record [fillKey] builds
    has one user ID record for every user ID of the chain, in the order of
    the chain, each with the fields of its user ID: none is dropped, none
    comes twice, none changes place. *)
Theorem fillKey_user_IDs_in_order `{Slices} (k : gpgme.Key.t) :
  gpgme.Key.HasUserIDs k = true →
  Forall2 copies_uid (KeyType.UserIDs (fillKey k)) (gpgme.Key.UserIDs k).
Proof.
  intros Hk. unfold fillKey. simpl. rewrite Hk, fillUserIDs_map.
  induction (gpgme.Key.UserIDs k) as [|uid chain IH]; constructor; [|done].
  by repeat split.
Qed.

Lemma fillKey_user_IDs_in_order_witness :
  Forall2 copies_uid (KeyType.UserIDs (@fillKey merge_Slices alice_key)) [alice_uid].
Proof. apply (@fillKey_user_IDs_in_order merge_Slices alice_key). reflexivity. Defined.

(** X2.  [fillUidSignatures] files every signature of the chain under the
    key ID of its issuer and nowhere else: the slice the map has for an
    issuer is a rearrangement of the signatures of the chain that this
    issuer made, copied field by field, and it is not empty; an issuer
    without a signature in the chain has no entry in the map. *)
Theorem fillUidSignatures_groups `{Slices} (uid : gpgme.UserID.t) (issuer : string) :
  match fillUidSignatures uid !! issuer with
  | Some s =>
      s ≠ [] ∧
      s ≡ₚ map oneSig (issued_by issuer (gpgme.UserID.Signatures uid)) ∧
      Forall (λ sg, KeyUidIssuerSignatureType.IssuerKeyID sg = issuer) s
  | None =>
      Forall (λ sg, gpgme.KeySignature.KeyID sg ≠ issuer) (gpgme.UserID.Signatures uid)
  end.
Proof.
  unfold fillUidSignatures. rewrite lookup_fmap, appendSig_groups, lookup_empty.
  destruct (issued_by issuer _) as [|sg new] eqn:Hnew;
    cbn [fmap option_fmap option_map default].
  - unfold issued_by in Hnew. apply Forall_forall. intros sg Hsg Hissuer.
    assert (Hin : sg ∈ filter (λ sg, gpgme.KeySignature.KeyID sg = issuer)
                         (gpgme.UserID.Signatures uid))
      by (by apply list_elem_of_filter).
    rewrite Hnew in Hin. by apply elem_of_nil in Hin.
  - rewrite app_nil_l.
    assert (Hperm := SortFunc_Permutation _ byCreationTimeDesc (map oneSig (sg :: new))).
    split; [|split; [done|]].
    + intros E. rewrite E in Hperm. by apply Permutation_nil_cons in Hperm.
    + rewrite Hperm, <- Hnew. apply Forall_forall. intros s Hs.
      apply list_elem_of_fmap in Hs as (sg' & -> & Hsg').
      unfold issued_by in Hsg'. by apply list_elem_of_filter in Hsg' as [? _].
Qed.

(** ** keys.go: [KeyList] *)

Section listing_facts.
Context `{Slices} `{Keyring}.

Lemma handed_out_app l1 l2 : handed_out (l1 ++ l2) = handed_out l1 ++ handed_out l2.
Proof.
  induction l1 as [|c l1 IH]; [done|].
  destruct c as [| | | |[k|e]|]; simpl; by rewrite ?IH.
Qed.

Lemma handed_out_listed ks :
  handed_out (map (λ k, KeyListNext_call (inl k)) ks) = ks.
Proof. induction ks as [|k ks IH]; simpl; by rewrite ?IH. Qed.

Lemma listed_all ks (P : listing_call → Prop) :
  (∀ k, P (KeyListNext_call (inl k))) →
  Forall P (map (λ k, KeyListNext_call (inl k)) ks).
Proof. intros HP. induction ks; constructor; auto. Qed.

(** The loop hands on what the engine lists until the engine stops. *)
Lemma KeyList_loop_run fuel keys log r log' :
  KeyList_loop fuel keys log = Some (r, log') →
  ∃ ks keyError,
    log' = log ++ map (λ k, KeyListNext_call (inl k)) ks
               ++ [KeyListNext_call (inr keyError)] ∧
    KeyList_returns.keys r = keys ++ map fillKey ks ∧
    KeyList_returns.err r
    = match keyError with
      | Some e => Some (Errorf_w "KeyList -KeyListNext failed - " e)
      | None => None
      end.
Proof.
  revert keys log. induction fuel as [|fuel IH]; intros keys log Hrun; [done|].
  simpl in Hrun. destruct (on_KeyListNext log) as [k|keyError] eqn:Hnext.
  - apply IH in Hrun as (ks & keyError & -> & Hkeys & Herr).
    exists (k :: ks), keyError. simpl. rewrite <- !app_assoc.
    split; [done|]. split; [|done]. by rewrite Hkeys, <- app_assoc.
  - exists [], keyError. simpl. rewrite app_nil_r.
    destruct keyError; injection Hrun as <- <-; by repeat split.
Qed.

Lemma KeyList_loop_total fuel ks keyError keys log :
  lists ks keyError log → (length ks < fuel)%nat →
  KeyList_loop fuel keys log
  = Some ({| KeyList_returns.keys := keys ++ map fillKey ks;
             KeyList_returns.err :=
               match keyError with
               | Some e => Some (Errorf_w "KeyList -KeyListNext failed - " e)
               | None => None
               end |},
          log ++ map (λ k, KeyListNext_call (inl k)) ks
              ++ [KeyListNext_call (inr keyError)]).
Proof.
  revert fuel keys log. induction ks as [|k ks IH]; intros fuel keys log Hlists Hfuel;
    (destruct fuel as [|fuel]; [simpl in Hfuel; lia|]); simpl in *.
  - rewrite Hlists, app_nil_r. by destruct keyError.
  - destruct Hlists as [-> Hlists]. rewrite (IH fuel) by (done || lia).
    by rewrite <- !app_assoc.
Qed.

(** The runs of [KeyList]. *)
Lemma KeyList_run fuel lookFor log r log' :
  KeyList fuel lookFor log = Some (r, log') →
  let mode := Z.lor (Z.lor gpgme_KeyListModeLocal gpgme_KeyListModeSigs)
                gpgme_KeyListModeSigNotations in
  (∃ prefix e calls,
     drop (length log) log' = calls ∧
     KeyList_returns.keys r = [] ∧
     KeyList_returns.err r = Some (Errorf_w prefix e) ∧
     (calls = [Listing_New (Some e)] ∨
      calls = [Listing_New None; SetKeyListMode_call mode (Some e); Listing_Release] ∨
      calls = [Listing_New None; SetKeyListMode_call mode None;
               KeyListStart_call lookFor false (Some e); Listing_Release])) ∨
  (∃ ks keyError ended,
     drop (length log) log'
     = [Listing_New None; SetKeyListMode_call mode None;
        KeyListStart_call lookFor false None]
       ++ map (λ k, KeyListNext_call (inl k)) ks
       ++ [KeyListNext_call (inr keyError); KeyListEnd_call ended; Listing_Release] ∧
     KeyList_returns.keys r = map fillKey ks ∧
     KeyList_returns.err r
     = match keyError with
       | Some e => Some (Errorf_w "KeyList -KeyListNext failed - " e)
       | None => None
       end).
Proof.
  intros Hrun mode. unfold KeyList, KeyList_fail, KeyList_defer in Hrun. fold mode in Hrun.
  destruct (on_Listing_New log) as [e|] eqn:HNew.
  { injection Hrun as <- <-. left. eexists _, e, _.
    rewrite drop_app_length. do 3 (split; [done|]). by left. }
  destruct (on_SetKeyListMode _ mode) as [e|] eqn:HMode.
  { injection Hrun as <- <-. left. eexists _, e, _.
    rewrite <- !app_assoc, drop_app_length. do 3 (split; [done|]). right; by left. }
  destruct (on_KeyListStart _ lookFor false) as [e|] eqn:HStart.
  { injection Hrun as <- <-. left. eexists _, e, _.
    rewrite <- !app_assoc, drop_app_length. do 3 (split; [done|]). right; by right. }
  destruct (KeyList_loop fuel [] _) as [[r0 log0]|] eqn:Hloop; [|done].
  injection Hrun as <- <-.
  apply KeyList_loop_run in Hloop as (ks & keyError & -> & Hkeys & Herr).
  right. exists ks, keyError. eexists.
  rewrite <- !app_assoc, drop_app_length. simpl. by repeat split.
Qed.

End listing_facts.

(** X3.  Whatever run of [KeyList] returns, the keys it returns are the
    records built by [fillKey] from the keys the engine handed out, in the
    order the engine handed them out.  This holds also when the listing
    breaks off with an error: the keys listed until then are returned
    with the wrapped [KeyError], not dropped.  The error returned is [nil]
    exactly when every call answered [nil], the answer of [KeyListEnd]
    apart, which is never looked at. *)
Theorem KeyList_keys_listed `{Slices} `{Keyring}
    (fuel : nat) (lookFor : string) (log : list listing_call)
    (r : KeyList_returns.t) (log' : list listing_call) :
  KeyList fuel lookFor log = Some (r, log') →
  let calls := drop (length log) log' in
  KeyList_returns.keys r = map fillKey (handed_out calls) ∧
  (KeyList_returns.err r = None ↔
   Forall (λ c, is_KeyListEnd c ∨ listing_answer c = None) calls) ∧
  (∀ e, KeyListNext_call (inr (Some e)) ∈ calls →
     KeyList_returns.err r = Some (Errorf_w "KeyList -KeyListNext failed - " e)).
Proof.
  intros Hrun calls. subst calls.
  apply KeyList_run in Hrun
    as [(prefix & e & calls & -> & Hkeys & Herr & Hcalls)
       |(ks & keyError & ended & -> & Hkeys & Herr)].
  - rewrite Hkeys, Herr.
    destruct Hcalls as [-> | [-> | ->]].
    all: split; [done|]; split.
    all: try (intros e' Hev; mem_cases Hev; discriminate Hev).
    all: split; [done|]; intros Hok.
    all: repeat (let Hhd := fresh "Hhd" in apply Forall_cons in Hok as [Hhd Hok]).
    all: repeat match goal with
         | Hd : _ ∨ _ |- _ => destruct Hd as [Hd|Hd]; simpl in Hd; try done
         end.
  - rewrite Hkeys, Herr. split; [|split].
    + simpl. by rewrite handed_out_app, handed_out_listed, app_nil_r.
    + split.
      * intros Hnil. destruct keyError; [done|].
        do 3 (constructor; [by right|]). apply Forall_app. split.
        -- apply listed_all. intros k. by right.
        -- constructor; [by right|]. constructor; [by left|]. constructor; [by right|done].
      * intros Hok. do 3 apply Forall_cons in Hok as [_ Hok].
        apply Forall_app in Hok as [_ Hok]. apply Forall_cons in Hok as [[[]|Hok] _].
        simpl in Hok. by rewrite Hok.
    + intros e Hev. mem_cases Hev; try discriminate Hev.
      * apply list_elem_of_fmap in Hev as (k & [=] & _).
      * by injection Hev as <-.
Qed.

(** A listing that breaks off after Alice's key: the key is returned, with
    the error. *)
Lemma KeyList_keys_listed_witness :
  ∃ r log',
    @KeyList merge_Slices (scripted_keyring [alice_key] (Some (Foreign "General error")))
      2 "alice" [] = Some (r, log') ∧
    KeyList_returns.keys r = map (@fillKey merge_Slices) (handed_out (drop 0 log')) ∧
    KeyList_returns.err r
    = Some (Errorf_w "KeyList -KeyListNext failed - " (Foreign "General error")).
Proof.
  destruct (@KeyList merge_Slices
              (scripted_keyring [alice_key] (Some (Foreign "General error")))
              2 "alice" []) as [[r log']|] eqn:Hrun.
  - exists r, log'. split; [reflexivity|].
    pose proof (@KeyList_keys_listed merge_Slices _ _ _ _ _ _ Hrun) as (Hkeys & _ & Herr).
    split; [exact Hkeys|]. apply Herr.
    clear -Hrun. vm_compute in Hrun. injection Hrun as <- <-.
    simpl. do 4 apply list_elem_of_further. apply list_elem_of_here.
  - vm_compute in Hrun. discriminate Hrun.
Defined.

(** X4.  When the context is created, the listing mode set and the listing
    started, and the engine then lists the keys [ks] and ends the listing,
    [KeyList] returns (any fuel above the number of keys is enough): it
    returns the records of [ks], in order, with [nil] when the listing
    ended at the end of the keys, with the wrapped [KeyError] otherwise. *)
Theorem KeyList_lists `{Slices} `{Keyring}
    (fuel : nat) (lookFor : string) (log : list listing_call)
    (ks : list gpgme.Key.t) (keyError : option error) :
  let mode := Z.lor (Z.lor gpgme_KeyListModeLocal gpgme_KeyListModeSigs)
                gpgme_KeyListModeSigNotations in
  let log1 := log ++ [Listing_New None] in
  let log2 := log1 ++ [SetKeyListMode_call mode None] in
  let log3 := log2 ++ [KeyListStart_call lookFor false None] in
  on_Listing_New log = None →
  on_SetKeyListMode log1 mode = None →
  on_KeyListStart log2 lookFor false = None →
  lists ks keyError log3 →
  (length ks < fuel)%nat →
  ∃ r log',
    KeyList fuel lookFor log = Some (r, log') ∧
    KeyList_returns.keys r = map fillKey ks ∧
    KeyList_returns.err r
    = match keyError with
      | Some e => Some (Errorf_w "KeyList -KeyListNext failed - " e)
      | None => None
      end.
Proof.
  intros mode log1 log2 log3 HNew HMode HStart Hlists Hfuel.
  unfold KeyList, KeyList_defer. fold mode. rewrite HNew. fold log1.
  rewrite HMode. fold log2. rewrite HStart. fold log3.
  rewrite (KeyList_loop_total fuel ks keyError [] log3 Hlists Hfuel).
  eexists _, _. split; [reflexivity|]. by split.
Qed.

(** A keyring with two keys. *)
Lemma KeyList_lists_witness :
  ∃ r log',
    @KeyList merge_Slices (scripted_keyring [alice_key; key_flag_only] None) 3 "" []
    = Some (r, log') ∧
    KeyList_returns.keys r = map (@fillKey merge_Slices) [alice_key; key_flag_only] ∧
    KeyList_returns.err r = None.
Proof.
  apply (@KeyList_lists merge_Slices (scripted_keyring [alice_key; key_flag_only] None)
           3%nat "" [] [alice_key; key_flag_only] None).
  - reflexivity.
  - reflexivity.
  - reflexivity.
  - simpl. repeat split; reflexivity.
  - simpl. lia.
Defined.

(** X5.  Every run of [KeyList] cleans up after itself.  When the context
    cannot be created, nothing else is called.  A context that was created
    is released, once, as the last call of the run.  A listing that was
    started is ended, once, right before the release, also when it broke
    off with an error; and [KeyListEnd] is called on no listing that was
    not started. *)
Theorem KeyList_releases `{Slices} `{Keyring}
    (fuel : nat) (lookFor : string) (log : list listing_call)
    (r : KeyList_returns.t) (log' : list listing_call) :
  KeyList fuel lookFor log = Some (r, log') →
  let calls := drop (length log) log' in
  (∀ e, Listing_New (Some e) ∈ calls → calls = [Listing_New (Some e)]) ∧
  (Listing_New None ∈ calls →
   ∃ before, calls = before ++ [Listing_Release] ∧ Listing_Release ∉ before) ∧
  (KeyListStart_call lookFor false None ∈ calls →
   ∃ before ended, calls = before ++ [KeyListEnd_call ended; Listing_Release] ∧
                   Forall (λ c, ¬ is_KeyListEnd c) before) ∧
  (∀ ended, KeyListEnd_call ended ∈ calls →
   KeyListStart_call lookFor false None ∈ calls).
Proof.
  intros Hrun calls. subst calls.
  apply KeyList_run in Hrun
    as [(prefix & e & calls & -> & Hkeys & Herr & Hcalls)
       |(ks & keyError & ended & -> & Hkeys & Herr)].
  - destruct Hcalls as [-> | [-> | ->]].
    all: split; [intros e' Hev; mem_cases Hev; try discriminate Hev; by injection Hev as ->|].
    all: split; [intros Hev; mem_cases Hev; try discriminate Hev|].
    all: try (eexists; split; [split_tail|];
              intros Hin; mem_cases Hin; discriminate Hin).
    all: split; [intros Hev; mem_cases Hev; discriminate Hev|].
    all: intros ended Hev; mem_cases Hev; discriminate Hev.
  - split; [|split; [|split]].
    + intros e Hev. mem_cases Hev; try discriminate Hev.
      apply list_elem_of_fmap in Hev as (k & [=] & _).
    + intros _. eexists. split.
      * rewrite app_assoc.
        change [KeyListNext_call (inr keyError); KeyListEnd_call ended; Listing_Release]
          with ([KeyListNext_call (inr keyError); KeyListEnd_call ended]
                ++ [Listing_Release]).
        by rewrite app_assoc.
      * intros Hin. mem_cases Hin; try discriminate Hin.
        apply list_elem_of_fmap in Hin as (k & [=] & _).
    + intros _. eexists _, ended. split.
      * rewrite app_assoc.
        change [KeyListNext_call (inr keyError); KeyListEnd_call ended; Listing_Release]
          with ([KeyListNext_call (inr keyError)]
                ++ [KeyListEnd_call ended; Listing_Release]).
        by rewrite app_assoc.
      * apply Forall_app. split; [apply Forall_app; split|].
        -- repeat first [apply Forall_nil_2 | apply Forall_cons_2; [by intros []|]].
        -- apply listed_all. by intros k [].
        -- repeat first [apply Forall_nil_2 | apply Forall_cons_2; [by intros []|]].
    + intros _ _. simpl. do 2 apply list_elem_of_further. apply list_elem_of_here.
Qed.

Lemma KeyList_releases_witness :
  ∃ r log',
    @KeyList merge_Slices (scripted_keyring [alice_key] (Some (Foreign "General error")))
      2 "alice" [] = Some (r, log') ∧
    ∃ before ended,
      drop 0 log' = before ++ [KeyListEnd_call ended; Listing_Release] ∧
      Forall (λ c, ¬ is_KeyListEnd c) before.
Proof.
  destruct (@KeyList merge_Slices
              (scripted_keyring [alice_key] (Some (Foreign "General error")))
              2 "alice" []) as [[r log']|] eqn:Hrun.
  - exists r, log'. split; [reflexivity|].
    apply (proj1 (proj2 (proj2 (@KeyList_releases merge_Slices _ _ _ _ _ _ Hrun)))).
    clear -Hrun. vm_compute in Hrun. injection Hrun as <- <-.
    simpl. do 2 apply list_elem_of_further. apply list_elem_of_here.
  - vm_compute in Hrun. discriminate Hrun.
Defined.

(** X6.  In every key record [KeyList] returns, in every user ID record of
    it, each issuer's slice of signatures is ordered by creation time,
    newest first. *)
Theorem KeyList_signatures_newest_first `{Slices} `{Keyring}
    (fuel : nat) (lookFor : string) (log : list listing_call)
    (r : KeyList_returns.t) (log' : list listing_call)
    (key : KeyType.t) (u : KeyUserIDsType.t) (issuer : string)
    (s : list KeyUidIssuerSignatureType.t) :
  KeyList fuel lookFor log = Some (r, log') →
  key ∈ KeyList_returns.keys r →
  u ∈ KeyType.UserIDs key →
  KeyUserIDsType.Signatures u !! issuer = Some s →
  StronglySorted
    (λ a b, KeyUidIssuerSignatureType.CreationTime b
            <= KeyUidIssuerSignatureType.CreationTime a) s.
Proof.
  intros Hrun Hkey Hu Hs.
  apply KeyList_run in Hrun
    as [(prefix & e & calls & _ & Hkeys & _)|(ks & keyError & ended & _ & Hkeys & _)];
    rewrite Hkeys in Hkey.
  - by apply elem_of_nil in Hkey.
  - apply list_elem_of_fmap in Hkey as (k & -> & _).
    by eapply fillKey_newest_first.
Qed.

Lemma KeyList_signatures_newest_first_witness :
  ∃ s,
    KeyUserIDsType.Signatures (@oneUid merge_Slices alice_uid) !! "0xA11CE" = Some s ∧
    StronglySorted
      (λ a b, KeyUidIssuerSignatureType.CreationTime b
              <= KeyUidIssuerSignatureType.CreationTime a) s.
Proof.
  destruct (@KeyList merge_Slices (scripted_keyring [alice_key] None) 2 "alice" [])
    as [[r log']|] eqn:Hrun; [|vm_compute in Hrun; discriminate Hrun].
  destruct (KeyUserIDsType.Signatures (@oneUid merge_Slices alice_uid) !! "0xA11CE")
    as [s|] eqn:Hs; [|vm_compute in Hs; discriminate Hs].
  exists s. split; [reflexivity|].
  apply (@KeyList_signatures_newest_first merge_Slices _ _ _ _ _ _
           (@fillKey merge_Slices alice_key) (@oneUid merge_Slices alice_uid)
           "0xA11CE" s Hrun).
  - clear -Hrun. vm_compute in Hrun. injection Hrun as <- _. apply list_elem_of_here.
  - apply list_elem_of_here.
  - exact Hs.
Defined.

(** ** main.go: [RandomString] *)

Section random_facts.
Context `{Outside}.

Lemma length_charSet : Z.of_nat (length charSet) = 62.
Proof. reflexivity. Qed.

Lemma RandomString_fill_spec todo s w :
  ∃ s' evs,
    RandomString_fill todo s w = (s ++ s', emits evs w) ∧
    length s' = todo ∧ Forall (λ c, c ∈ charSet) s' ∧
    length evs = todo ∧ Forall is_rand_62 evs.
Proof.
  revert s w. induction todo as [|todo IH]; intros s w; cbn [RandomString_fill].
  - exists [], []. unfold ret. rewrite emits_nil, app_nil_r. by repeat split.
  - unfold bind, rand_Int. rewrite length_charSet.
    set (r := on_rand_Int w 62 `mod` 62).
    assert (Hr : 0 <= r < 62) by (apply Z.mod_pos_bound; lia).
    destruct (IH (s ++ [nth (Z.to_nat r) charSet zero]) (emit (rand_Int_ev 62 r) w))
      as (s' & evs & -> & Hlen & Hchars & Hn & Hevs).
    exists (nth (Z.to_nat r) charSet zero :: s'), (rand_Int_ev 62 r :: evs).
    rewrite emits_emit, <- app_assoc. split; [done|].
    split; [simpl; by rewrite Hlen|]. split; [|split; [simpl; by rewrite Hn|]].
    + constructor; [|done]. apply list_elem_of_In, nth_In.
      apply Nat2Z.inj_lt. rewrite length_charSet. lia.
    + constructor; [|done]. by exists r.
Qed.

Lemma length_string_of_list_ascii (s : list ascii) :
  String.length (string_of_list_ascii s) = length s.
Proof. induction s as [|a s IH]; simpl; [done|]. by rewrite IH. Qed.

Lemma RandomString_spec n w :
  ∃ s evs,
    RandomString n w = (s, emits evs w) ∧
    alphanumeric (Z.to_nat n) s ∧
    length evs = Z.to_nat n ∧ Forall is_rand_62 evs.
Proof.
  unfold RandomString, alphanumeric.
  destruct (n <? 1) eqn:Hn.
  - apply Z.ltb_lt in Hn. replace (Z.to_nat n) with O by lia.
    exists EmptyString, []. unfold ret. rewrite emits_nil. by repeat split.
  - unfold bind, ret.
    destruct (RandomString_fill_spec (Z.to_nat n) [] w)
      as (s & evs & -> & Hlen & Hchars & Hcalls & Hevs).
    exists (string_of_list_ascii s), evs.
    rewrite length_string_of_list_ascii, list_ascii_of_string_of_list_ascii.
    by repeat split.
Qed.

End random_facts.

(** X7.  [RandomString n] gives a string of exactly [n] characters, all of
    them among the 62 letters and digits of [charSet]; it draws [n] times
    from [rand.Int], each time a number below 62, makes no other call and
    touches no file.  For [n] below 1 the string is empty and nothing is
    drawn. *)
Theorem RandomString_alphanumeric `{Outside} (n : Z) (w : World) :
  let run := RandomString n in
  String.length (outcome run w) = Z.to_nat n ∧
  Forall (λ c, c ∈ charSet) (list_ascii_of_string (outcome run w)) ∧
  length (calls run w) = Z.to_nat n ∧
  Forall is_rand_62 (calls run w) ∧
  fs (world_after run w) = fs w ∧
  (n < 1 → outcome run w = EmptyString ∧ calls run w = []).
Proof.
  intros run. subst run. unfold outcome, calls, world_after, new_events.
  destruct (RandomString_spec n w) as (s & evs & Hrun & [Hlen Hchars] & Hcalls & Hevs).
  rewrite Hrun. simpl. rewrite drop_app_length.
  do 5 (split; [done|]). intros Hn.
  replace (Z.to_nat n) with O in * by lia.
  destruct s; [|discriminate Hlen]. by destruct evs.
Qed.

(** ** encrypt.go, continued *)

Section lookup_facts.
Context `{Outside}.

(** The lookup loop asks for the recipients in order and stops at the
    first one the engine does not know. *)
Lemma findRecipients_trace {X} recipients thisRecipients
    (onerr : error → World → X) (k : list gpgme.Key.t → World → X) w :
  (∃ before r rest e,
     recipients = before ++ r :: rest ∧
     findRecipients recipients thisRecipients onerr k w
     = onerr e (emits (looked_up before ++ [FindKeys_ev r false (Some e)]) w)) ∨
  (∃ keys,
     findRecipients recipients thisRecipients onerr k w
     = k keys (emits (looked_up recipients) w) ∧
     (recipients = [] → keys = thisRecipients)).
Proof.
  revert thisRecipients w.
  induction recipients as [|r rest IH]; intros acc w.
  - right. exists acc. by rewrite emits_nil.
  - simpl. unfold bind, gpgme_FindKeys.
    destruct (on_FindKeys w r false) as [e|keys] eqn:E.
    + left. by exists [], r, rest, e.
    + destruct (IH (acc ++ keys) (emit (FindKeys_ev r false None) w))
        as [(before & r' & rest' & e & -> & ->)|(ks & -> & _)].
      * left. exists (r :: before), r', rest', e. by rewrite emits_emit.
      * right. exists ks. by rewrite emits_emit.
Qed.

End lookup_facts.

Lemma looked_up_all (recipients : list string) (P : event → Prop) :
  (∀ r, P (FindKeys_ev r false None)) → Forall P (looked_up recipients).
Proof. intros HP. induction recipients; constructor; auto. Qed.

Lemma elem_of_looked_up ev recipients :
  ev ∈ looked_up recipients → ∃ r, ev = FindKeys_ev r false None.
Proof. intros (r & -> & _)%list_elem_of_fmap. by exists r. Qed.

Lemma is_rand_62_is_rand_Int evs : Forall is_rand_62 evs → Forall is_rand_Int evs.
Proof. intros Hf. eapply Forall_impl; [exact Hf|]. by intros ev (r & -> & _). Qed.

Lemma suffixed_ne_name (s rnd x : string) : s +:+ ("." +:+ rnd) +:+ x ≠ s.
Proof. intros E. symmetry in E. by apply name_ne_suffixed in E. Qed.

(** Symbolic execution that keeps the order of the lookups and the shape
    of the random string. *)
Ltac step_more Hrun :=
  lazymatch type of Hrun with
  | ?lhs = _ =>
      let s := head_scrutinee lhs in
      lazymatch s with
      | findRecipients ?r ?a ?o ?k ?w =>
          let before := fresh "before" in let r' := fresh "r" in
          let rest := fresh "rest" in let e := fresh "e" in
          let keys := fresh "keys" in let Hs := fresh "Hstep" in
          let Hr := fresh "Hrecipients" in let Hk := fresh "Hkeys" in
          destruct (findRecipients_trace r a o k w)
            as [(before & r' & rest & e & Hr & Hs)|(keys & Hs & Hk)];
          rewrite Hs in Hrun; clear Hs; wsimpl
      | RandomString ?n ?w =>
          let rnd := fresh "rnd" in let evs := fresh "rands" in
          let Hs := fresh "Hstep" in let Hr := fresh "Hrand" in
          let Ha := fresh "Hrnd" in let Hl := fresh "Hrands" in
          destruct (RandomString_spec n w) as (rnd & evs & Hs & Ha & Hl & Hr);
          apply is_rand_62_is_rand_Int in Hr;
          rewrite Hs in Hrun; clear Hs; wsimpl
      | _ => step Hrun
      end
  end.

(** Lookups in the files after writes, renames and removals. *)
Ltac fs_cases :=
  repeat match goal with
  | H : context [match ?o with Some _ => <[_ := _]> _ | None => _ end] |- _ => destruct o
  | |- context [match ?o with Some _ => <[_ := _]> _ | None => _ end] => destruct o
  end.

Ltac lookup_simpl :=
  repeat first
    [ rewrite lookup_insert_eq in *
    | rewrite lookup_delete_eq in *
    | rewrite lookup_insert_ne in * by apply suffixed_ne_name
    | rewrite lookup_delete_ne in * by apply name_ne_suffixed ].

(** [Hev : ev ∈ l] cannot be. *)
Ltac absurd_event Hev :=
  mem_cases Hev;
  first
    [ discriminate Hev
    | lazymatch type of Hev with
      | _ ∈ looked_up _ => by apply elem_of_looked_up in Hev as (? & [=])
      | _ ∈ ?l =>
          lazymatch goal with
          | Hf : Forall is_FindKeys l |- _ =>
              eapply Forall_forall in Hf; [|exact Hev]; by destruct Hf
          | Hf : Forall is_rand_Int l |- _ =>
              eapply Forall_forall in Hf; [|exact Hev]; by destruct Hf
          | Hf : Forall is_good_Read l |- _ =>
              eapply Forall_forall in Hf; [|exact Hev]; by destruct Hf
          end
      end ].

Ltac cleans_up_case :=
  let Hnew := fresh "Hnew" in
  let Hin := fresh "Hin" in
  unfold cleans_up;
  split; [intros ? Hnew|split; [intros Hnew|split; [intros Hnew|intros Hnew]]];
  [ first [ by absurd_event Hnew
          | intros Hin; by absurd_event Hin ]
  | first [ by absurd_event Hnew
          | eexists; split; [split_tail|]; intros Hin; by absurd_event Hin ]
  | first [ by (destruct Hnew as [Hnew|[? Hnew]]; absurd_event Hnew)
          | eexists _, _; split_tail ]
  | first [ by absurd_event Hnew
          | eexists _, _, _; split_tail ] ].

(** *** [ModRecipients] *)

(** The commit phase with a backup kept under the extension [.bak]. *)
Lemma ModRecipients_commit_witness :
  let w := world_of [("secret.gpg", File (bytes "old ciphertext"))] in
  let run := @ModRecipients (scripted plain_script) 2048 "secret.gpg" ".bak" ["alice"] in
  outcome run w = None ∧
  ∃ rnd keys written before c1 c2,
    calls run w = before ++
      [Encrypt_ev false keys 3072 None written;
       Close_ev dataOut None; Close_ev dataIn None;
       os_Rename_ev "secret.gpg" ("secret.gpg" +:+ ("." +:+ rnd) +:+ ".bak") None;
       os_Rename_ev ("secret.gpg" +:+ ("." +:+ rnd) +:+ ".tmp") "secret.gpg" None;
       Close_ev dataOut c1; Close_ev dataIn c2; Release_ev] ∧
    (∀ out, written = Some out →
       fs (world_after run w) !! "secret.gpg" = Some (File out)).
Proof.
  intros w run.
  assert (Hnil : outcome run w = None) by (by vm_compute).
  split; [exact Hnil|].
  destruct (@ModRecipients_commit (scripted plain_script) 2048 "secret.gpg" ".bak"
              ["alice"] w Hnil)
    as (rnd & keys & written & before & c1 & c2 & Hcalls & _ & _ & Hout).
  exists rnd, keys, written, before, c1, c2. split; [exact Hcalls|].
  apply Hout. discriminate.
Defined.

(** X9.  When [ModRecipients] returns an error, the file it was to change
    is as it was before the call, whatever the step that failed, with one
    exception: when it is the last rename, of the temporary file to the
    name of the file, that fails, the file is no longer there under its
    name; its old content is then under the backup name if a backup
    extension was given, and nowhere if none was given. *)
Theorem ModRecipients_failure `{Outside}
    (operation : Z) (filename backupExtension : string) (recipients : list string)
    (w : World) (e : error) :
  let run := ModRecipients operation filename backupExtension recipients in
  outcome run w = Some e →
  fs (world_after run w) !! filename = fs w !! filename ∨
  (∃ e0 rnd,
     e = Errorf_w "ModRecipients - file rename (2) failed: " e0 ∧
     fs (world_after run w) !! filename = None ∧
     (backupExtension ≠ "" →
      fs (world_after run w) !! (filename +:+ ("." +:+ rnd) +:+ backupExtension)
      = fs w !! filename)).
Proof.
  intros run. subst run.
  unfold calls, world_after, outcome.
  destruct (ModRecipients operation filename backupExtension recipients w)
    as [err w'] eqn:Hrun.
  unfold ModRecipients in Hrun. prims. wsimpl.
  repeat step Hrun; trace; try (intros [=]; fail).
  all: intros [= <-].
  all: try (left; reflexivity).
  all: fs_cases; lookup_simpl; try discriminate; try (left; congruence).
  all: try (left; reflexivity).
  all: right; eexists _, rnd; split; [reflexivity|split; [reflexivity|]].
  all: intros Hbackup; lookup_simpl; try congruence.
  all: apply negb_false_iff, String.eqb_eq in Heqb0; contradiction.
Qed.

(** A recipient nobody knows: the file stays as it is. *)
Lemma ModRecipients_failure_witness :
  let w := world_of [("secret.gpg", File (bytes "old ciphertext"))] in
  let run := @ModRecipients (scripted plain_script) 2048 "secret.gpg" ".bak" ["nobody"] in
  outcome run w
  = Some (Errorf_w "ModRecipients - FindKeys failed: " (Foreign "End of file")) ∧
  fs (world_after run w) !! "secret.gpg" = Some (File (bytes "old ciphertext")).
Proof.
  intros w run.
  assert (Herr : outcome run w
                 = Some (Errorf_w "ModRecipients - FindKeys failed: "
                           (Foreign "End of file"))) by (by vm_compute).
  split; [exact Herr|].
  destruct (@ModRecipients_failure (scripted plain_script) 2048 "secret.gpg" ".bak"
              ["nobody"] w _ Herr) as [Hsame|(e0 & rnd & Hlast & _)].
  - exact Hsame.
  - discriminate Hlast.
Defined.

(** X10.  The only name [ModRecipients] ever gives to its output object is
    the name of the file followed by a dot, eight characters of [charSet]
    drawn by [RandomString], and [.tmp]; it differs from the name of the
    file.  Whatever the run renames, it renames the file to its name with
    the same dot and eight characters and the backup extension, or the
    temporary file to the name of the file. *)
Theorem ModRecipients_temporary_name `{Outside}
    (operation : Z) (filename backupExtension : string) (recipients : list string)
    (w : World) (name : string) (e : option error) :
  let run := ModRecipients operation filename backupExtension recipients in
  SetFileName_ev dataOut name e ∈ calls run w →
  ∃ rnd,
    alphanumeric 8 rnd ∧
    name = filename +:+ ("." +:+ rnd) +:+ ".tmp" ∧
    name ≠ filename ∧
    ∀ oldpath newpath e',
      os_Rename_ev oldpath newpath e' ∈ calls run w →
      (oldpath = filename ∧
       newpath = filename +:+ ("." +:+ rnd) +:+ backupExtension) ∨
      (oldpath = name ∧ newpath = filename).
Proof.
  intros run. subst run.
  unfold calls.
  destruct (ModRecipients operation filename backupExtension recipients w)
    as [err w'] eqn:Hrun.
  unfold ModRecipients in Hrun. prims. wsimpl.
  repeat step_more Hrun; trace; rewrite ?drop_all.
  all: intros Hev; mem_cases Hev; try discriminate Hev.
  all: try (by absurd_event Hev).
  all: injection Hev as -> _.
  all: exists rnd; split; [exact Hrnd|]; split; [reflexivity|].
  all: split; [apply suffixed_ne_name|].
  all: intros oldpath newpath e' Hren; mem_cases Hren; try discriminate Hren.
  all: try (by absurd_event Hren).
  all: injection Hren as -> -> _; first [by left | by right].
Qed.

Lemma ModRecipients_temporary_name_witness :
  ∃ rnd, alphanumeric 8 rnd ∧
         "secret.gpg.ghijklmn.tmp" = "secret.gpg" +:+ ("." +:+ rnd) +:+ ".tmp".
Proof.
  destruct (@ModRecipients_temporary_name (scripted plain_script) 2048 "secret.gpg" ".bak"
              ["alice"] (world_of [("secret.gpg", File (bytes "old ciphertext"))])
              "secret.gpg.ghijklmn.tmp" None) as (rnd & Hrnd & Hname & _).
  - vm_compute. find_ev.
  - by exists rnd.
Defined.

(** X11.  The source must be a file.  When there is nothing under the
    name, [ModRecipients] (with a valid operation) and [DecryptFile] return
    their file-does-not-exist error wrapping the error of [os.Stat]; when
    the name is a directory, they return their file-is-a-directory error,
    whose text ends in [%!w(<nil>)] since the error it is made from is
    [nil].  Either way the [Stat] is the only call they make: the engine is
    not contacted and the files stay as they are. *)
Theorem source_not_a_file `{Outside} (filename : string) (w : World) :
  (fs w !! filename = None →
   (∀ operation backupExtension recipients,
      operation = gpgme_EncryptAddRecp ∨ operation = gpgme_EncryptChgRecp →
      ModRecipients operation filename backupExtension recipients w
      = (Some (Errorf_w "ModRecipients - file does not exist: "
                 (PathError "stat" filename ENOENT)),
         emit (os_Stat_ev filename (Some (PathError "stat" filename ENOENT))) w)) ∧
   (∀ clearFilename,
      let run := DecryptFile filename clearFilename in
      DecryptFile_returns.err (outcome run w)
      = Some (Errorf_w "DecryptFile - file does not exist: "
                (PathError "stat" filename ENOENT)) ∧
      world_after run w
      = emit (os_Stat_ev filename (Some (PathError "stat" filename ENOENT))) w)) ∧
  (fs w !! filename = Some Dir →
   (∀ operation backupExtension recipients,
      operation = gpgme_EncryptAddRecp ∨ operation = gpgme_EncryptChgRecp →
      ∃ e,
        ModRecipients operation filename backupExtension recipients w
        = (Some e, emit (os_Stat_ev filename None) w) ∧
        Error e = "ModRecipients - file is a directory: %!w(<nil>)") ∧
   (∀ clearFilename,
      let run := DecryptFile filename clearFilename in
      ∃ e,
        DecryptFile_returns.err (outcome run w) = Some e ∧
        Error e = "DecryptFile - file is a directory: %!w(<nil>)" ∧
        world_after run w = emit (os_Stat_ev filename None) w)).
Proof.
  split; intros Hfile; split.
  - intros operation backupExtension recipients Hop.
    unfold ModRecipients.
    replace (negb (operation =? gpgme_EncryptAddRecp) &&
             negb (operation =? gpgme_EncryptChgRecp)) with false
      by (destruct Hop as [-> | ->]; rewrite Z.eqb_refl; simpl;
          by rewrite ?andb_false_r).
    unfold bind, os_Stat. by rewrite Hfile.
  - intros clearFilename run. subst run.
    unfold outcome, world_after, DecryptFile, bind, os_Stat. by rewrite Hfile.
  - intros operation backupExtension recipients Hop.
    unfold ModRecipients.
    replace (negb (operation =? gpgme_EncryptAddRecp) &&
             negb (operation =? gpgme_EncryptChgRecp)) with false
      by (destruct Hop as [-> | ->]; rewrite Z.eqb_refl; simpl;
          by rewrite ?andb_false_r).
    unfold bind, os_Stat. rewrite Hfile. simpl. by eexists.
  - intros clearFilename run. subst run.
    unfold outcome, world_after, DecryptFile, bind, os_Stat. rewrite Hfile. simpl.
    by eexists.
Qed.

(** On the desk there is no [missing.gpg]. *)
Lemma source_not_a_file_witness :
  DecryptFile_returns.err
    (outcome (@DecryptFile (scripted plain_script) "missing.gpg" "") desk)
  = Some (Errorf_w "DecryptFile - file does not exist: "
            (PathError "stat" "missing.gpg" ENOENT)).
Proof.
  apply (proj2 (proj1 (@source_not_a_file (scripted plain_script) "missing.gpg" desk)
                  eq_refl) "").
Defined.

(** *** [EncryptFile] *)

(** X12.  [EncryptFile] returns [nil] exactly when the engine's encryption
    answers [nil].  The run is then: the context and the two data objects
    set up, the source and the destination given as their file names,
    every recipient looked up in order (public keys), one call of
    [Encrypt] or [EncryptSign] with always-trust and file flags, then the
    output closed, the input closed and the context released; and the
    files are those before with the destination holding what the engine
    wrote.  An empty list of recipients is not refused: the engine is asked
    to encrypt to no key. *)
Theorem EncryptFile_success `{Outside}
    (sourceFilename destinationFilename : string) (recipients : list string)
    (sign : bool) (w : World) :
  let destination :=
    if String.eqb destinationFilename "" then sourceFilename +:+ ".gpg"
    else destinationFilename in
  let run := EncryptFile sourceFilename destinationFilename recipients sign in
  (outcome run w = None →
   ∃ keys written c1 c2,
     calls run w
     = [New_ev None; SetProtocol_ev gpgme.ProtocolOpenPGP None;
        NewData_ev dataIn None; SetFileName_ev dataIn sourceFilename None;
        NewData_ev dataOut None; SetFileName_ev dataOut destination None]
       ++ looked_up recipients
       ++ [Encrypt_ev sign keys (Z.lor gpgme_EncryptAlwaysTrust gpgme_EncryptFile)
             None written;
           Close_ev dataOut c1; Close_ev dataIn c2; Release_ev] ∧
     fs (world_after run w)
     = match written with
       | Some out => <[destination := File out]> (fs w)
       | None => fs w
       end ∧
     (recipients = [] → keys = [])) ∧
  (∀ sg keys flags written,
     Encrypt_ev sg keys flags None written ∈ calls run w → outcome run w = None).
Proof.
  intros destination run. subst run.
  unfold calls, world_after, outcome.
  destruct (EncryptFile sourceFilename destinationFilename recipients sign w)
    as [err w'] eqn:Hrun.
  unfold EncryptFile in Hrun. prims. wsimpl.
  repeat step_more Hrun; trace.
  all: split;
    [first [ (intros [=]; fail)
           | intros _; eexists _, _, _, _;
             split; [reflexivity|]; split; [reflexivity|]; assumption ]|].
  all: intros sg keys' flags written' Hev; mem_cases Hev; try discriminate Hev.
  all: try (by absurd_event Hev).
  all: reflexivity.
Qed.

Lemma EncryptFile_success_witness :
  let run := @EncryptFile (scripted plain_script) "report.txt" "" ["alice"] false in
  outcome run desk = None ∧
  ∃ keys written c1 c2,
    calls run desk
    = [New_ev None; SetProtocol_ev gpgme.ProtocolOpenPGP None;
       NewData_ev dataIn None; SetFileName_ev dataIn "report.txt" None;
       NewData_ev dataOut None; SetFileName_ev dataOut "report.txt.gpg" None]
      ++ looked_up ["alice"]
      ++ [Encrypt_ev false keys 1025 None written;
          Close_ev dataOut c1; Close_ev dataIn c2; Release_ev].
Proof.
  intros run.
  assert (Hnil : outcome run desk = None) by (by vm_compute).
  split; [exact Hnil|].
  destruct (proj1 (@EncryptFile_success (scripted plain_script) "report.txt" ""
                     ["alice"] false desk) Hnil)
    as (keys & written & c1 & c2 & Hcalls & _).
  by exists keys, written, c1, c2.
Defined.

(** X13.  A recipient the engine does not know stops [EncryptFile] before
    anything is encrypted: the recipients before it have been looked up,
    in order, those after it are not looked up, the engine is not asked to
    encrypt, the files are as before, and the error returned is the
    [FindKeys] error wrapping the engine's; the data objects are closed and
    the context released. *)
Theorem EncryptFile_unknown_recipient `{Outside}
    (sourceFilename destinationFilename : string) (recipients : list string)
    (sign : bool) (w : World) (r : string) (e : error) :
  let destination :=
    if String.eqb destinationFilename "" then sourceFilename +:+ ".gpg"
    else destinationFilename in
  let run := EncryptFile sourceFilename destinationFilename recipients sign in
  FindKeys_ev r false (Some e) ∈ calls run w →
  outcome run w = Some (Errorf_w "EncryptFile - FindKeys (out) failed: " e) ∧
  fs (world_after run w) = fs w ∧
  Forall (λ ev, is_Encrypt ev = false) (calls run w) ∧
  ∃ before rest c1 c2,
    recipients = before ++ r :: rest ∧
    calls run w
    = [New_ev None; SetProtocol_ev gpgme.ProtocolOpenPGP None;
       NewData_ev dataIn None; SetFileName_ev dataIn sourceFilename None;
       NewData_ev dataOut None; SetFileName_ev dataOut destination None]
      ++ looked_up before
      ++ [FindKeys_ev r false (Some e);
          Close_ev dataOut c1; Close_ev dataIn c2; Release_ev].
Proof.
  intros destination run. subst run.
  unfold calls, world_after, outcome.
  destruct (EncryptFile sourceFilename destinationFilename recipients sign w)
    as [err w'] eqn:Hrun.
  unfold EncryptFile in Hrun. prims. wsimpl.
  repeat step_more Hrun; trace.
  all: intros Hev; mem_cases Hev; try discriminate Hev.
  all: try (by absurd_event Hev).
  injection Hev as -> ->.
  split; [done|]. split; [done|]. split.
  - repeat first [apply Forall_nil_2 | apply Forall_cons_2; [reflexivity|]
                 | apply Forall_app_2 | by apply looked_up_all ].
  - eexists before, rest, _, _. split; [done|]. reflexivity.
Qed.

(** Alice is looked up, nobody is not found, Bob is not looked up. *)
Lemma EncryptFile_unknown_recipient_witness :
  let run := @EncryptFile (scripted plain_script) "report.txt" ""
               ["alice"; "nobody"; "bob"] false in
  outcome run desk
  = Some (Errorf_w "EncryptFile - FindKeys (out) failed: " (Foreign "End of file")) ∧
  fs (world_after run desk) = fs desk.
Proof.
  intros run.
  destruct (@EncryptFile_unknown_recipient (scripted plain_script) "report.txt" ""
              ["alice"; "nobody"; "bob"] false desk "nobody" (Foreign "End of file"))
    as (Herr & Hfs & _).
  - vm_compute. find_ev.
  - by split.
Defined.

(** *** [DecryptFile] *)

(** X14.  [DecryptFile] changes no file that exists: every path that named
    something before the call names the same thing after it, so neither
    the source nor any other file is overwritten or removed.  The only
    change it ever makes is through the engine's decryption, which writes
    the destination, a path that named nothing before; what the engine
    wrote stays there also when the decryption, or a later step, fails.
    Without such a write the files are exactly as before. *)
Theorem DecryptFile_creates_only_destination `{Outside}
    (cypherFilename clearFilename : string) (w : World) :
  let run := DecryptFile cypherFilename clearFilename in
  (∀ path n, fs w !! path = Some n → fs (world_after run w) !! path = Some n) ∧
  (∀ e out, DecryptVerify_ev e (Some out) ∈ calls run w →
     ∃ destination,
       DecryptFile_destination cypherFilename clearFilename = Some destination ∧
       fs w !! destination = None ∧
       fs (world_after run w) = <[destination := File out]> (fs w)) ∧
  ((∀ e out, DecryptVerify_ev e (Some out) ∉ calls run w) →
   fs (world_after run w) = fs w).
Proof.
  intros run. subst run.
  unfold calls, world_after, outcome.
  destruct (DecryptFile cypherFilename clearFilename w) as [r w'] eqn:Hrun.
  unfold DecryptFile, DecryptFile_fail, DecryptFile_results, DecryptFile_return in Hrun.
  prims. wsimpl.
  repeat step Hrun; trace.
  all: split; [|split].
  all: lazymatch goal with
       | |- ∀ path n, _ !! path = Some n → _ =>
           intros path n' Hpath; fs_cases;
           first [done | rewrite lookup_insert_ne; [done|intros <-; congruence]]
       | |- ∀ e out, _ ∈ _ → _ =>
           intros e' out Hev; mem_cases Hev;
           first [ discriminate Hev
                 | injection Hev as -> <-;
                   eexists; split; [reflexivity|]; split; [assumption|reflexivity] ]
       | |- (∀ e out, _ ∉ _) → _ =>
           intros Hno; fs_cases; try reflexivity; exfalso;
           eapply Hno; find_ev
       end.
Qed.

(** X15.  When [DecryptFile] returns a [nil] error, the run was: the source
    stated and found to be a file, the engine set up, the destination
    (explicit or inferred) stated and found missing, one call of
    decrypt-and-verify, both results retrieved, the output closed, the
    input closed, the context released.  The decrypt-and-verify call
    answered [nil], the warning being empty, or it answered an error whose
    text is ["No data"], the warning saying so: a [nil] error alone does
    not tell that anything was decrypted. *)
Theorem DecryptFile_success `{Outside}
    (cypherFilename clearFilename : string) (w : World) :
  let run := DecryptFile cypherFilename clearFilename in
  DecryptFile_returns.err (outcome run w) = None →
  ∃ content destination e written c1 c2,
    fs w !! cypherFilename = Some (File content) ∧
    DecryptFile_destination cypherFilename clearFilename = Some destination ∧
    fs w !! destination = None ∧
    calls run w
    = [os_Stat_ev cypherFilename None; New_ev None;
       SetProtocol_ev gpgme.ProtocolOpenPGP None;
       NewData_ev dataIn None; SetFileName_ev dataIn cypherFilename None;
       NewData_ev dataOut None;
       os_Stat_ev destination (Some (PathError "stat" destination ENOENT));
       SetFileName_ev dataOut destination None;
       DecryptVerify_ev e written; DecryptResult_ev None; VerifyResult_ev None;
       Close_ev dataOut c1; Close_ev dataIn c2; Release_ev] ∧
    match e with
    | None => DecryptFile_returns.warning (outcome run w) = ""
    | Some e' =>
        Error e' = "No data" ∧
        DecryptFile_returns.warning (outcome run w)
        = "DecryptFile - DecryptVerify: no encrypted data"
    end.
Proof.
  intros run. subst run.
  unfold calls, world_after, outcome.
  destruct (DecryptFile cypherFilename clearFilename w) as [r w'] eqn:Hrun.
  unfold DecryptFile, DecryptFile_fail, DecryptFile_results, DecryptFile_return in Hrun.
  prims. wsimpl.
  repeat step Hrun; trace; returns_simpl; try (intros [=]; fail).
  all: intros _; eexists _, _, _, _, _, _.
  all: split; [reflexivity|]; split; [reflexivity|]; split; [assumption|].
  all: split; [reflexivity|].
  - split; [|reflexivity]. by apply String.eqb_eq.
  - reflexivity.
Qed.

(** The notes that hold no OpenPGP data are "decrypted" without error. *)
Lemma DecryptFile_success_witness :
  let w := world_of [("notes.asc", File (bytes "just notes"))] in
  let run := @DecryptFile (scripted no_data_script) "notes.asc" "" in
  DecryptFile_returns.err (outcome run w) = None ∧
  ∃ e written,
    DecryptVerify_ev (Some e) written ∈ calls run w ∧ Error e = "No data".
Proof.
  intros w run.
  assert (Hnil : DecryptFile_returns.err (outcome run w) = None) by (by vm_compute).
  split; [exact Hnil|].
  destruct (@DecryptFile_success (scripted no_data_script) "notes.asc" "" w Hnil)
    as (content & destination & e & written & c1 & c2 & _ & _ & _ & Hcalls & Hwarn).
  destruct e as [e|].
  - exists e, written. split; [|exact (proj1 Hwarn)].
    unfold run in *. rewrite Hcalls. find_ev.
  - exfalso. clear -Hcalls. vm_compute in Hcalls. discriminate Hcalls.
Defined.

(** *** Cleaning up *)

(** X16.  Every run of [ModRecipients], of [EncryptFile] and of
    [DecryptFile] ends with what its [defer] statements owe, whatever step
    fails: a context that was created is released, once and last; a data
    object that was created is closed, the output before the input; a
    context that could not be created is not released. *)
Theorem encrypt_go_cleans_up `{Outside} :
  (∀ operation filename backupExtension recipients w,
     cleans_up (calls (ModRecipients operation filename backupExtension recipients) w)) ∧
  (∀ sourceFilename destinationFilename recipients sign w,
     cleans_up (calls (EncryptFile sourceFilename destinationFilename recipients sign) w)) ∧
  (∀ cypherFilename clearFilename w,
     cleans_up (calls (DecryptFile cypherFilename clearFilename) w)).
Proof.
  split; [|split].
  - intros operation filename backupExtension recipients w.
    unfold calls.
    destruct (ModRecipients operation filename backupExtension recipients w)
      as [err w'] eqn:Hrun.
    unfold ModRecipients in Hrun. prims. wsimpl.
    repeat step Hrun; trace; rewrite ?drop_all.
    all: cleans_up_case.
  - intros sourceFilename destinationFilename recipients sign w.
    unfold calls.
    destruct (EncryptFile sourceFilename destinationFilename recipients sign w)
      as [err w'] eqn:Hrun.
    unfold EncryptFile in Hrun. prims. wsimpl.
    repeat step Hrun; trace.
    all: cleans_up_case.
  - intros cypherFilename clearFilename w.
    unfold calls.
    destruct (DecryptFile cypherFilename clearFilename w) as [r w'] eqn:Hrun.
    unfold DecryptFile, DecryptFile_fail, DecryptFile_results, DecryptFile_return in Hrun.
    prims. wsimpl.
    repeat step Hrun; trace.
    all: cleans_up_case.
Qed.

(** ** signatures.go, continued *)

(** X17.  Every run of [SignBytes] and of [VerifyBytes] that returns ends
    with what its [defer] statements owe, whatever step fails: a context
    that was created is released, once and last; a data object that was
    created is closed, the output before the input; a context that could
    not be created is not released. *)
Theorem signatures_go_cleans_up `{Outside} :
  (∀ fuel plainText signWith armored w r w',
     SignBytes fuel plainText signWith armored w = Some (r, w') →
     cleans_up (new_events w w')) ∧
  (∀ fuel cipherText w r w',
     VerifyBytes fuel cipherText w = Some (r, w') →
     cleans_up (new_events w w')).
Proof.
  split.
  - intros fuel plainText signWith armored w r w' Hrun.
    unfold SignBytes, SignBytes_return in Hrun. prims. wsimpl.
    repeat step Hrun.
    all: try lazymatch goal with
         | Hl : SignBytes_read _ _ _ _ = Some _ |- _ =>
             apply SignBytes_read_run in Hl
               as (evs & b & last & -> & Hevs & Hfps & Hn & Hres)
         end.
    all: trace.
    all: cleans_up_case.
  - intros fuel cipherText w r w' Hrun.
    unfold VerifyBytes, VerifyBytes_return in Hrun. prims. wsimpl.
    repeat step Hrun.
    all: try lazymatch goal with
         | Hl : VerifyBytes_read _ _ _ _ _ = Some _ |- _ =>
             apply VerifyBytes_read_run in Hl
               as (evs & b & last & -> & Hevs & Hsigs & Hname & Hres)
         end.
    all: trace.
    all: cleans_up_case.
Qed.

(** X18.  In [VerifyBytes] too a read that fails with an error other than
    [io.EOF] is fatal.  When every call before the loop succeeds and the
    stream hands out [k] chunks before a read fails, [VerifyBytes] returns
    (any fuel above [k] is enough): it returns that error wrapped, and here
    too the text accumulated from the [k] reads before it is returned with
    the error, not dropped; the bytes of the failed read are not appended.
    Seen from the calls of a run: a run that returned after such a read
    returned just that. *)
Theorem VerifyBytes_read_error `{Outside} :
  (∀ cipherText verified w w6 k e fuel,
     VerifyBytes_reaches_loop cipherText verified w w6 →
     drain_fails k e w6 → e ≠ io_EOF → (k < fuel)%nat →
     ∃ r w' b,
       VerifyBytes fuel cipherText w = Some (r, w') ∧
       Read_ev dataOut b (Some e) ∈ new_events w w' ∧
       VerifyBytes_returns.err r = Some (Errorf_w "VerifyBytes - Read failed: " e) ∧
       VerifyBytes_returns.plainText r = drained k w6 ∧
       VerifyBytes_returns.plainText r = chunks_read (new_events w w')) ∧
  (∀ fuel cipherText w r w' b e,
     VerifyBytes fuel cipherText w = Some (r, w') →
     Read_ev dataOut b (Some e) ∈ new_events w w' →
     e ≠ io_EOF →
     VerifyBytes_returns.err r = Some (Errorf_w "VerifyBytes - Read failed: " e) ∧
     VerifyBytes_returns.plainText r = chunks_read (new_events w w')).
Proof.
  split.
  - intros cipherText [fname sigs] w w6 k e fuel
      (HNew & HSetProtocol & HNewDataBytes & HNewData & HVerify & HRewind & ->)
      Hdrain He Hfuel.
    unfold VerifyBytes, VerifyBytes_return. prims. wsimpl.
    answered HNew. answered HSetProtocol. answered HNewDataBytes. answered HNewData.
    answered HVerify. answered HRewind.
    match goal with |- context [VerifyBytes_read fuel ?acc ?s ?f ?w6] =>
      destruct (VerifyBytes_read_fails k e w6 acc s f fuel Hdrain He Hfuel)
        as (r & evs & b & -> & Hevs & Hchunks & Herr & Htext & Hsigs & Hname) end.
    eexists r, _, b. split; [reflexivity|]. trace.
    split; [find_ev|]. split; [done|]. split; [done|].
    rewrite Htext. cbn [chunks_read]. rewrite chunks_read_app, Hchunks.
    cbn [chunks_read app]. by rewrite app_nil_r.
  - intros fuel cipherText w r w' b e Hrun Hev He.
    apply VerifyBytes_run in Hrun
      as [(prefix & e0 & _ & _ & Hno & _)
         |(evs & b0 & last & c1 & c2 & Htrace & Hevs & Hres)].
    + eapply Forall_forall in Hno; [|exact Hev]. done.
    + rewrite Htrace in Hev |- *. mem_cases Hev; try discriminate Hev.
      * by apply chunks_read_good in Hev.
      * injection Hev as -> <-.
        destruct Hres as [([= ->] & _)|(e' & [= <-] & _ & Herr & Htext)]; [done|].
        split; [done|].
        rewrite !chunks_read_app. simpl. by rewrite app_nil_r.
Qed.

Lemma VerifyBytes_read_error_witness :
  ∃ r w' b,
    @VerifyBytes (scripted broken_read_script) 2 (bytes "signed") (world_of [])
    = Some (r, w') ∧
    Read_ev dataOut b (Some (Foreign "I/O error")) ∈ new_events (world_of []) w' ∧
    VerifyBytes_returns.err r
    = Some (Errorf_w "VerifyBytes - Read failed: " (Foreign "I/O error")) ∧
    VerifyBytes_returns.plainText r = bytes "-----BEGIN" ∧
    VerifyBytes_returns.plainText r = chunks_read (new_events (world_of []) w').
Proof.
  eassert (Hloop : @VerifyBytes_reaches_loop (scripted broken_read_script)
                     (bytes "signed") ("", ["good signature"]) (world_of []) _).
  { unfold VerifyBytes_reaches_loop. repeat split; reflexivity. }
  edestruct (proj1 (@VerifyBytes_read_error (scripted broken_read_script))
               _ _ _ _ 1%nat (Foreign "I/O error") 2%nat Hloop)
    as (r & w' & b & Hrun & Hev & Herr & Htext & Hchunks).
  - simpl. repeat split; reflexivity.
  - discriminate.
  - lia.
  - exists r, w', b. repeat split; assumption.
Defined.

(** X19.  When [SignBytes] returns [io.EOF], the run was: every call before
    the loop answered [nil], then reads that answered [nil], then one read
    that answered [io.EOF], then the closes and the release.  The text
    returned is what the reads handed out, in order, the bytes that came
    with the [io.EOF] included.  The count [n] returned is the length of
    the last read alone, not of the text; and the fingerprints returned are
    those of the keys the signature was made with. *)
Theorem SignBytes_output `{Outside}
    (fuel : nat) (plainText : list byte) (signWith : string) (armored : bool)
    (w : World) (r : SignBytes_returns.t) (w' : World) :
  SignBytes fuel plainText signWith armored w = Some (r, w') →
  SignBytes_returns.err r = Some io_EOF →
  ∃ keys evs b c1 c2,
    new_events w w' =
      [New_ev None; SetProtocol_ev gpgme.ProtocolOpenPGP None; SetArmor_ev armored;
       NewDataBytes_ev dataIn plainText None; NewData_ev dataOut None;
       FindKeys_ev signWith true None; Sign_ev keys None; Rewind_ev dataOut None]
      ++ evs ++
      [Read_ev dataOut b (Some io_EOF);
       Close_ev dataOut c1; Close_ev dataIn c2; Release_ev] ∧
    Forall is_good_Read evs ∧
    SignBytes_returns.cipherText r = chunks_read evs ++ b ∧
    SignBytes_returns.n r = length b ∧
    SignBytes_returns.signingFingerPrints r = map gpgme.Key.Fingerprint keys.
Proof.
  intros Hrun Heof. unfold SignBytes, SignBytes_return in Hrun. prims. wsimpl.
  repeat step Hrun.
  all: try lazymatch goal with
       | Hl : SignBytes_read _ _ _ _ = Some _ |- _ =>
           apply SignBytes_read_run in Hl
             as (evs & b & last & -> & Hevs & Hfps & Hn & Hres)
       end.
  all: trace; cbn [SignBytes_returns.err] in Heof; try discriminate Heof.
  destruct Hres as [(-> & _ & Htext)|(e & _ & _ & Herr & _)]; [|congruence].
  eexists _, evs, b, _, _. split; [reflexivity|]. by repeat split.
Qed.

(** Nineteen bytes of signature come in two reads; the third read brings
    the end of the stream and no byte, and [n] is 0. *)
Lemma SignBytes_output_witness :
  ∃ r w',
    @SignBytes (scripted plain_script) 3 (bytes "hello") "alice" true (world_of [])
    = Some (r, w') ∧
    SignBytes_returns.err r = Some io_EOF ∧
    ∃ keys evs b,
      SignBytes_returns.cipherText r = chunks_read evs ++ b ∧
      SignBytes_returns.n r = length b ∧
      SignBytes_returns.signingFingerPrints r = map gpgme.Key.Fingerprint keys.
Proof.
  destruct (@SignBytes (scripted plain_script) 3 (bytes "hello") "alice" true
              (world_of [])) as [[r w']|] eqn:Hrun;
    [|vm_compute in Hrun; discriminate Hrun].
  assert (Heof : SignBytes_returns.err r = Some io_EOF).
  { clear -Hrun. vm_compute in Hrun. by injection Hrun as <- _. }
  exists r, w'. split; [reflexivity|]. split; [exact Heof|].
  destruct (@SignBytes_output (scripted plain_script) _ _ _ _ _ r w' Hrun Heof)
    as (keys & evs & b & c1 & c2 & _ & _ & Htext & Hn & Hfps).
  by exists keys, evs, b.
Defined.

(** X20.  When [VerifyBytes] returns [io.EOF], the run was: every call
    before the loop answered [nil], then reads that answered [nil], then
    one read that answered [io.EOF], then the closes and the release; and
    the text returned is what the reads handed out, in order, the bytes
    that came with the [io.EOF] included. *)
Theorem VerifyBytes_output `{Outside}
    (fuel : nat) (cipherText : list byte)
    (w : World) (r : VerifyBytes_returns.t gpgme_SignatureType) (w' : World) :
  VerifyBytes fuel cipherText w = Some (r, w') →
  VerifyBytes_returns.err r = Some io_EOF →
  ∃ evs b c1 c2,
    new_events w w' =
      [New_ev None; SetProtocol_ev gpgme.ProtocolOpenPGP None;
       NewDataBytes_ev dataIn cipherText None; NewData_ev dataOut None;
       Verify_ev None; Rewind_ev dataOut None]
      ++ evs ++
      [Read_ev dataOut b (Some io_EOF);
       Close_ev dataOut c1; Close_ev dataIn c2; Release_ev] ∧
    Forall is_good_Read evs ∧
    VerifyBytes_returns.plainText r = chunks_read evs ++ b.
Proof.
  intros Hrun Heof.
  apply VerifyBytes_run in Hrun
    as [(prefix & e0 & Herr & _)
       |(evs & b0 & last & c1 & c2 & Htrace & Hevs & Hres)]; [congruence|].
  destruct Hres as [(-> & _ & Htext)|(e & _ & _ & Herr & _)]; [|congruence].
  by exists evs, b0, c1, c2.
Qed.

Lemma VerifyBytes_output_witness :
  ∃ r w',
    @VerifyBytes (scripted plain_script) 3 (bytes "signed") (world_of [])
    = Some (r, w') ∧
    VerifyBytes_returns.err r = Some io_EOF ∧
    ∃ evs b, VerifyBytes_returns.plainText r = chunks_read evs ++ b.
Proof.
  destruct (@VerifyBytes (scripted plain_script) 3 (bytes "signed") (world_of []))
    as [[r w']|] eqn:Hrun; [|vm_compute in Hrun; discriminate Hrun].
  assert (Heof : VerifyBytes_returns.err r = Some io_EOF).
  { clear -Hrun. vm_compute in Hrun. by injection Hrun as <- _. }
  exists r, w'. split; [reflexivity|]. split; [exact Heof|].
  destruct (@VerifyBytes_output (scripted plain_script) _ _ _ r w' Hrun Heof)
    as (evs & b & c1 & c2 & _ & _ & Htext).
  by exists evs, b.
Defined.

(** X21.  The signer of [SignBytes].  When the calls before succeed and the
    engine finds no key for [signWith] (secret keys are asked for),
    [SignBytes] returns, whatever the fuel: it returns its [FindKeys] error
    wrapping the engine's, with no fingerprint and no text, and the engine
    is not asked to sign.  When keys are found, the engine is asked to sign
    with all of them, and whichever way the call goes on it returns their
    fingerprints: when the signing fails (the error is then the one the
    package words ["SignBytes - Encrypt failed: "], the text is empty and
    nothing is read), when the rewind fails, and when the output is
    drained to its end or to a read that fails.  Seen from the calls of a
    run that returned: the same. *)
Theorem SignBytes_signer `{Outside} :
  (∀ fuel plainText signWith armored w w5 e,
     SignBytes_set_up plainText armored w w5 →
     on_FindKeys w5 signWith true = inl e →
     ∃ r w',
       SignBytes fuel plainText signWith armored w = Some (r, w') ∧
       SignBytes_returns.err r
       = Some (Errorf_w "SignBytes - FindKeys (out) failed: " e) ∧
       SignBytes_returns.signingFingerPrints r = [] ∧
       SignBytes_returns.cipherText r = [] ∧
       Forall (λ ev, is_Sign ev = false) (new_events w w')) ∧
  (∀ fuel plainText signWith armored w w5 keys e,
     SignBytes_set_up plainText armored w w5 →
     on_FindKeys w5 signWith true = inr keys →
     on_Sign (emit (FindKeys_ev signWith true None) w5) keys = Some e →
     ∃ r w',
       SignBytes fuel plainText signWith armored w = Some (r, w') ∧
       Sign_ev keys (Some e) ∈ new_events w w' ∧
       SignBytes_returns.err r = Some (Errorf_w "SignBytes - Encrypt failed: " e) ∧
       SignBytes_returns.signingFingerPrints r = map gpgme.Key.Fingerprint keys ∧
       SignBytes_returns.cipherText r = [] ∧
       Forall (λ ev, is_Read ev = false) (new_events w w')) ∧
  (∀ fuel plainText signWith armored w w5 keys e,
     SignBytes_set_up plainText armored w w5 →
     on_FindKeys w5 signWith true = inr keys →
     on_Sign (emit (FindKeys_ev signWith true None) w5) keys = None →
     on_Rewind (emit (Sign_ev keys None) (emit (FindKeys_ev signWith true None) w5))
       dataOut = Some e →
     ∃ r w',
       SignBytes fuel plainText signWith armored w = Some (r, w') ∧
       SignBytes_returns.err r = Some (Errorf_w "SignBytes - Rewind failed: " e) ∧
       SignBytes_returns.signingFingerPrints r = map gpgme.Key.Fingerprint keys) ∧
  (∀ fuel plainText signWith armored keys w w8 k,
     SignBytes_reaches_loop plainText signWith armored keys w w8 →
     drain_ends k w8 ∨ (∃ e, e ≠ io_EOF ∧ drain_fails k e w8) →
     (k < fuel)%nat →
     ∃ r w',
       SignBytes fuel plainText signWith armored w = Some (r, w') ∧
       SignBytes_returns.signingFingerPrints r = map gpgme.Key.Fingerprint keys) ∧
  (∀ fuel plainText signWith armored w r w',
     SignBytes fuel plainText signWith armored w = Some (r, w') →
     (∀ e, FindKeys_ev signWith true (Some e) ∈ new_events w w' →
        SignBytes_returns.err r
        = Some (Errorf_w "SignBytes - FindKeys (out) failed: " e) ∧
        SignBytes_returns.signingFingerPrints r = [] ∧
        SignBytes_returns.cipherText r = [] ∧
        Forall (λ ev, is_Sign ev = false) (new_events w w')) ∧
     (∀ keys e, Sign_ev keys e ∈ new_events w w' →
        SignBytes_returns.signingFingerPrints r = map gpgme.Key.Fingerprint keys ∧
        (∀ e', e = Some e' →
           SignBytes_returns.err r = Some (Errorf_w "SignBytes - Encrypt failed: " e') ∧
           SignBytes_returns.cipherText r = [] ∧
           Forall (λ ev, is_Read ev = false) (new_events w w')))).
Proof.
  split; [|split; [|split; [|split]]].
  - intros fuel plainText signWith armored w w5 e
      (HNew & HSetProtocol & HNewDataBytes & HNewData & ->) HFindKeys.
    unfold SignBytes, SignBytes_return. prims. wsimpl.
    answered HNew. answered HSetProtocol. answered HNewDataBytes. answered HNewData.
    answered HFindKeys.
    eexists _, _. split; [reflexivity|]. trace.
    do 3 (split; [done|]). none_is.
  - intros fuel plainText signWith armored w w5 keys e
      (HNew & HSetProtocol & HNewDataBytes & HNewData & ->) HFindKeys HSign.
    unfold SignBytes, SignBytes_return. prims. wsimpl.
    answered HNew. answered HSetProtocol. answered HNewDataBytes. answered HNewData.
    answered HFindKeys. answered HSign.
    eexists _, _. split; [reflexivity|]. trace.
    split; [find_ev|]. do 3 (split; [done|]). none_is.
  - intros fuel plainText signWith armored w w5 keys e
      (HNew & HSetProtocol & HNewDataBytes & HNewData & ->) HFindKeys HSign HRewind.
    unfold SignBytes, SignBytes_return. prims. wsimpl.
    answered HNew. answered HSetProtocol. answered HNewDataBytes. answered HNewData.
    answered HFindKeys. answered HSign. answered HRewind.
    eexists _, _. split; [reflexivity|]. by split.
  - intros fuel plainText signWith armored keys w w8 k
      (HNew & HSetProtocol & HNewDataBytes & HNewData & HFindKeys & HSign & HRewind & ->)
      Hdrain Hfuel.
    unfold SignBytes, SignBytes_return. prims. wsimpl.
    answered HNew. answered HSetProtocol. answered HNewDataBytes. answered HNewData.
    answered HFindKeys. answered HSign. answered HRewind.
    destruct Hdrain as [Hends|(e & He & Hfails)].
    + match goal with |- context [SignBytes_read fuel ?acc ?fps ?w8] =>
        destruct (SignBytes_read_ends k w8 acc fps fuel Hends Hfuel)
          as (r & w' & -> & _ & Hfps) end.
      by eexists _, _.
    + match goal with |- context [SignBytes_read fuel ?acc ?fps ?w8] =>
        destruct (SignBytes_read_fails k e w8 acc fps fuel Hfails He Hfuel)
          as (r & evs & b & -> & _ & _ & _ & _ & _ & Hfps) end.
      by eexists _, _.
  - intros fuel plainText signWith armored w r w' Hrun.
    unfold SignBytes, SignBytes_return in Hrun. prims. wsimpl.
    repeat step Hrun.
    all: try lazymatch goal with
         | Hl : SignBytes_read _ _ _ _ = Some _ |- _ =>
             apply SignBytes_read_run in Hl
               as (evs & b & last & -> & Hevs & Hfps & Hn & Hres)
         end.
    all: trace; cbn [SignBytes_returns.err SignBytes_returns.cipherText
                     SignBytes_returns.signingFingerPrints].
    all: split; [intros e' Hev|intros keys' e' Hev]; mem_cases Hev; try discriminate Hev.
    all: try (eapply Forall_forall in Hevs; [|exact Hev]; by destruct Hevs).
    all: first
      [ injection Hev as <-; do 3 (split; [done|]); none_is
      | injection Hev as -> ->; split; [done|]; intros e2 [= <-];
        do 2 (split; [done|]); none_is
      | injection Hev as -> ->; split; [done|]; by intros e2 [=] ].
Qed.

(** Nobody has no secret key. *)
Lemma SignBytes_signer_witness :
  ∃ r w',
    @SignBytes (scripted plain_script) 3 (bytes "hello") "nobody" true (world_of [])
    = Some (r, w') ∧
    SignBytes_returns.err r
    = Some (Errorf_w "SignBytes - FindKeys (out) failed: " (Foreign "End of file")) ∧
    SignBytes_returns.signingFingerPrints r = [] ∧
    SignBytes_returns.cipherText r = [] ∧
    Forall (λ ev, is_Sign ev = false) (new_events (world_of []) w').
Proof.
  eapply (proj1 (@SignBytes_signer (scripted plain_script))
            3%nat (bytes "hello") "nobody" true (world_of []) _ (Foreign "End of file")).
  - unfold SignBytes_set_up. repeat split; reflexivity.
  - reflexivity.
Defined.

Section endless_facts.
Context `{Outside}.

Lemma SignBytes_read_endless fuel acc fps w :
  (∀ w0, snd (on_Read w0 dataOut chunkSize) = None) →
  SignBytes_read fuel acc fps w = None.
Proof.
  intros Hread. revert acc w. induction fuel as [|fuel IH]; intros acc w; [done|].
  simpl. unfold bind, Data_Read.
  specialize (Hread w). destruct (on_Read w dataOut chunkSize) as [b last].
  simpl in Hread. subst last. simpl. apply IH.
Qed.

Lemma VerifyBytes_read_endless fuel acc sigs fname w :
  (∀ w0, snd (on_Read w0 dataOut chunkSize) = None) →
  VerifyBytes_read fuel acc sigs fname w = None.
Proof.
  intros Hread. revert acc w. induction fuel as [|fuel IH]; intros acc w; [done|].
  simpl. unfold bind, Data_Read.
  specialize (Hread w). destruct (on_Read w dataOut chunkSize) as [b last].
  simpl in Hread. subst last. simpl. apply IH.
Qed.

End endless_facts.

(** X22.  The loops that drain the output have no bound of their own.  With
    an engine whose reads of the output never answer an error, neither
    [io.EOF] nor another one, a call of [SignBytes] or of [VerifyBytes]
    that gets as far as its loop does not return: whatever the fuel, the
    loop has not ended when the fuel is used up. *)
Theorem drain_has_no_bound `{Outside} :
  (∀ w0, snd (on_Read w0 dataOut chunkSize) = None) →
  (∀ fuel plainText signWith armored keys w w8,
     SignBytes_reaches_loop plainText signWith armored keys w w8 →
     SignBytes fuel plainText signWith armored w = None) ∧
  (∀ fuel cipherText verified w w6,
     VerifyBytes_reaches_loop cipherText verified w w6 →
     VerifyBytes fuel cipherText w = None).
Proof.
  intros Hread. split.
  - intros fuel plainText signWith armored keys w w8
      (HNew & HSetProtocol & HNewDataBytes & HNewData & HFindKeys & HSign & HRewind & ->).
    unfold SignBytes, SignBytes_return. prims. wsimpl.
    rewrite HNew. wsimpl. rewrite HSetProtocol. wsimpl.
    rewrite HNewDataBytes. wsimpl. rewrite HNewData. wsimpl.
    rewrite HFindKeys. wsimpl. cbn [app]. rewrite HSign. wsimpl.
    rewrite HRewind. wsimpl.
    by rewrite SignBytes_read_endless.
  - intros fuel cipherText [fname sigs] w w6
      (HNew & HSetProtocol & HNewDataBytes & HNewData & HVerify & HRewind & ->).
    unfold VerifyBytes, VerifyBytes_return. prims. wsimpl.
    rewrite HNew. wsimpl. rewrite HSetProtocol. wsimpl.
    rewrite HNewDataBytes. wsimpl. rewrite HNewData. wsimpl.
    rewrite HVerify. wsimpl. rewrite HRewind. wsimpl.
    by rewrite VerifyBytes_read_endless.
Qed.

Lemma drain_has_no_bound_witness :
  @SignBytes endless 1000 (bytes "hello") "alice" true (world_of []) = None.
Proof.
  eapply (proj1 (@drain_has_no_bound endless (λ w0, eq_refl))
            1000%nat (bytes "hello") "alice" true [alice_key] (world_of [])).
  unfold SignBytes_reaches_loop. repeat split; reflexivity.
Defined.

(** *** Text as lines *)

Lemma list_byte_of_string_app (s t : string) :
  list_byte_of_string (s +:+ t) = list_byte_of_string s ++ list_byte_of_string t.
Proof.
  unfold list_byte_of_string.
  induction s as [|a s IH]; [done|].
  change (String a s +:+ t) with (String a (s +:+ t)). simpl. by rewrite IH.
Qed.

Lemma lines_bytes_snoc (lines : list string) (line : string) :
  lines_bytes (lines ++ [line]) = lines_bytes lines ++ list_byte_of_string line ++ [LF].
Proof.
  unfold lines_bytes. rewrite map_app, concat_app. cbn [map concat].
  by rewrite app_nil_r.
Qed.

Lemma TextArrayToBytes_from (text : list string) (result : list byte) :
  fold_left (λ result line, result ++ list_byte_of_string (line +:+ LF_string)) text result
  = result ++ lines_bytes text.
Proof.
  revert result. induction text as [|line text IH]; intros result; simpl.
  - by rewrite app_nil_r.
  - rewrite IH, list_byte_of_string_app.
    change (list_byte_of_string LF_string) with [LF].
    unfold lines_bytes. simpl. by rewrite <- !app_assoc.
Qed.

Lemma TextArrayToBytes_lines (text : list string) :
  TextArrayToBytes text = lines_bytes text.
Proof. unfold TextArrayToBytes. by rewrite TextArrayToBytes_from. Qed.

Lemma Byte_eqb_LF (b : byte) : Byte.eqb b LF = true ↔ b = LF.
Proof. split; [apply byte_dec_bl|apply byte_dec_lb]. Qed.

Lemma BytesToTextArray_loop_line (d rest : list byte) lines cur :
  LF ∉ d →
  BytesToTextArray_loop (d ++ LF :: rest) lines cur
  = BytesToTextArray_loop rest (lines ++ [string_of_list_byte (cur ++ d)]) [].
Proof.
  revert cur. induction d as [|b d IH]; intros cur Hd; simpl.
  - by rewrite app_nil_r.
  - apply not_elem_of_cons in Hd as [Hb Hd].
    destruct (Byte.eqb b LF) eqn:E.
    + apply Byte_eqb_LF in E. congruence.
    + rewrite IH by done. by rewrite <- app_assoc.
Qed.

Lemma BytesToTextArray_loop_lines (text : list string) lines :
  Forall single_line text →
  BytesToTextArray_loop (lines_bytes text) lines [] = (lines ++ text, []).
Proof.
  revert lines. induction text as [|line text IH]; intros lines Htext.
  - simpl. by rewrite app_nil_r.
  - apply Forall_cons in Htext as [Hline Htext].
    unfold lines_bytes. simpl. rewrite <- app_assoc. simpl.
    rewrite BytesToTextArray_loop_line by done.
    fold (lines_bytes text). rewrite IH by done.
    simpl. rewrite string_of_list_byte_of_string. by rewrite <- app_assoc.
Qed.

(** The invariant of the loop of [BytesToTextArray]. *)
Lemma BytesToTextArray_loop_inv (data : list byte) lines cur lines' cur' :
  BytesToTextArray_loop data lines cur = (lines', cur') →
  Forall single_line lines → LF ∉ cur →
  Forall single_line lines' ∧ (LF ∉ cur') ∧
  lines_bytes lines' ++ cur' = lines_bytes lines ++ cur ++ data ∧
  length lines' = (length lines + count_LF data)%nat ∧
  (cur' = [] ↔ (match last data with
                | Some b => b = LF
                | None => cur = []
                end)).
Proof.
  revert lines cur. induction data as [|b data IH]; intros lines cur Hrun Hlines Hcur.
  - simpl in Hrun. injection Hrun as <- <-. rewrite app_nil_r.
    unfold count_LF. simpl. by rewrite Nat.add_0_r.
  - simpl in Hrun. unfold count_LF. simpl. destruct (Byte.eqb b LF) eqn:E.
    + apply Byte_eqb_LF in E as ->.
      apply IH in Hrun as (Hl & Hc & Hbytes & Hlen & Hlast).
      * split; [done|]. split; [done|]. split; [|split].
        -- rewrite Hbytes, lines_bytes_snoc, list_byte_of_string_of_list_byte.
           by rewrite <- !app_assoc.
        -- rewrite Hlen, List.length_app. unfold count_LF. simpl. lia.
        -- rewrite Hlast. rewrite last_cons. by destruct (last data).
      * apply Forall_app. split; [done|]. constructor; [|done].
        unfold single_line. by rewrite list_byte_of_string_of_list_byte.
      * apply not_elem_of_nil.
    + apply eqb_false in E.
      apply IH in Hrun as (Hl & Hc & Hbytes & Hlen & Hlast).
      * split; [done|]. split; [done|]. split; [|split].
        -- rewrite Hbytes. by rewrite <- !app_assoc.
        -- exact Hlen.
        -- rewrite Hlast. rewrite last_cons. destruct (last data); [done|].
           split; [by intros [_ [=]]%app_eq_nil|intros ?; congruence].
      * done.
      * rewrite elem_of_app, list_elem_of_singleton. intros [?|?]; congruence.
Qed.

(** X23.  Splitting the bytes of a text gives the text back exactly when
    no line of the text holds a line feed: then every line comes back as
    it was, empty lines included; a line with a line feed in it comes back
    as several. *)
Theorem TextArrayToBytes_BytesToTextArray (text : list string) :
  BytesToTextArray (TextArrayToBytes text) = text ↔ Forall single_line text.
Proof.
  split.
  - intros <-. unfold BytesToTextArray.
    destruct (BytesToTextArray_loop _ [] []) as [lines cur] eqn:Hrun.
    apply BytesToTextArray_loop_inv in Hrun as (Hl & Hc & _); [|done|apply not_elem_of_nil].
    destruct (0 <? length cur)%nat; [|done].
    apply Forall_app. split; [done|]. constructor; [|done].
    unfold single_line. by rewrite list_byte_of_string_of_list_byte.
  - intros Htext. unfold BytesToTextArray.
    rewrite TextArrayToBytes_lines, BytesToTextArray_loop_lines by done. done.
Qed.

Lemma TextArrayToBytes_BytesToTextArray_witness :
  BytesToTextArray (TextArrayToBytes ["Hello"; ""; "world"]) = ["Hello"; ""; "world"].
Proof.
  apply (proj2 (TextArrayToBytes_BytesToTextArray ["Hello"; ""; "world"])).
  repeat constructor; unfold single_line; vm_compute; intros Hin;
    repeat (apply elem_of_cons in Hin as [Hin|Hin]; [discriminate Hin|]);
    by apply elem_of_nil in Hin.
Defined.

(** X24.  Joining the lines of some bytes gives the bytes back when they
    are empty or end in a line feed; otherwise it gives them back with one
    line feed added at the end.  Nothing else is changed. *)
Theorem BytesToTextArray_TextArrayToBytes (data : list byte) :
  TextArrayToBytes (BytesToTextArray data)
  = if ends_line data then data else data ++ [LF].
Proof.
  unfold BytesToTextArray, ends_line.
  destruct (BytesToTextArray_loop data [] []) as [lines cur] eqn:Hrun.
  apply BytesToTextArray_loop_inv in Hrun as (_ & _ & Hbytes & _ & Hlast);
    [|done|apply not_elem_of_nil].
  simpl in Hbytes. rewrite TextArrayToBytes_lines.
  destruct cur as [|c cur]; simpl.
  - rewrite app_nil_r in Hbytes. rewrite Hbytes.
    destruct (last data) as [b|]; [|done].
    rewrite (proj1 Hlast eq_refl). done.
  - rewrite lines_bytes_snoc, list_byte_of_string_of_list_byte.
    destruct (last data) as [b|] eqn:Hl.
    + destruct (Byte.eqb b LF) eqn:E.
      * apply Byte_eqb_LF in E. by apply Hlast in E.
      * change (c :: cur ++ [LF]) with ((c :: cur) ++ [LF]). by rewrite app_assoc, Hbytes.
    + discriminate (proj2 Hlast eq_refl).
Qed.

(** X25.  No line that [BytesToTextArray] gives holds a line feed, and the
    lines are as many as the line feeds of the data, plus one when the data
    does not end a line: empty lines are kept, and only an empty last line
    without its line feed is not a line. *)
Theorem BytesToTextArray_single_lines (data : list byte) :
  Forall single_line (BytesToTextArray data) ∧
  length (BytesToTextArray data)
  = (count_LF data + if ends_line data then 0 else 1)%nat.
Proof.
  unfold BytesToTextArray, ends_line.
  destruct (BytesToTextArray_loop data [] []) as [lines cur] eqn:Hrun.
  apply BytesToTextArray_loop_inv in Hrun as (Hl & Hc & _ & Hlen & Hlast);
    [|done|apply not_elem_of_nil].
  simpl in Hlen. destruct cur as [|c cur]; simpl.
  - split; [done|]. rewrite Hlen.
    destruct (last data) as [b|]; [|lia].
    rewrite (proj1 Hlast eq_refl). simpl. lia.
  - split.
    + apply Forall_app. split; [done|]. constructor; [|done].
      unfold single_line. by rewrite list_byte_of_string_of_list_byte.
    + rewrite List.length_app, Hlen. simpl.
      destruct (last data) as [b|] eqn:Hdata.
      * destruct (Byte.eqb b LF) eqn:E; [|done].
        apply Byte_eqb_LF in E. by apply Hlast in E.
      * discriminate (proj2 Hlast eq_refl).
Qed.

(** ** Errors, and what is left behind *)

(** X26.  [ModRecipients] never removes its temporary file.  When it
    returns an error after the engine has written its output, and the
    step that failed is not the last rename, the output is left under the
    temporary name and the files are otherwise exactly as before the call:
    the file to change is untouched.  (When the last rename fails, the
    file to change is no longer under its name; see X9.) *)
Theorem ModRecipients_leaves_temporary_file `{Outside}
    (operation : Z) (filename backupExtension : string) (recipients : list string)
    (w : World) (e : error) (sign : bool) (keys : list gpgme.Key.t) (flags : Z)
    (answered : option error) (out : list byte) :
  let run := ModRecipients operation filename backupExtension recipients in
  outcome run w = Some e →
  Encrypt_ev sign keys flags answered (Some out) ∈ calls run w →
  (∃ e0, e = Errorf_w "ModRecipients - file rename (2) failed: " e0) ∨
  ∃ rnd,
    alphanumeric 8 rnd ∧
    fs (world_after run w)
    = <[filename +:+ ("." +:+ rnd) +:+ ".tmp" := File out]> (fs w).
Proof.
  intros run. subst run.
  unfold calls, world_after, outcome.
  destruct (ModRecipients operation filename backupExtension recipients w)
    as [err w'] eqn:Hrun.
  unfold ModRecipients in Hrun. prims. wsimpl.
  repeat step_more Hrun; trace; rewrite ?drop_all; try (intros [=]; fail).
  all: intros [= <-] Hev; mem_cases Hev; try discriminate Hev.
  all: try (by absurd_event Hev).
  all: injection Hev as _ _ _ _ <-.
  all: first
    [ right; exists rnd; split; [exact Hrnd|reflexivity]
    | left; by eexists ].
Qed.

Lemma ModRecipients_leaves_temporary_file_witness :
  let w := world_of [("secret.gpg", File (bytes "old ciphertext"))] in
  let run := @ModRecipients (scripted failing_encryption_script) 2048 "secret.gpg"
               ".bak" ["alice"] in
  (∃ e0, Errorf_w "ModRecipients - Encrypt failed: " (Foreign "General error")
         = Errorf_w "ModRecipients - file rename (2) failed: " e0) ∨
  ∃ rnd,
    alphanumeric 8 rnd ∧
    fs (world_after run w)
    = <["secret.gpg" +:+ ("." +:+ rnd) +:+ ".tmp" := File (bytes "half")]> (fs w).
Proof.
  intros w run.
  apply (@ModRecipients_leaves_temporary_file (scripted failing_encryption_script)
           2048 "secret.gpg" ".bak" ["alice"] w
           (Errorf_w "ModRecipients - Encrypt failed: " (Foreign "General error"))
           false [alice_key] 3072 (Some (Foreign "General error")) (bytes "half")).
  - by vm_compute.
  - vm_compute. find_ev.
Defined.

(** X27.  The errors of [ModRecipients].  An error it returns is its
    invalid-operation error, or its file-is-a-directory error, or it wraps,
    under a prefix of the package, the error that a call of the run
    answered, to [os] or to the engine: the cause can be got back from
    it. *)
Theorem ModRecipients_errors `{Outside}
    (operation : Z) (filename backupExtension : string) (recipients : list string)
    (w : World) (e : error) :
  let run := ModRecipients operation filename backupExtension recipients in
  outcome run w = Some e →
  e = Errorf_v "ModRecipients - invalid operation: " operation ∨
  e = Errorf_w_nil "ModRecipients - file is a directory: " ∨
  ∃ prefix e0 ev, e = Errorf_w prefix e0 ∧ ev ∈ calls run w ∧ answer ev = Some e0.
Proof.
  intros run. subst run.
  unfold calls, world_after, outcome.
  destruct (ModRecipients operation filename backupExtension recipients w)
    as [err w'] eqn:Hrun.
  unfold ModRecipients in Hrun. prims. wsimpl.
  repeat step_more Hrun; trace; rewrite ?drop_all; try (intros [=]; fail).
  all: intros [= <-].
  all: first
    [ by left
    | by (right; left)
    | right; right; eexists _, _, _; split; [reflexivity|];
      split; [find_ev|reflexivity] ].
Qed.

Lemma ModRecipients_errors_witness :
  let w := world_of [("secret.gpg", File (bytes "old ciphertext"))] in
  let run := @ModRecipients (scripted plain_script) 2048 "secret.gpg" ".bak" ["nobody"] in
  ∃ prefix e0 ev,
    Errorf_w "ModRecipients - FindKeys failed: " (Foreign "End of file")
    = Errorf_w prefix e0 ∧
    ev ∈ calls run w ∧ answer ev = Some e0.
Proof.
  intros w run.
  destruct (@ModRecipients_errors (scripted plain_script) 2048 "secret.gpg" ".bak"
              ["nobody"] w
              (Errorf_w "ModRecipients - FindKeys failed: " (Foreign "End of file")))
    as [Hop|[Hdir|Hwrap]].
  - by vm_compute.
  - discriminate Hop.
  - discriminate Hdir.
  - exact Hwrap.
Defined.

(** X28.  The errors of [DecryptFile].  An error it returns is its
    file-is-a-directory error, or its no-destination error, or its
    destination-exists error naming the destination, or it wraps, under a
    prefix of the package, the error that a call of the run answered. *)
Theorem DecryptFile_errors `{Outside}
    (cypherFilename clearFilename : string) (w : World) (e : error) :
  let run := DecryptFile cypherFilename clearFilename in
  DecryptFile_returns.err (outcome run w) = Some e →
  e = Errorf_w_nil "DecryptFile - file is a directory: " ∨
  e = Errorf_0 "DecryptFile - no destination filename given, and no `.gpg` or `.pgp` or `.asc` extension found" ∨
  (∃ destination,
     DecryptFile_destination cypherFilename clearFilename = Some destination ∧
     e = Errorf_s "DecryptFile - destination file exists: " destination) ∨
  ∃ prefix e0 ev, e = Errorf_w prefix e0 ∧ ev ∈ calls run w ∧ answer ev = Some e0.
Proof.
  intros run. subst run.
  unfold calls, world_after, outcome.
  destruct (DecryptFile cypherFilename clearFilename w) as [r w'] eqn:Hrun.
  unfold DecryptFile, DecryptFile_fail, DecryptFile_results, DecryptFile_return in Hrun.
  prims. wsimpl.
  repeat step Hrun; trace; returns_simpl; try (intros [=]; fail).
  all: intros [= <-].
  all: first
    [ by left
    | by (right; left)
    | right; right; left; by eexists
    | right; right; right; eexists _, _, _; split; [reflexivity|];
      split; [find_ev|reflexivity] ].
Qed.

Lemma DecryptFile_errors_witness :
  let run := @DecryptFile (scripted plain_script) "report.txt.gpg" "" in
  ∃ destination,
    DecryptFile_destination "report.txt.gpg" "" = Some destination ∧
    Errorf_s "DecryptFile - destination file exists: " "report.txt"
    = Errorf_s "DecryptFile - destination file exists: " destination.
Proof.
  intros run.
  destruct (@DecryptFile_errors (scripted plain_script) "report.txt.gpg" "" desk
              (Errorf_s "DecryptFile - destination file exists: " "report.txt"))
    as [Hdir|[Hno|[Hexists|(prefix & e0 & ev & Hwrap & _)]]].
  - by vm_compute.
  - discriminate Hdir.
  - discriminate Hno.
  - exact Hexists.
  - discriminate Hwrap.
Defined.

(** X29.  [SignBytes] and [VerifyBytes] never return a [nil] error.  The
    error of a run that returns is [io.EOF] itself, unwrapped, or it wraps,
    under a prefix of the package, the error that a call of the run
    answered. *)
Theorem signatures_go_errors `{Outside} :
  (∀ fuel plainText signWith armored w r w',
     SignBytes fuel plainText signWith armored w = Some (r, w') →
     SignBytes_returns.err r ≠ None ∧
     (SignBytes_returns.err r = Some io_EOF ∨
      ∃ prefix e,
        SignBytes_returns.err r = Some (Errorf_w prefix e) ∧
        Exists (λ ev, answer ev = Some e) (new_events w w'))) ∧
  (∀ fuel cipherText w r w',
     VerifyBytes fuel cipherText w = Some (r, w') →
     VerifyBytes_returns.err r ≠ None ∧
     (VerifyBytes_returns.err r = Some io_EOF ∨
      ∃ prefix e,
        VerifyBytes_returns.err r = Some (Errorf_w prefix e) ∧
        Exists (λ ev, answer ev = Some e) (new_events w w'))).
Proof.
  split.
  - intros fuel plainText signWith armored w r w' Hrun.
    apply SignBytes_run in Hrun
      as [(prefix & e0 & Herr & _ & _ & Hex)
         |(keys & evs & b0 & last & c1 & c2 & Htrace & Hevs & Hn & Hres)].
    + rewrite Herr. split; [done|]. right. by exists prefix, e0.
    + destruct Hres as [(_ & Herr & _)|(e & -> & He & Herr & _)]; rewrite Herr.
      * split; [done|]. by left.
      * split; [done|]. right. eexists _, e. split; [done|].
        rewrite Htrace. apply Exists_app. right. apply Exists_app. right.
        by apply Exists_cons_hd.
  - intros fuel cipherText w r w' Hrun.
    apply VerifyBytes_run in Hrun
      as [(prefix & e0 & Herr & _ & _ & Hex)
         |(evs & b0 & last & c1 & c2 & Htrace & Hevs & Hres)].
    + rewrite Herr. split; [done|]. right. by exists prefix, e0.
    + destruct Hres as [(_ & Herr & _)|(e & -> & He & Herr & _)]; rewrite Herr.
      * split; [done|]. by left.
      * split; [done|]. right. eexists _, e. split; [done|].
        rewrite Htrace. apply Exists_app. right. apply Exists_app. right.
        by apply Exists_cons_hd.
Qed.

(** X30.  What the engine's verification answers is what [VerifyBytes]
    returns.  When the calls before succeed and [Verify] answers a file
    name, signatures and an error, [VerifyBytes] returns, whatever the
    fuel: it returns that file name and those signatures with its
    [Verify] error wrapping the engine's, and no text.  When [Verify]
    answers without error, [VerifyBytes] returns the file name and the
    signatures it answered whichever way the call goes on: when the rewind
    fails, and when the output is drained to its end or to a read that
    fails.  Seen from the calls of a run that returned: the same. *)
Theorem VerifyBytes_keeps_verification `{Outside} :
  (∀ fuel cipherText w w4 fname sigs e,
     VerifyBytes_set_up cipherText w w4 →
     on_Verify w4 = (fname, sigs, Some e) →
     ∃ r w',
       VerifyBytes fuel cipherText w = Some (r, w') ∧
       VerifyBytes_returns.filename r = fname ∧
       VerifyBytes_returns.signatures r = sigs ∧
       VerifyBytes_returns.err r = Some (Errorf_w "VerifyBytes - Verify failed: " e) ∧
       VerifyBytes_returns.plainText r = []) ∧
  (∀ fuel cipherText w w4 fname sigs e,
     VerifyBytes_set_up cipherText w w4 →
     on_Verify w4 = (fname, sigs, None) →
     on_Rewind (emit (Verify_ev None) w4) dataOut = Some e →
     ∃ r w',
       VerifyBytes fuel cipherText w = Some (r, w') ∧
       VerifyBytes_returns.filename r = fname ∧
       VerifyBytes_returns.signatures r = sigs ∧
       VerifyBytes_returns.err r = Some (Errorf_w "VerifyBytes - Rewind failed: " e) ∧
       VerifyBytes_returns.plainText r = []) ∧
  (∀ fuel cipherText fname sigs w w6 k,
     VerifyBytes_reaches_loop cipherText (fname, sigs) w w6 →
     drain_ends k w6 ∨ (∃ e, e ≠ io_EOF ∧ drain_fails k e w6) →
     (k < fuel)%nat →
     ∃ r w',
       VerifyBytes fuel cipherText w = Some (r, w') ∧
       VerifyBytes_returns.filename r = fname ∧
       VerifyBytes_returns.signatures r = sigs) ∧
  (∀ fuel cipherText w r w' e,
     let w1 := emit (New_ev None) w in
     let w2 := emit (SetProtocol_ev gpgme.ProtocolOpenPGP None) w1 in
     let w3 := emit (NewDataBytes_ev dataIn cipherText None)
                 (set_fileName dataIn None w2) in
     let w4 := emit (NewData_ev dataOut None) (set_fileName dataOut None w3) in
     VerifyBytes fuel cipherText w = Some (r, w') →
     Verify_ev e ∈ new_events w w' →
     on_Verify w4
     = (VerifyBytes_returns.filename r, VerifyBytes_returns.signatures r, e) ∧
     (∀ e', e = Some e' →
        VerifyBytes_returns.err r = Some (Errorf_w "VerifyBytes - Verify failed: " e') ∧
        VerifyBytes_returns.plainText r = [])).
Proof.
  split; [|split; [|split]].
  - intros fuel cipherText w w4 fname sigs e
      (HNew & HSetProtocol & HNewDataBytes & HNewData & ->) HVerify.
    unfold VerifyBytes, VerifyBytes_return. prims. wsimpl.
    answered HNew. answered HSetProtocol. answered HNewDataBytes. answered HNewData.
    answered HVerify.
    eexists _, _. split; [reflexivity|]. by repeat split.
  - intros fuel cipherText w w4 fname sigs e
      (HNew & HSetProtocol & HNewDataBytes & HNewData & ->) HVerify HRewind.
    unfold VerifyBytes, VerifyBytes_return. prims. wsimpl.
    answered HNew. answered HSetProtocol. answered HNewDataBytes. answered HNewData.
    answered HVerify. answered HRewind.
    eexists _, _. split; [reflexivity|]. by repeat split.
  - intros fuel cipherText fname sigs w w6 k
      (HNew & HSetProtocol & HNewDataBytes & HNewData & HVerify & HRewind & ->)
      Hdrain Hfuel.
    unfold VerifyBytes, VerifyBytes_return. prims. wsimpl.
    answered HNew. answered HSetProtocol. answered HNewDataBytes. answered HNewData.
    answered HVerify. answered HRewind.
    destruct Hdrain as [Hends|(e & He & Hfails)].
    + match goal with |- context [VerifyBytes_read fuel ?acc ?s ?f ?w6] =>
        destruct (VerifyBytes_read_ends k w6 acc s f fuel Hends Hfuel)
          as (r & w' & -> & _ & Hsigs & Hname) end.
      by eexists _, _.
    + match goal with |- context [VerifyBytes_read fuel ?acc ?s ?f ?w6] =>
        destruct (VerifyBytes_read_fails k e w6 acc s f fuel Hfails He Hfuel)
          as (r & evs & b & -> & _ & _ & _ & _ & Hsigs & Hname) end.
      by eexists _, _.
  - intros fuel cipherText w r w' e w1 w2 w3 w4 Hrun. subst w1 w2 w3 w4.
    unfold VerifyBytes, VerifyBytes_return in Hrun. prims. wsimpl.
    repeat step Hrun.
    all: try lazymatch goal with
         | Hl : VerifyBytes_read _ _ _ _ _ = Some _ |- _ =>
             apply VerifyBytes_read_run in Hl
               as (evs & b & last & -> & Hevs & Hsigs & Hname & Hres)
         end.
    all: trace; cbn [VerifyBytes_returns.err VerifyBytes_returns.plainText
                     VerifyBytes_returns.signatures VerifyBytes_returns.filename].
    all: intros Hev; mem_cases Hev; try discriminate Hev.
    all: try (by absurd_event Hev).
    all: injection Hev as ->.
    all: rewrite ?Hsigs, ?Hname.
    all: split; [congruence|].
    all: first [ by intros e2 [= <-] | by intros e2 [=] ].
Qed.

Lemma VerifyBytes_keeps_verification_witness :
  ∃ r w',
    @VerifyBytes bad_signature 1 (bytes "signed") (world_of []) = Some (r, w') ∧
    VerifyBytes_returns.filename r = "letter.txt" ∧
    VerifyBytes_returns.signatures r = ["bad signature"] ∧
    VerifyBytes_returns.err r
    = Some (Errorf_w "VerifyBytes - Verify failed: " (Foreign "Bad signature")) ∧
    VerifyBytes_returns.plainText r = [].
Proof.
  eapply (proj1 (@VerifyBytes_keeps_verification bad_signature)
            1%nat (bytes "signed") (world_of []) _ "letter.txt" ["bad signature"]
            (Foreign "Bad signature")).
  - unfold VerifyBytes_set_up. repeat split; reflexivity.
  - reflexivity.
Defined.
